(** * roas-restql: the conflict-aware write pipeline

    A shallow embedding of [lib/middlewares.js] (unique index resolver,
    soft-delete reconciler, conflict translator, write orchestrator,
    existing-row partitioner) and of the association query rewriters of
    [lib/loaders.js], followed by the properties proved about them.

    Conventions of the embedding:
    - a JavaScript record is an association list in insertion order with
      unique keys, read with own-property lookup;
    - numbers are the integers ([Z]); a [Date] carries the identity of
      its object and its [getTime()];
    - every call on the Sequelize model goes through an adapter and is
      logged, so that "no store call was made" is a statement about the
      log. *)

From Stdlib Require Import ZArith String Ascii List Bool Lia DecimalString.
From stdpp Require Import base list.
Import ListNotations.
Local Open Scope string_scope.
Local Open Scope Z_scope.

(** ** JavaScript values held by records *)

Inductive value : Type :=
| VUndefined
| VNull
| VBool (b : bool)
| VNum (n : Z)
| VStr (s : string)
| VDate (ref : nat) (time : Z).

(** Structural equality on values. *)
Definition value_eqb (a b : value) : bool :=
  match a, b with
  | VUndefined, VUndefined => true
  | VNull, VNull => true
  | VBool x, VBool y => Bool.eqb x y
  | VNum x, VNum y => Z.eqb x y
  | VStr x, VStr y => String.eqb x y
  | VDate r x, VDate s y => Nat.eqb r s && Z.eqb x y
  | _, _ => false
  end.

(** [a === b]: primitives by value, objects (dates) by identity. *)
Definition strict_eq (a b : value) : bool :=
  match a, b with
  | VUndefined, VUndefined => true
  | VNull, VNull => true
  | VBool x, VBool y => Bool.eqb x y
  | VNum x, VNum y => Z.eqb x y
  | VStr x, VStr y => String.eqb x y
  | VDate r _, VDate s _ => Nat.eqb r s
  | _, _ => false
  end.

(** ToBoolean. *)
Definition truthy (v : value) : bool :=
  match v with
  | VUndefined | VNull => false
  | VBool b => b
  | VNum n => negb (Z.eqb n 0)
  | VStr s => negb (String.eqb s "")
  | VDate _ _ => true
  end.

Definition is_date (v : value) : bool :=
  match v with VDate _ _ => true | _ => false end.

Section LooseEquality.

(** Two primitives of the language that are not modelled further:
    the text of a date ([Date.prototype.toString]) and the numeric
    reading of a string (ToNumber; [None] is NaN). *)
Variable Date_toString : Z -> string.
Variable StringToNumber : string -> option Z.

Definition num_eq_str (n : Z) (s : string) : bool :=
  match StringToNumber s with
  | Some m => Z.eqb n m
  | None => false
  end.

Definition bool_num (b : bool) : Z := if b then 1 else 0.

(** [a == b], the abstract equality comparison. *)
Definition loose_eq (a b : value) : bool :=
  match a, b with
  | VUndefined, (VUndefined | VNull) => true
  | VNull, (VUndefined | VNull) => true
  | VNum x, VNum y => Z.eqb x y
  | VStr x, VStr y => String.eqb x y
  | VBool x, VBool y => Bool.eqb x y
  | VDate r _, VDate s _ => Nat.eqb r s
  | VNum x, VStr y => num_eq_str x y
  | VStr x, VNum y => num_eq_str y x
  | VBool x, VNum y => Z.eqb (bool_num x) y
  | VNum x, VBool y => Z.eqb x (bool_num y)
  | VBool x, VStr y => num_eq_str (bool_num x) y
  | VStr x, VBool y => num_eq_str (bool_num y) x
  | VDate _ t, VStr y => String.eqb (Date_toString t) y
  | VStr x, VDate _ t => String.eqb x (Date_toString t)
  | VDate _ t, VNum y => num_eq_str y (Date_toString t)
  | VNum x, VDate _ t => num_eq_str x (Date_toString t)
  | VDate _ t, VBool y => num_eq_str (bool_num y) (Date_toString t)
  | VBool x, VDate _ t => num_eq_str (bool_num x) (Date_toString t)
  | _, _ => false
  end.

End LooseEquality.

(** ** Records *)

Definition record : Type := list (string * value).

(** [r[k]] *)
Fixpoint prop_get (r : record) (k : string) : value :=
  match r with
  | [] => VUndefined
  | (k', v) :: r' => if String.eqb k k' then v else prop_get r' k
  end.

(** [r[k] = v]: an existing key keeps its place, a new one goes last. *)
Fixpoint prop_set (r : record) (k : string) (v : value) : record :=
  match r with
  | [] => [(k, v)]
  | (k', v') :: r' =>
      if String.eqb k k' then (k', v) :: r' else (k', v') :: prop_set r' k v
  end.

(** [delete r[k]] *)
Fixpoint prop_delete (r : record) (k : string) : record :=
  match r with
  | [] => []
  | (k', v') :: r' =>
      if String.eqb k k' then prop_delete r' k else (k', v') :: prop_delete r' k
  end.

(** [Object.keys(r)] *)
Definition keys (r : record) : list string := map fst r.

(** [_.assign(target, source)] on a fresh or owned target. *)
Definition assign (target source : record) : record :=
  fold_left (fun t p => prop_set t (fst p) (snd p)) source target.

(** ** Model descriptors *)

Record Attribute : Type := { defaultValue : value }.

Record DeclaredIndex : Type := {
  di_unique : bool;
  di_name : option string;
  di_fields : list string
}.

Record UniqueKey : Type := {
  uk_name : option string;
  uk_fields : list string
}.

Record ModelOptions : Type := {
  indexes : list DeclaredIndex;
  uniqueKeys : list (string * UniqueKey);
  paranoid : bool;
  deletedAt : option string
}.

Record Model : Type := {
  name : string;
  primaryKeys : option (list string);
  attributes : list (string * Attribute);
  options : ModelOptions
}.

(** [attributes[key]] *)
Fixpoint attribute (attrs : list (string * Attribute)) (k : string)
  : option Attribute :=
  match attrs with
  | [] => None
  | (k', a) :: attrs' => if String.eqb k k' then Some a else attribute attrs' k
  end.

(** The index objects built by [_getIndexes]. *)
Record Index : Type := {
  idx_name : option string;
  idx_unique : bool;
  idx_primary : bool;
  idx_fields : list string
}.

(** ** Unique index resolver *)

Definition _getIndexes (model : Model) : list Index :=
  let idxes0 :=
    match primaryKeys model with
    | Some ks =>
        match ks with
        | [] => []
        | _ => [ {| idx_name := Some "PRIMARY"; idx_unique := true;
                    idx_primary := true; idx_fields := ks |} ]
        end
    | None => []
    end in
  let idxes1 :=
    map (fun index =>
           {| idx_name := di_name index; idx_unique := di_unique index;
              idx_primary := false; idx_fields := di_fields index |})
        (indexes (options model)) in
  let idxes2 :=
    map (fun kv =>
           {| idx_name := uk_name (snd kv); idx_unique := true;
              idx_primary := false; idx_fields := uk_fields (snd kv) |})
        (uniqueKeys (options model)) in
  idxes0 ++ idxes1 ++ idxes2.

Definition _getUniqueIndexes (model : Model) : list Index :=
  List.filter (fun index => idx_unique index) (_getIndexes model).

(** [index.fields.every(field => data[field] !== undefined)] *)
Definition index_valid_for (data : record) (index : Index) : bool :=
  forallb (fun field => negb (strict_eq (prop_get data field) VUndefined))
          (idx_fields index).

Definition _getInstanceValidIndexes (indexes : list Index) (data : record)
  : list Index :=
  List.filter (index_valid_for data) indexes.

(** The source builds [fields] by assignment in field order. *)
Definition _getInstanceValidIndexFields (indexes : list Index) (data : record)
  : option record :=
  match _getInstanceValidIndexes indexes data with
  | [] => None
  | index :: _ =>
      Some (fold_left (fun fields field => prop_set fields field (prop_get data field))
                      (idx_fields index) [])
  end.

(** ** Errors and outcomes *)

(** What a rejected Sequelize call carries: [error.name], [error.fields]. *)
Record StoreError : Type := {
  err_name : string;
  err_fields : option record
}.

(** How a piece of the pipeline ends. *)
Inductive outcome (A : Type) : Type :=
| Ok (a : A)
| HttpError (status : Z) (message : string)   (* ctx.throw(message, status) *)
| WrappedError (e : StoreError)               (* throw new Error(error) *)
| StoreRejection (e : StoreError)             (* a rejected call, not caught *)
| TypeError                                   (* property access on undefined *)
| Diverged.                                   (* the loop ran out of fuel *)

Arguments Ok {A} a.
Arguments HttpError {A} status message.
Arguments WrappedError {A} e.
Arguments StoreRejection {A} e.
Arguments TypeError {A}.
Arguments Diverged {A}.

(** A property key made from a possibly undefined name. *)
Definition key_of (o : option string) : string :=
  match o with
  | Some s => s
  | None => "undefined"
  end.

Definition truthy_name (o : option string) : bool :=
  match o with
  | Some s => negb (String.eqb s "")
  | None => false
  end.

(** ** Dispatch on the runtime type *)

Inductive js_type : Type :=
| TObject | TArray | TString | TBool | TNumber | TOther.

Record Callbacks (X R : Type) : Type := {
  cb_object : option (X -> R);
  cb_array : option (X -> R);
  cb_string : option (X -> R);
  cb_bool : option (X -> R);
  cb_number : option (X -> R);
  cb_defaults : option (X -> R)
}.

Arguments cb_object {X R} _.
Arguments cb_array {X R} _.
Arguments cb_string {X R} _.
Arguments cb_bool {X R} _.
Arguments cb_number {X R} _.
Arguments cb_defaults {X R} _.

(** Modelled from the spec: [common.switchByType] lives in
    [lib/common.js], which is not among the sources.  The spec's
    "a single scalar maps to one field, a delimited composite value
    splits" and "a single record or every record of a batch" are both
    written with it: it picks the callback named after the runtime type
    of its first argument, applies it, and gives [undefined] ([None])
    when there is no such callback. *)
Definition switchByType {X R : Type} (type_of : X -> js_type)
    (param : X) (callbacks : Callbacks X R) : option R :=
  let callback :=
    match type_of param with
    | TObject => cb_object callbacks
    | TArray => cb_array callbacks
    | TString => cb_string callbacks
    | TBool => cb_bool callbacks
    | TNumber => cb_number callbacks
    | TOther => cb_defaults callbacks
    end in
  match callback with
  | Some f => Some (f param)
  | None => None
  end.

(** [typeof], with arrays told apart from other objects. *)
Definition type_of_value (v : value) : js_type :=
  match v with
  | VUndefined => TOther
  | VNull => TObject
  | VBool _ => TBool
  | VNum _ => TNumber
  | VStr _ => TString
  | VDate _ _ => TObject
  end.

(** A request body: one record or a batch. *)
Inductive body : Type :=
| BObject (r : record)
| BArray (rs : list record).

Definition type_of_body (b : body) : js_type :=
  match b with
  | BObject _ => TObject
  | BArray _ => TArray
  end.

(** ** Soft-delete reconciler *)

(** [r]: the row instance, or [None] for [null]. *)
Definition isDeleted (model : Model) (row : option record) : outcome bool :=
  let attributes := attributes model in
  let paranoid := paranoid (options model) in
  let deletedAtCol := deletedAt (options model) in
  if negb paranoid || negb (truthy_name deletedAtCol) then Ok false
  else
    match row with
    | None => Ok true
    | Some row =>
        match attribute attributes (key_of deletedAtCol) with
        | None => TypeError
        | Some a =>
            let defaultDeletedAt :=
              if strict_eq (defaultValue a) VUndefined then VNull
              else defaultValue a in
            let deletedAt := prop_get row (key_of deletedAtCol) in
            match defaultDeletedAt, deletedAt with
            | VDate _ t, VDate _ t' => Ok (negb (Z.eqb t t'))
            | _, _ => Ok (negb (strict_eq defaultDeletedAt deletedAt))
            end
        end
    end.

(** The body is mutated in place by the source; the stamped body is
    returned here.  A body is an object or an array, so the source's
    guard [if (!data) return] never fires. *)
Definition setDefaultDeletedValue (model : Model) (data : body)
  : outcome body :=
  let attributes := attributes model in
  let paranoid := paranoid (options model) in
  let deletedAtCol := deletedAt (options model) in
  if negb paranoid || negb (truthy_name deletedAtCol) then Ok data
  else
    match attribute attributes (key_of deletedAtCol) with
    | None => TypeError
    | Some a =>
        let defaultDeletedAt :=
          if strict_eq (defaultValue a) VUndefined then VNull
          else defaultValue a in
        let stamp row := prop_set row (key_of deletedAtCol) defaultDeletedAt in
        let stamped :=
          switchByType type_of_body data
            {| cb_object := Some (fun data =>
                 match data with
                 | BObject r => BObject (stamp r)
                 | BArray rs => BArray rs
                 end);
               cb_array := Some (fun data =>
                 match data with
                 | BArray rs => BArray (map stamp rs)
                 | BObject r => BObject r
                 end);
               cb_string := None; cb_bool := None;
               cb_number := None; cb_defaults := None |} in
        match stamped with
        | Some data' => Ok data'
        | None => Ok data
        end
    end.

(** ** Conflict translator *)

(** [s.split(sep)] for a one-character separator. *)
Fixpoint split_on (sep : ascii) (s : string) : list string :=
  match s with
  | EmptyString => [EmptyString]
  | String c s' =>
      if Ascii.eqb c sep then EmptyString :: split_on sep s'
      else
        match split_on sep s' with
        | [] => [String c EmptyString]
        | w :: ws => String c w :: ws
        end
  end.

(** [uniqueIndex.fields.forEach((field, index) => ret[field] = value[index])] *)
Fixpoint decode_into (ret : record) (fields : list string) (value : list value)
  : record :=
  match fields with
  | [] => ret
  | field :: fields' =>
      decode_into (prop_set ret field (hd VUndefined value)) fields' (tl value)
  end.

Definition is_some {A : Type} (o : option A) : bool :=
  match o with Some _ => true | None => false end.

Definition _getUniqueConstraintErrorFields (model : Model) (error : StoreError)
  : option record :=
  let attributes := attributes model in
  match err_fields error with
  | None => None
  | Some fields =>
      let fieldsIsValid :=
        forallb (fun key => is_some (attribute attributes key)) (keys fields) in
      if fieldsIsValid then Some fields
      else
        let uniqueIndexes := _getUniqueIndexes model in
        let uniqueIndex :=
          List.find (fun index => truthy (prop_get fields (key_of (idx_name index))))
                    uniqueIndexes in
        match uniqueIndex with
        | None => None
        | Some uniqueIndex =>
            let value := prop_get fields (key_of (idx_name uniqueIndex)) in
            let value :=
              switchByType type_of_value value
                {| cb_number := Some (fun value => [value]);
                   cb_string := Some (fun value =>
                     match value with
                     | VStr s => map VStr (split_on "-"%char s)
                     | _ => []
                     end);
                   cb_object := None; cb_array := None;
                   cb_bool := None; cb_defaults := None |} in
            match value with
            | None => None
            | Some [] => None
            | Some value =>
                Some (decode_into [] (idx_fields uniqueIndex) value)
            end
        end
  end.

(** ** The store adapter (Sequelize model methods) *)

Record WriteOptions : Type := {
  ignoreDuplicates : value;
  include : option (list string);
  fields : option (list string);
  updateOnDuplicate : option (list string)
}.

Inductive WhereClause : Type :=
| WhereFields (w : option record)          (* where: fields *)
| WhereOr (ors : list (option record)).    (* where: { $or } *)

Record QueryOptions : Type := {
  q_where : WhereClause;
  q_paranoid_false : bool;                 (* paranoid: false *)
  q_order_id_asc : bool                    (* order: [['id', 'ASC']] *)
}.

(** The settled promise of a store call. *)
Inductive reply (A : Type) : Type :=
| Resolved (a : A)
| Rejected (e : StoreError).

Arguments Resolved {A} a.
Arguments Rejected {A} e.

(** One entry of the log of store calls. *)
Inductive StoreCall : Type :=
| CallUpsert (data : record)
| CallCreate (data : record) (opts : option WriteOptions)
| CallBulkCreate (data : list record) (opts : option WriteOptions)
| CallUpdate (data : record) (opts : QueryOptions)
| CallRestore (row : record)
| CallFind (opts : QueryOptions)
| CallFindAll (opts : QueryOptions).

Definition mutating (c : StoreCall) : bool :=
  match c with
  | CallFind _ | CallFindAll _ => false
  | _ => true
  end.

(** The model's methods over a store state of any type: writes may
    change the state, reads may not; every call may be rejected. *)
Record Sequelize (Store : Type) : Type := {
  db_upsert : Store -> record -> Store * reply bool;
  db_create : Store -> record -> option WriteOptions -> Store * reply record;
  db_bulkCreate :
    Store -> list record -> option WriteOptions -> Store * reply unit;
  db_update : Store -> record -> QueryOptions -> Store * reply unit;
  db_restore : Store -> record -> Store * reply unit;
  db_find : Store -> QueryOptions -> reply (option record);
  db_findAll : Store -> QueryOptions -> reply (list record)
}.

Arguments db_upsert {Store} _.
Arguments db_create {Store} _.
Arguments db_bulkCreate {Store} _.
Arguments db_update {Store} _.
Arguments db_restore {Store} _.
Arguments db_find {Store} _.
Arguments db_findAll {Store} _.

(** ** State and exceptions *)

Section StateError.

Context {S : Type}.

Definition ST (A : Type) : Type := S -> S * outcome A.

Definition ret {A : Type} (a : A) : ST A := fun w => (w, Ok a).

(** A thrown outcome at another result type; it is applied to thrown
    outcomes only. *)
Definition raise {A B : Type} (o : outcome A) : outcome B :=
  match o with
  | Ok _ => TypeError
  | HttpError s m => HttpError s m
  | WrappedError e => WrappedError e
  | StoreRejection e => StoreRejection e
  | TypeError => TypeError
  | Diverged => Diverged
  end.

Definition bind {A B : Type} (m : ST A) (k : A -> ST B) : ST B :=
  fun w =>
    match m w with
    | (w', Ok a) => k a w'
    | (w', o) => (w', raise o)
    end.

(** A pure step that may throw. *)
Definition lift {A : Type} (o : outcome A) : ST A := fun w => (w, o).

Definition throw_TypeError {A : Type} : ST A := fun w => (w, TypeError).

End StateError.

Arguments ST : clear implicits.

Declare Scope monad_scope.
Delimit Scope monad_scope with monad.
Notation "x <- m ;; k" := (bind m (fun x => k))
  (at level 100, m at next level, right associativity) : monad_scope.
Notation "m ;;; k" := (bind m (fun _ => k))
  (at level 100, right associativity) : monad_scope.
Local Open Scope monad_scope.

(** ** The monad of the orchestrator: store state, call log, outcome *)

Definition world (Store : Type) : Type := (Store * list StoreCall)%type.

Definition M (Store A : Type) : Type := ST (world Store) A.

Section Monad.

Context {Store : Type}.

(** [ctx.throw(message, status)] *)
Definition ctx_throw {A : Type} (message : string) (status : Z)
  : M Store A :=
  fun w => (w, HttpError status message).

Definition throw_new_Error {A : Type} (error : StoreError) : M Store A :=
  fun w => (w, WrappedError error).

(** [await call] outside any [try]: a rejection propagates. *)
Definition await {A : Type} (call : M Store (reply A)) : M Store A :=
  r <- call ;;
  match r with
  | Resolved a => ret a
  | Rejected e => fun w => (w, StoreRejection e)
  end.

Variable db : Sequelize Store.

Definition write_call {A : Type} (c : StoreCall)
    (f : Store -> Store * reply A) : M Store (reply A) :=
  fun w => let '(s, log) := w in
           let '(s', r) := f s in ((s', (log ++ [c])%list), Ok r).

Definition read_call {A : Type} (c : StoreCall)
    (f : Store -> reply A) : M Store (reply A) :=
  fun w => let '(s, log) := w in ((s, (log ++ [c])%list), Ok (f s)).

Definition model_upsert (data : record) : M Store (reply bool) :=
  write_call (CallUpsert data) (fun s => db_upsert db s data).

Definition model_create (data : record) (opts : option WriteOptions)
  : M Store (reply record) :=
  write_call (CallCreate data opts) (fun s => db_create db s data opts).

Definition model_bulkCreate (data : list record) (opts : option WriteOptions)
  : M Store (reply unit) :=
  write_call (CallBulkCreate data opts)
             (fun s => db_bulkCreate db s data opts).

Definition model_update (data : record) (opts : QueryOptions)
  : M Store (reply unit) :=
  write_call (CallUpdate data opts) (fun s => db_update db s data opts).

Definition row_restore (row : record) : M Store (reply unit) :=
  write_call (CallRestore row) (fun s => db_restore db s row).

Definition model_find (opts : QueryOptions)
  : M Store (reply (option record)) :=
  read_call (CallFind opts) (fun s => db_find db s opts).

Definition model_findAll (opts : QueryOptions)
  : M Store (reply (list record)) :=
  read_call (CallFindAll opts) (fun s => db_findAll db s opts).

End Monad.


(** ** Array helpers *)

(** [l.findIndex(f)]; [None] is [-1]. *)
Fixpoint findIndex {A : Type} (f : A -> bool) (l : list A) : option nat :=
  match l with
  | [] => None
  | x :: l' =>
      if f x then Some O
      else match findIndex f l' with
           | Some i => Some (S i)
           | None => None
           end
  end.

(** [l.splice(index, 1)] *)
Definition splice1 {A : Type} (index : nat) (l : list A) : list A :=
  (firstn index l ++ skipn (S index) l)%list.

(** [l.sort()] on strings: ascending by character code. *)
Fixpoint insert_sorted (s : string) (l : list string) : list string :=
  match l with
  | [] => [s]
  | x :: l' => if String.leb s x then s :: l else x :: insert_sorted s l'
  end.

Definition sort_strings (l : list string) : list string :=
  fold_right insert_sorted [] l.

Fixpoint strings_eqb (a b : list string) : bool :=
  match a, b with
  | [], [] => true
  | x :: a', y :: b' => String.eqb x y && strings_eqb a' b'
  | _, _ => false
  end.

(** ** Write orchestrator *)

Record Conflict : Type := {
  c_row : record;
  c_fields : record
}.

(** The receiver of [_bulkCreate.call(this, ...)]: the caller's [this]. *)
Inductive receiver : Type :=
| ThisUndefined
| ThisContext.

Definition unique_constraint_message (model : Model) : string :=
  "RestQL: " ++ name model ++ " unique constraint error".

Definition is_unique_violation (error : StoreError) : bool :=
  String.eqb (err_name error) "SequelizeUniqueConstraintError".

(** [for (let key in attributes)]: every declared default is written
    on the row with [setDataValue]. *)
Definition reset_to_defaults (attributes : list (string * Attribute))
    (row : record) : record :=
  fold_left
    (fun row ka =>
       let defaultValue := defaultValue (snd ka) in
       if negb (strict_eq defaultValue VUndefined)
       then prop_set row (fst ka) defaultValue
       else row)
    attributes row.

Definition query_where (w : option record) : QueryOptions :=
  {| q_where := WhereFields w; q_paranoid_false := false;
     q_order_id_asc := false |}.

Definition only_updateOnDuplicate (cols : list string) : WriteOptions :=
  {| ignoreDuplicates := VUndefined; include := None; fields := None;
     updateOnDuplicate := Some cols |}.

Section Orchestrator.

Context {Store : Type}.
Variable db : Sequelize Store.

(** [try { a = await call; then_ a } catch (error) {
       if (error.name !== 'SequelizeUniqueConstraintError')
         throw new Error(error);
       on_violation error }] *)
Definition try_unique {A B : Type} (call : M Store (reply A))
    (then_ : A -> M Store B) (on_violation : StoreError -> M Store B)
  : M Store B :=
  r <- call ;;
  match r with
  | Resolved a => then_ a
  | Rejected error =>
      if negb (is_unique_violation error) then throw_new_Error error
      else on_violation error
  end.

Definition _handleUniqueConstraintError (model : Model) (error : StoreError)
    (opts : option WriteOptions) : M Store Conflict :=
  let message := unique_constraint_message model in
  let status := 409 in
  let fields := _getUniqueConstraintErrorFields model error in
  let attributes := attributes model in
  let paranoid := paranoid (options model) in
  let deletedAtCol := deletedAt (options model) in
  let ignoreDuplicates :=
    match opts with
    | Some opts => ignoreDuplicates opts
    | None => VUndefined
    end in
  (* if (!deletedAtCol || !paranoid) ;   <- the guarded statement is empty *)
  (if negb (truthy_name deletedAtCol) || negb paranoid
   then ret tt else ret tt) ;;;
  (* ctx.throw(message, status);         <- runs whatever the test said *)
  (ctx_throw message status : M Store unit) ;;;
  row <- await (model_find db
           {| q_where := WhereFields fields; q_paranoid_false := true;
              q_order_id_asc := false |}) ;;
  match fields, row with
  | Some fields, Some row =>
      live_duplicate <-
        (if truthy ignoreDuplicates then ret false
         else deleted <- lift (isDeleted model (Some row)) ;;
              ret (negb deleted)) ;;
      if (live_duplicate : bool) then ctx_throw message status
      else ret {| c_row := reset_to_defaults attributes row;
                  c_fields := fields |}
  | _, _ => ctx_throw message status
  end.

Definition _update (model : Model) (data : record) (options : QueryOptions)
  : M Store (list record) :=
  let handler (error : StoreError) : M Store (list record) :=
    conflict <- _handleUniqueConstraintError model error None ;;
    ctx_throw (unique_constraint_message model) 409 in
  let data :=
    if truthy (prop_get data "id") then prop_delete data "id" else data in
  try_unique (model_update db data options)
    (fun _ => try_unique (model_findAll db options) ret handler)
    handler.

Definition _create (model : Model) (data : record)
    (options : option WriteOptions) : M Store (option record) :=
  let id := prop_get data "id" in
  let data := if truthy id then prop_delete data "id" else data in
  try_unique (model_create db data options)
    (fun data => ret (Some data))
    (fun error =>
       conflict <- _handleUniqueConstraintError model error options ;;
       let row := c_row conflict in
       let fields := c_fields conflict in
       data <- _update model (assign (assign [] row) data)
                 (query_where (Some fields)) ;;
       ret (hd_error data)).

Definition _upsert (model : Model) (data : record)
  : M Store (bool * option record) :=
  let uniqueIndexes := _getUniqueIndexes model in
  let where_ := _getInstanceValidIndexFields uniqueIndexes data in
  (if negb (is_some where_)
   then ctx_throw "RestQL: unique index fields cannot be found" 400
   else ret tt) ;;;
  created <- try_unique (model_upsert db data) ret
               (fun _ => ctx_throw (unique_constraint_message model) 409) ;;
  data <- await (model_find db (query_where where_)) ;;
  data <- (if negb (is_some data)
           then await (model_find db
                  {| q_where := WhereFields where_; q_paranoid_false := true;
                     q_order_id_asc := false |})
           else ret data) ;;
  deleted <- lift (isDeleted model data) ;;
  (if (deleted : bool)
   then match data with
        | Some row => await (row_restore db row)
        | None => throw_TypeError
        end
   else ret tt) ;;;
  ret (created, data).

(** [data.forEach(row => { where = ...; if (!where) fail; $or.push(where) })] *)
Fixpoint identities (fail : M Store unit)
    (uniqueIndexes : list Index) (data : list record)
  : M Store (list record) :=
  match data with
  | [] => ret []
  | row :: rest =>
      let where_ := _getInstanceValidIndexFields uniqueIndexes row in
      match where_ with
      | None => fail ;;; identities fail uniqueIndexes rest
      | Some where_ =>
          ors <- identities fail uniqueIndexes rest ;;
          ret (where_ :: ors)
      end
  end.

(** Serialisation with [JSON.stringify] is injective on arrays of
    strings: the sorted key lists are compared directly. *)
Definition _bulkUpsert (model : Model) (data : list record)
  : M Store (list record) :=
  match data with
  | [] => ret []
  | first :: _ =>
      let match_ := sort_strings (keys first) in
      let isValid :=
        forallb (fun item => strings_eqb item match_)
                (map (fun row => sort_strings (keys row)) data) in
      (if negb isValid
       then ctx_throw "RestQL: array elements have different attributes" 400
       else ret tt) ;;;
      let uniqueIndexes := _getUniqueIndexes model in
      or_ <- identities
               (ctx_throw "RestQL: unique index fields cannot be found" 400)
               uniqueIndexes data ;;
      try_unique
        (let updatedFields :=
           List.filter (fun key => negb (String.eqb key "id")) (keys first) in
         model_bulkCreate db data (Some (only_updateOnDuplicate updatedFields)))
        ret
        (fun _ => ctx_throw (unique_constraint_message model) 409) ;;;
      await (model_findAll db
        {| q_where := WhereOr (map Some or_); q_paranoid_false := false;
           q_order_id_asc := true |})
  end.

End Orchestrator.

(** ** bulkCreate and its retry loop *)

(** One pass through the body of [while (true)]. *)
Inductive iteration : Type :=
| Done
| Retry (data : list record) (conflicts : list Conflict).

Section RetryLoop.

Context {Store : Type}.
Variable db : Sequelize Store.
Variable Date_toString : Z -> string.
Variable StringToNumber : string -> option Z.

(** The resolver called on a violation; [_bulkCreate] below passes
    [_handleUniqueConstraintError]. *)
Variable resolve :
  Model -> StoreError -> option WriteOptions -> M Store Conflict.

(** [row => Object.keys(fields).every(key => fields[key] == row[key])] *)
Definition matches_conflict (fields : record) (row : record) : bool :=
  forallb
    (fun key => loose_eq Date_toString StringToNumber
                  (prop_get fields key) (prop_get row key))
    (keys fields).

Definition bulkCreate_attempt (model : Model)
    (options : option WriteOptions)
    (data : list record) (conflicts : list Conflict) : M Store iteration :=
  try_unique (model_bulkCreate db data options)
    (fun _ => ret Done)
    (fun error =>
       conflict <- resolve model error None ;;
       let row := c_row conflict in
       let fields := c_fields conflict in
       match findIndex (matches_conflict fields) data with
       | Some index =>
           let conflict :=
             {| c_row := assign (assign [] row) (nth index data []);
                c_fields := fields |} in
           ret (Retry (splice1 index data) (conflicts ++ [conflict])%list)
       | None =>
           ctx_throw "RestQL: bulkCreate unique index field error" 500
       end).

(** [while (true) { ... }], cut off after [fuel] passes. *)
Fixpoint bulkCreate_loop (fuel : nat) (model : Model)
    (options : option WriteOptions)
    (data : list record) (conflicts : list Conflict)
  : M Store (list record * list Conflict) :=
  match fuel with
  | O => fun w => (w, Diverged)
  | S fuel' =>
      it <- bulkCreate_attempt model options data conflicts ;;
      match it with
      | Done => ret (data, conflicts)
      | Retry data' conflicts' =>
          bulkCreate_loop fuel' model options data' conflicts'
      end
  end.

End RetryLoop.

Section BulkCreate.

Context {Store : Type}.
Variable db : Sequelize Store.
Variable Date_toString : Z -> string.
Variable StringToNumber : string -> option Z.

(** [this.throw(message, status)] inside [_bulkCreate] *)
Definition this_throw {A : Type} (this : receiver)
    (message : string) (status : Z) : M Store A :=
  match this with
  | ThisUndefined => throw_TypeError
  | ThisContext => ctx_throw message status
  end.

Definition _bulkCreate (fuel : nat) (this : receiver) (model : Model)
    (data : list record) (options : option WriteOptions)
  : M Store (list record) :=
  let uniqueIndexes := _getUniqueIndexes model in
  or_ <- identities
           (this_throw this "RestQL: unique index fields cannot be found" 400)
           uniqueIndexes data ;;
  dc <- bulkCreate_loop db Date_toString StringToNumber
          (_handleUniqueConstraintError db) fuel model options data [] ;;
  let conflicts := snd dc in
  (match conflicts with
   | [] => ret tt
   | _ =>
       let rows := map c_row conflicts in
       try_unique
         (model_bulkCreate db rows
            (Some (only_updateOnDuplicate (map fst (attributes model)))))
         ret
         (fun _ => ctx_throw (unique_constraint_message model) 409)
   end) ;;;
  await (model_findAll db
    {| q_where := WhereOr (map Some or_); q_paranoid_false := false;
       q_order_id_asc := true |}).

End BulkCreate.

(** ** Existing-row partitioner *)

Record OrEntry : Type := {
  or_fields : option record;
  or_row : record
}.

Definition getOr (uniqueIndexes : list Index) (data : record) : OrEntry :=
  {| or_fields := _getInstanceValidIndexFields uniqueIndexes data;
     or_row := data |}.

(** [row => Object.keys(or.fields).every(key => row[key] === or.row[key])];
    [Object.keys(undefined)] throws. *)
Definition row_matches (or_ : OrEntry) (row : record) : outcome bool :=
  match or_fields or_ with
  | None => TypeError
  | Some fields =>
      Ok (forallb
            (fun key => strict_eq (prop_get row key) (prop_get (or_row or_) key))
            (keys fields))
  end.

(** [findIndex] with a callback that may throw: the callback runs on
    the elements in order until it answers true. *)
Fixpoint findIndex_throwing {A : Type} (f : A -> outcome bool) (l : list A)
  : outcome (option nat) :=
  match l with
  | [] => Ok None
  | x :: l' =>
      match f x with
      | Ok true => Ok (Some O)
      | Ok false =>
          match findIndex_throwing f l' with
          | Ok (Some i) => Ok (Some (S i))
          | other => other
          end
      | other => raise other
      end
  end.

(** [$or.forEach(or => { ... })] over the rows still in [data]. *)
Fixpoint classify (ors : list OrEntry) (data : list record)
    (existingRows newRows : list record)
  : outcome (list record * list record) :=
  match ors with
  | [] => Ok (existingRows, newRows)
  | or_ :: rest =>
      match findIndex_throwing (row_matches or_) data with
      | Ok (Some index) =>
          classify rest (splice1 index data)
                   (existingRows ++ [nth index data []])%list newRows
      | Ok None =>
          classify rest data existingRows (newRows ++ [or_row or_])%list
      | other => raise other
      end
  end.

(** What [_findExistingRows] does with the rows the lookup returned. *)
Definition partition_found (ors : list OrEntry) (data : list record)
  : outcome (list record * list record) :=
  if Nat.eqb (length data) (length ors) then Ok (data, [])
  else classify ors data [] [].

Section Partitioner.

Context {Store : Type}.
Variable db : Sequelize Store.

Definition _findExistingRows (model : Model) (data : body)
  : M Store (list record * list record) :=
  let uniqueIndexes := _getUniqueIndexes model in
  let or_ :=
    match
      switchByType type_of_body data
        {| cb_object := Some (fun data =>
             match data with
             | BObject r => [getOr uniqueIndexes r]
             | BArray _ => []
             end);
           cb_array := Some (fun data =>
             match data with
             | BArray rs => map (getOr uniqueIndexes) rs
             | BObject _ => []
             end);
           cb_string := None; cb_bool := None;
           cb_number := None; cb_defaults := None |}
    with
    | Some ors => ors
    | None => []
    end in
  data <- await (model_findAll db
            {| q_where := WhereOr (map or_fields or_);
               q_paranoid_false := false; q_order_id_asc := false |}) ;;
  lift (partition_found or_ data).

End Partitioner.

(** ** Route handlers *)

(** What a handler leaves in [ctx.restql.response], or [Skipped] when it
    hands the request on untouched ([return await next()]). *)
Inductive handled (A : Type) : Type :=
| Skipped
| Responded (status : Z) (data : A).

Arguments Skipped {A}.
Arguments Responded {A} status data.

Section Handlers.

Context {Store : Type}.
Variable db : Sequelize Store.
Variable Date_toString : Z -> string.
Variable StringToNumber : string -> option Z.

Definition upsert (model : Model) (body : body)
  : M Store (handled (option record)) :=
  match body with
  | BArray _ => ret Skipped
  | BObject _ =>
      stamped <- lift (setDefaultDeletedValue model body) ;;
      match stamped with
      | BArray _ => ret Skipped
      | BObject body =>
          let uniqueIndexes := _getUniqueIndexes model in
          let where_ := _getInstanceValidIndexFields uniqueIndexes body in
          result <-
            (if is_some where_
             then _upsert db model body
             else
               data <- _create db model body
                         (Some {| ignoreDuplicates := VUndefined;
                                  include := None;
                                  fields := Some (map fst (attributes model));
                                  updateOnDuplicate := None |}) ;;
               ret (true, data)) ;;
          let created := fst result in
          let data := snd result in
          let status := if (created : bool) then 201 else 200 in
          ret (Responded status data)
      end
  end.

Definition bulkUpsert (model : Model) (body : body)
  : M Store (handled (list record)) :=
  match body with
  | BObject _ => ret Skipped
  | BArray _ =>
      stamped <- lift (setDefaultDeletedValue model body) ;;
      match stamped with
      | BObject _ => ret Skipped
      | BArray body =>
          data <- _bulkUpsert db model body ;;
          ret (Responded 200 data)
      end
  end.

Definition bulkCreate (fuel : nat) (this : receiver) (model : Model)
    (body : body) : M Store (handled (list record)) :=
  match body with
  | BObject _ => ret Skipped
  | BArray _ =>
      stamped <- lift (setDefaultDeletedValue model body) ;;
      match stamped with
      | BObject _ => ret Skipped
      | BArray body =>
          data <- _bulkCreate db Date_toString StringToNumber
                    fuel this model body None ;;
          ret (Responded 201 data)
      end
  end.

End Handlers.

(** ** An in-memory table

    A small store on which the pipeline can be run: one table held as
    a list of rows, one uniqueness constraint over [unique_on], and an
    optional soft-delete column.  It stands for the database in the
    worked examples only; the general results hold for every adapter. *)

Section MemoryStore.

Variable unique_on : list string.
Variable deleted_col : option string.

Definition agrees (w row : record) : bool :=
  forallb (fun k => strict_eq (prop_get row k) (prop_get w k)) (keys w).

Definition same_identity (a b : record) : bool :=
  forallb (fun k => strict_eq (prop_get a k) (prop_get b k)) unique_on.

Definition live (row : record) : bool :=
  match deleted_col with
  | None => true
  | Some c => negb (truthy (prop_get row c))
  end.

Definition violation (data : record) : StoreError :=
  {| err_name := "SequelizeUniqueConstraintError";
     err_fields := Some (map (fun k => (k, prop_get data k)) unique_on) |}.

(** A row gets the next surrogate id unless the record brings one. *)
Definition with_id (table : list record) (data : record) : record :=
  if strict_eq (prop_get data "id") VUndefined
  then prop_set data "id" (VNum (Z.of_nat (S (length table))))
  else data.

Definition overwrite (cols : list string) (row data : record) : record :=
  fold_left (fun row k => prop_set row k (prop_get data k)) cols row.

Definition selects (opts : QueryOptions) (row : record) : bool :=
  (q_paranoid_false opts || live row) &&
  match q_where opts with
  | WhereFields None => true
  | WhereFields (Some w) => agrees w row
  | WhereOr ors =>
      existsb (fun o => match o with
                        | Some w => agrees w row
                        | None => false
                        end) ors
  end.

Definition mem_create (table : list record) (data : record)
    (opts : option WriteOptions) : list record * reply record :=
  if existsb (same_identity data) table
  then (table, Rejected (violation data))
  else let row := with_id table data in
       ((table ++ [row])%list, Resolved row).

Fixpoint mem_insert_all (cols : option (list string))
    (table : list record) (data : list record) : reply (list record) :=
  match data with
  | [] => Resolved table
  | d :: rest =>
      if existsb (same_identity d) table
      then match cols with
           | None => Rejected (violation d)
           | Some cols =>
               mem_insert_all (Some cols)
                 (map (fun row => if same_identity d row
                                  then overwrite cols row d else row) table)
                 rest
           end
      else mem_insert_all cols (table ++ [with_id table d])%list rest
  end.

Definition mem_bulkCreate (table : list record) (data : list record)
    (opts : option WriteOptions) : list record * reply unit :=
  let cols := match opts with
              | Some o => updateOnDuplicate o
              | None => None
              end in
  match mem_insert_all cols table data with
  | Resolved table' => (table', Resolved tt)
  | Rejected e => (table, Rejected e)
  end.

Definition mem_upsert (table : list record) (data : record)
  : list record * reply bool :=
  if existsb (same_identity data) table
  then (map (fun row => if same_identity data row
                        then overwrite (keys data) row data else row) table,
        Resolved false)
  else ((table ++ [with_id table data])%list, Resolved true).

Definition mem_update (table : list record) (data : record)
    (opts : QueryOptions) : list record * reply unit :=
  (map (fun row => if selects opts row
                   then overwrite (keys data) row data else row) table,
   Resolved tt).

Definition mem_restore (table : list record) (row : record)
  : list record * reply unit :=
  (map (fun r => if strict_eq (prop_get r "id") (prop_get row "id")
                 then match deleted_col with
                      | Some c => prop_set r c VNull
                      | None => r
                      end
                 else r) table,
   Resolved tt).

Definition memdb : Sequelize (list record) :=
  {| db_upsert := mem_upsert;
     db_create := mem_create;
     db_bulkCreate := mem_bulkCreate;
     db_update := mem_update;
     db_restore := mem_restore;
     db_find := fun table opts =>
       Resolved (List.find (selects opts) table);
     db_findAll := fun table opts =>
       Resolved (List.filter (selects opts) table) |}.

End MemoryStore.

(** A store whose every call is rejected with the same error. *)
Definition rejecting (e : StoreError) : Sequelize unit :=
  {| db_upsert := fun s _ => (s, Rejected e);
     db_create := fun s _ _ => (s, Rejected e);
     db_bulkCreate := fun s _ _ => (s, Rejected e);
     db_update := fun s _ _ => (s, Rejected e);
     db_restore := fun s _ => (s, Rejected e);
     db_find := fun _ _ => Rejected e;
     db_findAll := fun _ _ => Rejected e |}.

(** Stand-ins for the two language primitives in the worked examples:
    decimal digits read as a number, a date printed as its timestamp
    between brackets. *)
Fixpoint digits_value (acc : Z) (s : string) : option Z :=
  match s with
  | EmptyString => Some acc
  | String c s' =>
      let n := Z.of_nat (nat_of_ascii c) in
      if (48 <=? n) && (n <=? 57)
      then digits_value (10 * acc + (n - 48)) s'
      else None
  end.

Definition demo_StringToNumber (s : string) : option Z := digits_value 0 s.

Definition demo_Date_toString (t : Z) : string :=
  match t with
  | 0 => "[0]"
  | _ => "[date]"
  end.

(** The model of the running example: [user] with a unique index on
    [email]. *)
Definition user_model : Model :=
  {| name := "user";
     primaryKeys := Some ["id"];
     attributes := [ ("id", {| defaultValue := VUndefined |});
                     ("email", {| defaultValue := VUndefined |});
                     ("name", {| defaultValue := VUndefined |}) ];
     options := {| indexes := [ {| di_unique := true;
                                   di_name := Some "user_email";
                                   di_fields := ["email"] |} ];
                   uniqueKeys := [];
                   paranoid := false;
                   deletedAt := None |} |}.

Definition user_db : Sequelize (list record) := memdb ["email"] None.

Definition start {Store : Type} (s : Store) : world Store := (s, []).

(** ** Association query rewriters ([lib/loaders.js])

    Queries are object graphs that the rewriters clone and then update
    in place, so they are modelled on a heap: a cell per object or
    array, references between cells, allocation at the end.  The
    objects are plain objects; functions, dates and the other objects
    that lodash copies by rules of their own are not values of this
    heap. *)

Module Rewriter.

Abbreviation loc := nat.

Inductive jsval : Type :=
| JUndefined
| JNull
| JBool (b : bool)
| JNum (n : Z)
| JStr (s : string)
| JRef (l : loc).

(** An array keeps its named properties apart from its elements; the
    names written by the rewriters are column and option names, never
    array indices. *)
Inductive cell : Type :=
| CObject (props : list (string * jsval))
| CArray (elems : list jsval) (props : list (string * jsval)).

Abbreviation heap := (list cell).

Definition jtruthy (v : jsval) : bool :=
  match v with
  | JUndefined | JNull => false
  | JBool b => b
  | JNum n => negb (Z.eqb n 0)
  | JStr s => negb (String.eqb s "")
  | JRef _ => true
  end.

Fixpoint pget (props : list (string * jsval)) (k : string) : jsval :=
  match props with
  | [] => JUndefined
  | (k', v) :: props' => if String.eqb k k' then v else pget props' k
  end.

Fixpoint pset (props : list (string * jsval)) (k : string) (v : jsval)
  : list (string * jsval) :=
  match props with
  | [] => [(k, v)]
  | (k', v') :: props' =>
      if String.eqb k k' then (k', v) :: props'
      else (k', v') :: pset props' k v
  end.

Definition cell_props (c : cell) : list (string * jsval) :=
  match c with
  | CObject props => props
  | CArray _ props => props
  end.

Definition cell_elems (c : cell) : list jsval :=
  match c with
  | CObject _ => []
  | CArray elems _ => elems
  end.

Definition with_props (c : cell) (props : list (string * jsval)) : cell :=
  match c with
  | CObject _ => CObject props
  | CArray elems _ => CArray elems props
  end.

(** [v[k]] *)
Definition get_prop (v : jsval) (k : string) : ST heap jsval :=
  fun h =>
    match v with
    | JUndefined | JNull => (h, TypeError)
    | JRef l =>
        match h !! l with
        | Some c => (h, Ok (pget (cell_props c) k))
        | None => (h, TypeError)
        end
    | _ => (h, Ok JUndefined)
    end.

(** [v[k] = x] in strict mode: only an object takes the property. *)
Definition set_prop (v : jsval) (k : string) (x : jsval) : ST heap unit :=
  fun h =>
    match v with
    | JRef l =>
        match h !! l with
        | Some c =>
            (<[l := with_props c (pset (cell_props c) k x)]> h, Ok tt)
        | None => (h, TypeError)
        end
    | _ => (h, TypeError)
    end.

(** An object or array literal. *)
Definition alloc (c : cell) : ST heap jsval :=
  fun h => ((h ++ [c])%list, Ok (JRef (length h))).

Fixpoint forM_ {A : Type} (f : A -> ST heap unit) (l : list A)
  : ST heap unit :=
  match l with
  | [] => ret tt
  | x :: l' => f x ;;; forM_ f l'
  end.

(** *** [_.cloneDeep] (lodash)

    [baseClone] keeps a stack of the objects it has met, each with its
    copy.  An object met again, on a cycle or through a second
    reference, is not copied again: its copy is returned.  An object
    met for the first time gets an empty copy, which goes on the stack
    before the values of the object are walked, in order; each walked
    value is assigned to the copy under the key it was found at. *)

Abbreviation memo := (list (loc * loc)).

(** [stack.get(value)] *)
Fixpoint stack_get (stack : memo) (l : loc) : option loc :=
  match stack with
  | [] => None
  | (k, l') :: rest => if Nat.eqb l k then Some l' else stack_get rest l
  end.

(** [hasOwnProperty.call(object, k)] *)
Fixpoint has_key (props : list (string * jsval)) (k : string) : bool :=
  match props with
  | [] => false
  | (k', _) :: props' => String.eqb k k' || has_key props' k
  end.

(** [initCloneObject], [initCloneArray]: the empty copy.  The copy of
    an array has the length of the array; of the named properties of
    an array only [index] and [input] are taken, as they are, and only
    from what looks like the result of [RegExp#exec]. *)
Definition initClone (c : cell) : cell :=
  match c with
  | CObject _ => CObject []
  | CArray elems props =>
      CArray (map (fun _ => JUndefined) elems)
             (match elems with
              | JStr _ :: _ =>
                  if has_key props "index"
                  then [ ("index", pget props "index");
                         ("input", pget props "input") ]
                  else []
              | _ => []
              end)
  end.

(** The values that are walked: the elements of an array, the values
    of the own properties of an object. *)
Definition children (c : cell) : list jsval :=
  match c with
  | CObject props => map snd props
  | CArray elems _ => elems
  end.

(** The copy with the walked values assigned, each under the key of
    the value it is the copy of.  lodash assigns a value as soon as it
    is walked.  The walk reads the objects it copies, never a copy (no
    object refers to a cell that is yet to be made), so the copy is
    written here once, when the walk is over. *)
Definition fill (c : cell) (walked : list jsval) : cell :=
  match c with
  | CObject props => CObject (combine (map fst props) walked)
  | CArray _ _ => CArray walked (cell_props (initClone c))
  end.

Definition write (l : loc) (c : cell) : ST heap unit :=
  fun h => (<[l := c]> h, Ok tt).

(** The walk: one value after the other, the stack handed on. *)
Fixpoint cloneEach (f : jsval -> memo -> ST heap (jsval * memo))
    (l : list jsval) (stack : memo) : ST heap (list jsval * memo) :=
  match l with
  | [] => ret ([], stack)
  | x :: l' =>
      r <- f x stack ;;
      rs <- cloneEach f l' (snd r) ;;
      ret (fst r :: fst rs, snd rs)
  end.

(** [baseClone(value, ..., stack)]; the recursion of lodash is cut off
    at depth [fuel].  The recursion goes one level down for an object
    that has no copy yet, so on a heap of [n] cells a fuel of [n] is
    enough, whatever the graph. *)
Fixpoint baseClone (fuel : nat) (v : jsval) (stack : memo)
  : ST heap (jsval * memo) :=
  match v with
  | JRef l =>
      match stack_get stack l with
      | Some l' => ret (JRef l', stack)
      | None =>
          match fuel with
          | O => fun h => (h, Diverged)
          | S fuel' =>
              fun h =>
                match h !! l with
                | None => (h, TypeError)
                | Some c =>
                    (result <- alloc (initClone c) ;;
                     walked <- cloneEach (baseClone fuel') (children c)
                                 ((l, length h) :: stack) ;;
                     write (length h) (fill c (fst walked)) ;;;
                     ret (result, snd walked)) h
                end
          end
      end
  | _ => ret (v, stack)
  end.

Definition cloneDeep (fuel : nat) (v : jsval) : ST heap jsval :=
  r <- baseClone fuel v [] ;; ret (fst r).

(** [_.clone(v)]: a copy of the top cell only. *)
Definition clone (v : jsval) : ST heap jsval :=
  fun h =>
    match v with
    | JRef l =>
        match h !! l with
        | Some c => alloc c h
        | None => (h, TypeError)
        end
    | _ => (h, Ok v)
    end.

Definition index_key (i : nat) : string :=
  DecimalString.NilEmpty.string_of_uint (Nat.to_uint i).

(** The own enumerable properties of a cell, indices first. *)
Definition own_props (c : cell) : list (string * jsval) :=
  match c with
  | CObject props => props
  | CArray elems props =>
      (combine (map index_key (seq 0 (length elems))) elems ++ props)%list
  end.

(** [_.assign(target, source)]: a target that is not an object is
    wrapped by lodash and nothing is stored; a source that is not an
    object has no properties to give. *)
Definition assign_ (target source : jsval) : ST heap unit :=
  fun h =>
    match target, source with
    | JRef _, JRef ls =>
        match h !! ls with
        | Some c =>
            forM_ (fun kv => set_prop target (fst kv) (snd kv))
                  (own_props c) h
        | None => (h, TypeError)
        end
    | _, _ => (h, Ok tt)
    end.

(** [l.some(f)] with a callback that may throw. *)
Fixpoint some_ (f : jsval -> ST heap bool) (l : list jsval) : ST heap bool :=
  match l with
  | [] => ret false
  | x :: l' => b <- f x ;; if (b : bool) then ret true else some_ f l'
  end.

(** [include = include || []] makes no cell that anything refers to;
    the empty array is not allocated here. *)
Definition hasPluralAssociation (include : jsval) : ST heap bool :=
  fun h =>
    if negb (jtruthy include) then (h, Ok false)
    else
      match include with
      | JRef l =>
          match h !! l with
          | Some (CArray elems _) =>
              some_ (fun include =>
                       a <- get_prop include "association" ;;
                       if jtruthy a
                       then m <- get_prop a "isMultiAssociation" ;;
                            ret (jtruthy m)
                       else ret false)
                    elems h
          | _ => (h, TypeError)
          end
      | _ => (h, TypeError)
      end.

(** [v.push(x)]: only an array has the method. *)
Definition push (v x : jsval) : ST heap unit :=
  fun h =>
    match v with
    | JRef l =>
        match h !! l with
        | Some (CArray elems props) =>
            (<[l := CArray (elems ++ [x]) props]> h, Ok tt)
        | _ => (h, TypeError)
        end
    | _ => (h, TypeError)
    end.

Record Through : Type := {
  through_model : jsval;
  through_scope : jsval
}.

Record Association : Type := {
  scope : jsval;
  foreignKey : string;
  through : option Through;
  oneFromTarget : jsval
}.

Section Generators.

Variable fuel : nat.
Variable association : Association.

Definition hasManyQueryGenerator (q id : jsval) : ST heap jsval :=
  query <- cloneDeep fuel q ;;
  w <- get_prop query "where" ;;
  w <- (if jtruthy w then ret w else alloc (CObject [])) ;;
  set_prop query "where" w ;;;
  (if jtruthy (scope association)
   then w <- get_prop query "where" ;; assign_ w (scope association)
   else ret tt) ;;;
  w <- get_prop query "where" ;;
  set_prop w (foreignKey association) id ;;;
  include <- get_prop query "include" ;;
  plural <- hasPluralAssociation include ;;
  (if (plural : bool) then set_prop query "distinct" (JBool true)
   else ret tt) ;;;
  ret query.

Definition belongsToManyQueryGenerator (q id : jsval) : ST heap jsval :=
  query <- cloneDeep fuel q ;;
  scopeWhere <- (if jtruthy (scope association)
                 then clone (scope association)
                 else ret JUndefined) ;;
  w <- get_prop query "where" ;;
  and_ <- alloc (CArray [scopeWhere; w] []) ;;
  w <- alloc (CObject [("$and", and_)]) ;;
  set_prop query "where" w ;;;
  through <- (match through association with
              | Some through => ret through
              | None => throw_TypeError
              end) ;;
  (if jtruthy (through_model through)
   then
     throughWhere <- alloc (CObject [(foreignKey association, id)]) ;;
     (if jtruthy (through_scope through)
      then assign_ throughWhere (through_scope through)
      else ret tt) ;;;
     qt <- get_prop query "through" ;;
     qtw <- (if jtruthy qt then get_prop qt "where" else ret qt) ;;
     throughWhere <-
       (if jtruthy qtw
        then
          qt <- get_prop query "through" ;;
          qtw <- get_prop qt "where" ;;
          and_ <- alloc (CArray [throughWhere; qtw] []) ;;
          alloc (CObject [("$and", and_)])
        else ret throughWhere) ;;
     include <- get_prop query "include" ;;
     include <- (if jtruthy include then ret include
                 else alloc (CArray [] [])) ;;
     set_prop query "include" include ;;;
     include <- get_prop query "include" ;;
     attrs <- get_prop query "joinTableAttributes" ;;
     entry <- alloc (CObject [ ("association", oneFromTarget association);
                               ("attributes", attrs);
                               ("require", JBool true);
                               ("where", throughWhere) ]) ;;
     push include entry
   else ret tt) ;;;
  include <- get_prop query "include" ;;
  plural <- hasPluralAssociation include ;;
  (if (plural : bool) then set_prop query "distinct" (JBool true)
   else ret tt) ;;;
  ret query.

End Generators.

End Rewriter.

(** ** Reference notions used in the statements *)

(** Two records have the same set of field names. *)
Definition same_field_names (a b : record) : Prop :=
  forall k : string, In k (keys a) <-> In k (keys b).

(** Every two records of the batch have the same set of field names. *)
Definition homogeneous (data : list record) : Prop :=
  forall a b : record, In a data -> In b data -> same_field_names a b.

(** No unique index of the model has all of its fields present. *)
Definition no_identity (model : Model) (data : record) : Prop :=
  forall index : Index,
    In index (_getUniqueIndexes model) ->
    exists field : string,
      In field (idx_fields index) /\ prop_get data field = VUndefined.

(** The comparison of a value with the "not deleted" sentinel in the
    words of the specification: equality of timestamps when the
    sentinel is a date, structural equality otherwise. *)
Definition sentinel_equal (sentinel v : value) : bool :=
  match sentinel with
  | VDate _ t =>
      match v with
      | VDate _ t' => Z.eqb t t'
      | _ => false
      end
  | _ => value_eqb sentinel v
  end.

(** The declared "not deleted" sentinel of an attribute. *)
Definition sentinel_of (a : Attribute) : value :=
  match defaultValue a with
  | VUndefined => VNull
  | d => d
  end.

(** A returned row matches an identity predicate on every field. *)
Definition identity_matches (identity row : record) : bool :=
  forallb (fun key => strict_eq (prop_get row key) (prop_get identity key))
          (keys identity).

(** The partition in the words of the specification: each predicate
    looks for a returned row matching all its fields; the row found
    goes to the existing rows, the input record of a predicate that
    finds none goes to the new rows. *)
Definition spec_partition (predicates : list (record * record))
    (returned : list record) : list record * list record :=
  (flat_map (fun p => match List.find (identity_matches (fst p)) returned with
                      | Some row => [row]
                      | None => []
                      end) predicates,
   flat_map (fun p => match List.find (identity_matches (fst p)) returned with
                      | Some _ => []
                      | None => [snd p]
                      end) predicates).

(** No returned row matches two of the predicates. *)
Fixpoint disjoint_identities (ids : list record) (returned : list record)
  : bool :=
  match ids with
  | [] => true
  | i :: rest =>
      forallb (fun row =>
                 negb (identity_matches i row) ||
                 forallb (fun j => negb (identity_matches j row)) rest)
              returned
      && disjoint_identities rest returned
  end.

(** The partition as the code makes it, in words: the predicates are
    processed in order against the returned rows not yet taken.  A
    predicate that matches one of them takes the first it matches:
    the row goes to the existing rows and is no longer there for the
    predicates after it.  The record of a predicate that matches none
    of them goes to the new rows. *)
Inductive taking
  : list (record * record) -> list record -> list record -> list record
    -> Prop :=
| taking_done (remaining : list record) : taking [] remaining [] []
| taking_hit (identity data : record) (rest : list (record * record))
    (before : list record) (row : record) (after existing new : list record) :
    List.Forall (fun x => identity_matches identity x = false) before ->
    identity_matches identity row = true ->
    taking rest (before ++ after)%list existing new ->
    taking ((identity, data) :: rest) (before ++ row :: after)%list
           (row :: existing) new
| taking_miss (identity data : record) (rest : list (record * record))
    (remaining existing new : list record) :
    List.Forall (fun x => identity_matches identity x = false) remaining ->
    taking rest remaining existing new ->
    taking ((identity, data) :: rest) remaining existing (data :: new).

(** The store calls of a log that change the store. *)
Definition writes (log : list StoreCall) : list StoreCall :=
  List.filter mutating log.

Definition is_bulkCreate (c : StoreCall) : bool :=
  match c with
  | CallBulkCreate _ _ => true
  | _ => false
  end.

(** The number of inserts of a batch in a log. *)
Definition attempts (log : list StoreCall) : nat :=
  length (List.filter is_bulkCreate log).

(** ** Worked data *)

(** A paranoid model: [deletedAt] has no declared default. *)
Definition paranoid_user : Model :=
  {| name := "user";
     primaryKeys := Some ["id"];
     attributes := [ ("id", {| defaultValue := VUndefined |});
                     ("email", {| defaultValue := VUndefined |});
                     ("name", {| defaultValue := VStr "anonymous" |});
                     ("deletedAt", {| defaultValue := VUndefined |}) ];
     options := {| indexes := [ {| di_unique := true;
                                   di_name := Some "user_email";
                                   di_fields := ["email"] |} ];
                   uniqueKeys := [];
                   paranoid := true;
                   deletedAt := Some "deletedAt" |} |}.

(** A paranoid model whose sentinel is the date of timestamp 0. *)
Definition epoch_user : Model :=
  {| name := "user";
     primaryKeys := Some ["id"];
     attributes := [ ("id", {| defaultValue := VUndefined |});
                     ("email", {| defaultValue := VUndefined |});
                     ("deletedAt", {| defaultValue := VDate 1 0 |}) ];
     options := {| indexes := [];
                   uniqueKeys := [];
                   paranoid := true;
                   deletedAt := Some "deletedAt" |} |}.

Definition paranoid_db : Sequelize (list record) :=
  memdb ["email"] (Some "deletedAt").

(** The model of the partition example: a unique index on [uniq]. *)
Definition uniq_model : Model :=
  {| name := "tag";
     primaryKeys := Some ["id"];
     attributes := [ ("id", {| defaultValue := VUndefined |});
                     ("uniq", {| defaultValue := VUndefined |}) ];
     options := {| indexes := [ {| di_unique := true;
                                   di_name := Some "tag_uniq";
                                   di_fields := ["uniq"] |} ];
                   uniqueKeys := [];
                   paranoid := false;
                   deletedAt := None |} |}.

Definition uniq_db : Sequelize (list record) := memdb ["uniq"] None.

Definition storedRowForA : record := [("id", VNum 1); ("uniq", VStr "a")].

(** A soft-deleted user, and the violation the store reports when its
    address is inserted again (the composite value of the index
    [user_email]). *)
Definition deleted_ann : record :=
  [ ("id", VNum 1); ("email", VStr "a@x.com"); ("name", VStr "Ann");
    ("deletedAt", VDate 3 1000) ].

Definition email_violation : StoreError :=
  {| err_name := "SequelizeUniqueConstraintError";
     err_fields := Some [("user_email", VStr "a@x.com")] |}.

Definition find_deleted_too (w : option record) : QueryOptions :=
  {| q_where := WhereFields w; q_paranoid_false := true;
     q_order_id_asc := false |}.

Definition mixed_batch : list record :=
  [ [("email", VStr "a@x.com")];
    [("email", VStr "b@x.com"); ("name", VStr "B")] ].

Definition fields_of_attributes (model : Model) : option WriteOptions :=
  Some {| ignoreDuplicates := VUndefined; include := None;
          fields := Some (map fst (attributes model));
          updateOnDuplicate := None |}.

(** The log written by a computation started in [w]. *)
Definition log_of {Store A : Type} (r : world Store * outcome A)
  : list StoreCall :=
  snd (fst r).

(** A resolver that answers with the decoded identity in place of the
    row, without any lookup: it lets the worked examples take the
    retry branch of the loop. *)
Definition decoding_resolver {Store : Type} (model : Model)
    (error : StoreError) (opts : option WriteOptions) : M Store Conflict :=
  match _getUniqueConstraintErrorFields model error with
  | Some fields => ret {| c_row := fields; c_fields := fields |}
  | None => ctx_throw (unique_constraint_message model) 409
  end.

Definition stored_ann : record := [("id", VNum 1); ("email", VStr "a@x.com")].

(** The one lookup of the partitioner: the union of the predicates. *)
Definition or_query (identities : list record) : QueryOptions :=
  {| q_where := WhereOr (map Some identities); q_paranoid_false := false;
     q_order_id_asc := false |}.

(** ** What a deep copy is *)

Module Clone.
Import Rewriter.
Local Open Scope nat_scope.

(** A value with its reference replaced by the reference to the
    copy. *)
Definition rename (m : memo) (v : jsval) : jsval :=
  match v with
  | JRef l =>
      match stack_get m l with
      | Some l' => JRef l'
      | None => v
      end
  | _ => v
  end.

(** The copy of a cell: the same cell, with the references it holds
    replaced by the references to the copies. *)
Definition copy_cell (m : memo) (c : cell) : cell :=
  fill c (map (rename m) (children c)).

(** The value, if it is a reference, has a copy. *)
Definition mapped (m : memo) (v : jsval) : Prop :=
  match v with
  | JRef l => is_Some (stack_get m l)
  | _ => True
  end.

Definition extends (m m' : memo) : Prop :=
  forall k k' : loc, stack_get m k = Some k' -> stack_get m' k = Some k'.

(** No two objects share a copy. *)
Definition injective (m : memo) : Prop :=
  forall k1 k2 k' : loc,
    stack_get m k1 = Some k' -> stack_get m k2 = Some k' -> k1 = k2.

(** A value that is no reference, or a reference to a cell below
    [n]. *)
Definition live (n : nat) (v : jsval) : bool :=
  match v with
  | JRef l => l <? n
  | _ => true
  end.



(** Cells are added, or written if they are new. *)
Definition grows (h h' : heap) : Prop :=
  length h <= length h' /\
  forall i : loc, i < length h -> h' !! i = h !! i.

Section Walk.

(** The heap the copying started from. *)
Variable h0 : heap.

(** During the copying the cells of [h0] are as they were, and the
    copies are cells made since. *)
Definition inv (stack : memo) (h : heap) : Prop :=
  length h0 <= length h /\
  (forall i : loc, i < length h0 -> h !! i = h0 !! i) /\
  (forall k k' : loc,
     stack_get stack k = Some k' -> length h0 <= k' < length h) /\
  injective stack.

(** What a walk from [stack] and [h] has made when it is over with
    [stack'] and [h']: nothing that was there is changed; every object
    that has its copy since the walk began has a finished copy, which
    holds the copies of what the object holds. *)
Definition walked (stack : memo) (h : heap) (stack' : memo) (h' : heap)
  : Prop :=
  inv stack' h' /\
  length h <= length h' /\
  (forall i : loc, i < length h -> h' !! i = h !! i) /\
  extends stack stack' /\
  forall k k' : loc,
    stack_get stack' k = Some k' -> stack_get stack k = None ->
    length h <= k' /\
    exists c : cell,
      (k < length h0 -> h0 !! k = Some c) /\
      h' !! k' = Some (copy_cell stack' c) /\
      Forall (mapped stack') (children c).

(** [baseClone], in words: either it throws, or the walk it makes is
    as above and it returns the copy of the value it was given. *)
Definition clones (f : jsval -> memo -> ST heap (jsval * memo)) : Prop :=
  forall (v : jsval) (stack : memo) (h h' : heap) (v' : jsval)
         (stack' : memo),
    inv stack h ->
    f v stack h = (h', Ok (v', stack')) ->
    walked stack h stack' h' /\
    v' = rename stack' v /\ mapped stack' v /\
    forall l : loc,
      v = JRef l -> stack_get stack l = None -> is_Some (h !! l).

End Walk.

End Clone.

(** ** Frames on the heap of queries *)

Module Frame.
Import Rewriter Clone.
Local Open Scope nat_scope.

(** [v] is a tree of depth at most [n] in [h]: no dangling reference,
    no cycle. *)
Fixpoint tree_within (n : nat) (h : heap) (v : jsval) : bool :=
  match v with
  | JRef l =>
      match n with
      | O => false
      | S n' =>
          match h !! l with
          | None => false
          | Some c =>
              forallb (tree_within n' h) (cell_elems c)
              && forallb (fun kv => tree_within n' h (snd kv)) (cell_props c)
          end
      end
  | _ => true
  end.

(** The base query is its own [where]. *)
Definition own_where (h : heap) (q : jsval) : bool :=
  match q with
  | JRef lq =>
      match h !! lq with
      | Some (CObject props) =>
          match pget props "where" with
          | JRef l => Nat.eqb l lq
          | _ => false
          end
      | _ => false
      end
  | _ => false
  end.

(** A rewriter at work on [query], the copy it has made.  It is to
    leave alone the cells in [prot], and the properties of the query
    that [keep] names, which are to stay as in [props0].  It writes
    through one property of the query, [target]. *)
Section Working.

Variable prot : loc -> Prop.
Variable keep : string -> bool.
Variable props0 : list (string * jsval).
Variable target : string.
Variable strict : bool.
Variable query : jsval.

(** No cell is lost, and the cells to leave alone are the same in
    [h']. *)
Definition frame (h h' : heap) : Prop :=
  length h <= length h' /\
  forall l : loc, prot l -> h' !! l = h !! l.

(** A value that is no reference to a cell to leave alone. *)
Definition writable (v : jsval) : Prop :=
  match v with
  | JRef l => ~ prot l
  | _ => True
  end.

(** The heap while the rewriter works: the cells to leave alone are
    there; the query's cell is not one of them, it has the properties
    to keep, and what it holds under [target] may be written to (and,
    when [strict], is not the query itself). *)
Definition working (h : heap) : Prop :=
  (forall l : loc, prot l -> l < length h) /\
  match query with
  | JRef lq =>
      ~ prot lq /\
      exists c : cell,
        h !! lq = Some c /\
        (forall k : string,
           keep k = true -> pget (cell_props c) k = pget props0 k) /\
        writable (pget (cell_props c) target) /\
        (strict = true -> pget (cell_props c) target <> query)
  | _ => True
  end.

(** A step of a rewriter: it keeps the frame, it returns, and when it
    returns a value the heap is still a working heap and [Q] holds of
    the value. *)
Definition step {A : Type} (m : ST heap A) (Q : A -> Prop) : Prop :=
  forall h : heap,
    working h ->
    frame h (fst (m h)) /\
    snd (m h) <> Diverged /\
    forall a : A, snd (m h) = Ok a -> working (fst (m h)) /\ Q a.

End Working.



End Frame.

(** A caller's heap: the base query at 0 with its where-clause (1) and
    its includes (2, 3); a to-many association (4) and its target
    model (6), which refer to each other; the scope of the association
    (5). *)
Definition caller_heap : list Rewriter.cell :=
  [ Rewriter.CObject [("where", Rewriter.JRef 1); ("include", Rewriter.JRef 2)];
    Rewriter.CObject [("status", Rewriter.JStr "open")];
    Rewriter.CArray [Rewriter.JRef 3] [];
    Rewriter.CObject [("association", Rewriter.JRef 4)];
    Rewriter.CObject [("isMultiAssociation", Rewriter.JBool true);
                      ("target", Rewriter.JRef 6)];
    Rewriter.CObject [("kind", Rewriter.JStr "x")];
    Rewriter.CObject [("name", Rewriter.JStr "tag");
                      ("association", Rewriter.JRef 4)] ].

Definition tags_of_user : Rewriter.Association :=
  {| Rewriter.scope := Rewriter.JRef 5;
     Rewriter.foreignKey := "user_id";
     Rewriter.through := None;
     Rewriter.oneFromTarget := Rewriter.JUndefined |}.

Definition groups_of_user : Rewriter.Association :=
  {| Rewriter.scope := Rewriter.JRef 5;
     Rewriter.foreignKey := "user_id";
     Rewriter.through :=
       Some {| Rewriter.through_model := Rewriter.JBool true;
               Rewriter.through_scope := Rewriter.JUndefined |};
     Rewriter.oneFromTarget := Rewriter.JRef 4 |}.



(** A base query that is its own where-clause (0) and includes a
    to-many association (1, 2, 3); an association without scope whose
    foreign key is the column [distinct]. *)
Definition looped_heap : list Rewriter.cell :=
  [ Rewriter.CObject [("where", Rewriter.JRef 0); ("include", Rewriter.JRef 1)];
    Rewriter.CArray [Rewriter.JRef 2] [];
    Rewriter.CObject [("association", Rewriter.JRef 3)];
    Rewriter.CObject [("isMultiAssociation", Rewriter.JBool true)] ].

Definition keyed_distinct : Rewriter.Association :=
  {| Rewriter.scope := Rewriter.JUndefined;
     Rewriter.foreignKey := "distinct";
     Rewriter.through := None;
     Rewriter.oneFromTarget := Rewriter.JUndefined |}.

(** A computation that leaves the calls already logged in place. *)
Definition appends {Store A : Type} (m : M Store A) : Prop :=
  forall w : world Store, exists rest : list StoreCall,
    log_of (m w) = (snd w ++ rest)%list.

(** ** More route handlers: find-or-upsert *)

Section FindOrUpsert.

Context {Store : Type}.
Variable db : Sequelize Store.

Definition findOrUpsert (model : Model) (body : body)
  : M Store (handled (option record)) :=
  let status := 200 in
  match body with
  | BArray _ => ret Skipped
  | BObject request_body =>
      found <- _findExistingRows db model (BArray [request_body]) ;;
      let existingRows := fst found in
      let newRows := snd found in
      match newRows with
      | row :: _ =>
          let status := 201 in
          ret_ <- _upsert db model row ;;
          let status := if (fst ret_ : bool) then 201 else status in
          ret (Responded status (snd ret_))
      | [] => ret (Responded status (hd_error existingRows))
      end
  end.

Definition bulkFindOrUpsert (model : Model) (body : body)
  : M Store (handled (list record)) :=
  match body with
  | BObject _ => ret Skipped
  | BArray _ =>
      found <- _findExistingRows db model body ;;
      let existingRows := fst found in
      let newRows := snd found in
      data <- (match newRows with
               | [] => ret []
               | _ => _bulkUpsert db model newRows
               end) ;;
      ret (Responded 200 (existingRows ++ data)%list)
  end.

End FindOrUpsert.

(** ** Reference notions for the further properties *)

(** The composite value a store reports for a violated multi-column
    index: the column values joined by the separator. *)
Fixpoint join_with (sep : ascii) (parts : list string) : string :=
  match parts with
  | [] => ""
  | [p] => p
  | p :: rest => p ++ String sep (join_with sep rest)
  end.

(** The separator does not occur in the string. *)
Fixpoint free_of (sep : ascii) (s : string) : bool :=
  match s with
  | EmptyString => true
  | String c s' => negb (Ascii.eqb c sep) && free_of sep s'
  end.

(** The number of occurrences of the separator. *)
Fixpoint occurrences (sep : ascii) (s : string) : nat :=
  match s with
  | EmptyString => O
  | String c s' =>
      if Ascii.eqb c sep then S (occurrences sep s') else occurrences sep s'
  end.

(** The stamping of one record by [setDefaultDeletedValue]. *)
Definition stamped (model : Model) (r r' : record) : Prop :=
  setDefaultDeletedValue model (BObject r) = Ok (BObject r').

Definition is_restore (c : StoreCall) : bool :=
  match c with
  | CallRestore _ => true
  | _ => false
  end.

(** A model with a two-column unique key, for the composite values. *)
Definition seat_model : Model :=
  {| name := "seat";
     primaryKeys := Some ["id"];
     attributes := [ ("id", {| defaultValue := VUndefined |});
                     ("hall", {| defaultValue := VUndefined |});
                     ("number", {| defaultValue := VUndefined |}) ];
     options := {| indexes := [];
                   uniqueKeys :=
                     [ ("seat_hall_number",
                        {| uk_name := Some "seat_hall_number";
                           uk_fields := ["hall"; "number"] |}) ];
                   paranoid := false;
                   deletedAt := None |} |}.

(** The reported field names are not all attributes, and [index] is
    the first unique index under whose name a truthy value is
    reported. *)
Definition names_an_index (model : Model) (fields : record) (index : Index)
  : Prop :=
  forallb (fun key => is_some (attribute (attributes model) key)) (keys fields)
  = false /\
  List.find (fun index => truthy (prop_get fields (key_of (idx_name index))))
            (_getUniqueIndexes model)
  = Some index.

(** The violation a store reports on the two-column key, and the
    index it names. *)
Definition seat_violation (v : value) : StoreError :=
  {| err_name := "SequelizeUniqueConstraintError";
     err_fields := Some [("seat_hall_number", v)] |}.

Definition seat_index : Index :=
  {| idx_name := Some "seat_hall_number"; idx_unique := true;
     idx_primary := false; idx_fields := ["hall"; "number"] |}.

(** A store whose single-row lookups find nothing, whatever was
    written (a lookup served by a replica that lags behind). *)
Definition blind {Store : Type} (db : Sequelize Store) : Sequelize Store :=
  {| db_upsert := db_upsert db;
     db_create := db_create db;
     db_bulkCreate := db_bulkCreate db;
     db_update := db_update db;
     db_restore := db_restore db;
     db_find := fun _ _ => Resolved None;
     db_findAll := db_findAll db |}.

Definition renamed_ann : record :=
  [("email", VStr "a@x.com"); ("name", VStr "Anna")].

Definition renamed_deleted_ann : record :=
  [ ("id", VNum 1); ("email", VStr "a@x.com"); ("name", VStr "Anna");
    ("deletedAt", VDate 3 1000) ].

Definition ann_identity : record := [("email", VStr "a@x.com")].

Definition two_users : list record :=
  [ [("email", VStr "a@x.com")]; [("email", VStr "b@x.com")] ].

Definition two_stored_users : list record :=
  [ [("email", VStr "a@x.com"); ("id", VNum 1)];
    [("email", VStr "b@x.com"); ("id", VNum 2)] ].

Definition by_id_asc (ids : list record) : QueryOptions :=
  {| q_where := WhereOr (map Some ids); q_paranoid_false := false;
     q_order_id_asc := true |}.

(** [v.where[k]] in a heap, when [v] and [v.where] are cells. *)
Definition where_field (h : list Rewriter.cell) (v : Rewriter.jsval)
    (k : string) : option Rewriter.jsval :=
  match v with
  | Rewriter.JRef lq =>
      match h !! lq with
      | Some c =>
          match Rewriter.pget (Rewriter.cell_props c) "where" with
          | Rewriter.JRef lw =>
              match h !! lw with
              | Some cw => Some (Rewriter.pget (Rewriter.cell_props cw) k)
              | None => None
              end
          | _ => None
          end
      | None => None
      end
  | _ => None
  end.

(** The two elements of [v.where.$and] in a heap, when [v], [v.where]
    are cells and [v.where.$and] is an array of two elements. *)
Definition where_and (h : list Rewriter.cell) (v : Rewriter.jsval)
  : option (Rewriter.jsval * Rewriter.jsval) :=
  match v with
  | Rewriter.JRef lq =>
      match h !! lq with
      | Some c =>
          match Rewriter.pget (Rewriter.cell_props c) "where" with
          | Rewriter.JRef lw =>
              match h !! lw with
              | Some cw =>
                  match Rewriter.pget (Rewriter.cell_props cw) "$and" with
                  | Rewriter.JRef la =>
                      match h !! la with
                      | Some (Rewriter.CArray [a; b] _) => Some (a, b)
                      | _ => None
                      end
                  | _ => None
                  end
              | None => None
              end
          | _ => None
          end
      | None => None
      end
  | _ => None
  end.

(** What a deep copy makes of a value: a reference becomes a
    reference, any other value is kept. *)
Definition like (x y : Rewriter.jsval) : Prop :=
  match x with
  | Rewriter.JRef _ => exists l : nat, y = Rewriter.JRef l
  | _ => y = x
  end.

(** A value that is an object, or falsy. *)
Definition object_or_falsy (x : Rewriter.jsval) : Prop :=
  match x with
  | Rewriter.JRef _ => True
  | _ => Rewriter.jtruthy x = false
  end.

(** A value that is an object of the heap, or falsy. *)
Definition live_or_falsy (h : list Rewriter.cell) (x : Rewriter.jsval)
  : Prop :=
  match x with
  | Rewriter.JRef l => is_Some (h !! l)
  | _ => Rewriter.jtruthy x = false
  end.

(** A caller's heap with a plain base query: a where-clause (1), no
    includes; the scope of the association (2). *)
Definition plain_heap : list Rewriter.cell :=
  [ Rewriter.CObject [("where", Rewriter.JRef 1)];
    Rewriter.CObject [("status", Rewriter.JStr "open");
                      ("user_id", Rewriter.JNum 99)];
    Rewriter.CObject [("kind", Rewriter.JStr "x")] ].

Definition posts_of_user : Rewriter.Association :=
  {| Rewriter.scope := Rewriter.JRef 2;
     Rewriter.foreignKey := "user_id";
     Rewriter.through := None;
     Rewriter.oneFromTarget := Rewriter.JUndefined |}.

Definition teams_of_user : Rewriter.Association :=
  {| Rewriter.scope := Rewriter.JRef 2;
     Rewriter.foreignKey := "user_id";
     Rewriter.through :=
       Some {| Rewriter.through_model := Rewriter.JBool true;
               Rewriter.through_scope := Rewriter.JUndefined |};
     Rewriter.oneFromTarget := Rewriter.JUndefined |}.

(** Every cell of [h0] other than the one at [lq] is still in [h]. *)
Definition carried (lq : nat) (h0 h : list Rewriter.cell) : Prop :=
  forall (l : nat) (x : Rewriter.cell),
    l <> lq -> h0 !! l = Some x -> h !! l = Some x.

(** * Properties *)

(** ** Records *)

Lemma prop_get_set_same (r : record) (k : string) (v : value) :
  prop_get (prop_set r k v) k = v.
Proof.
  induction r as [|[k' v'] r IH]; simpl.
  - now rewrite String.eqb_refl.
  - destruct (String.eqb k k') eqn:E; simpl; rewrite E; auto.
Qed.

Lemma prop_get_set_other (r : record) (k k' : string) (v : value) :
  k <> k' -> prop_get (prop_set r k v) k' = prop_get r k'.
Proof.
  intros Hne. induction r as [|[k0 v0] r IH]; simpl.
  - destruct (String.eqb k' k) eqn:E; auto.
    apply String.eqb_eq in E. congruence.
  - destruct (String.eqb k k0) eqn:E; simpl.
    + apply String.eqb_eq in E. subst k0.
      destruct (String.eqb k' k) eqn:E'; auto.
      apply String.eqb_eq in E'. congruence.
    + now rewrite IH.
Qed.

Lemma prop_get_delete_same (r : record) (k : string) :
  prop_get (prop_delete r k) k = VUndefined.
Proof.
  induction r as [|[k' v'] r IH]; simpl; auto.
  destruct (String.eqb k k') eqn:E; simpl; auto. now rewrite E.
Qed.

(** ** Soft-delete reconciler *)

Lemma strict_eq_structural (d v : value) :
  is_date d = false -> strict_eq d v = value_eqb d v.
Proof. destruct d, v; simpl; intros; congruence. Qed.

Lemma value_eqb_eq (a b : value) : value_eqb a b = true <-> a = b.
Proof.
  split.
  - destruct a, b; simpl; try discriminate; intros H; try reflexivity.
    + apply Bool.eqb_prop in H. now subst.
    + apply Z.eqb_eq in H. now subst.
    + apply String.eqb_eq in H. now subst.
    + apply andb_true_iff in H as [H1 H2].
      apply Nat.eqb_eq in H1. apply Z.eqb_eq in H2. now subst.
  - intros <-. destruct a; simpl; auto.
    + apply Bool.eqb_reflx.
    + apply Z.eqb_refl.
    + apply String.eqb_refl.
    + now rewrite Nat.eqb_refl, Z.eqb_refl.
Qed.

Lemma soft_delete_configured (model : Model) (col : string) :
  paranoid (options model) = true ->
  deletedAt (options model) = Some col ->
  col <> "" ->
  negb (paranoid (options model))
  || negb (truthy_name (deletedAt (options model))) = false
  /\ key_of (deletedAt (options model)) = col.
Proof.
  intros Hp Hc Hn. rewrite Hp, Hc. simpl. split; auto.
  destruct (String.eqb col "") eqn:E; auto.
  apply String.eqb_eq in E. contradiction.
Qed.

(** C8. For a paranoid model whose [deletedAt] column [col] is declared
    with attribute [a]: [isDeleted] answers true for an absent row, and
    for a present row it answers whether the row's [col] differs from
    the declared sentinel, timestamps being compared when the sentinel
    is a date and structural equality being used otherwise. *)
Theorem isDeleted_compares_with_sentinel
    (model : Model) (col : string) (a : Attribute)
    (Hp : paranoid (options model) = true)
    (Hc : deletedAt (options model) = Some col)
    (Hn : col <> "")
    (Ha : attribute (attributes model) col = Some a) :
  isDeleted model None = Ok true /\
  forall row : record,
    isDeleted model (Some row)
    = Ok (negb (sentinel_equal (sentinel_of a) (prop_get row col))).
Proof.
  destruct (soft_delete_configured model col Hp Hc Hn) as [Hg Hk].
  unfold isDeleted. rewrite Hg, Hk, Ha. split; [reflexivity|].
  intros row. unfold sentinel_of, sentinel_equal.
  destruct (defaultValue a) eqn:Hd; simpl;
    destruct (prop_get row col); simpl; reflexivity.
Qed.

Lemma isDeleted_compares_with_sentinel_witness :
  isDeleted epoch_user None = Ok true /\
  forall row : record,
    isDeleted epoch_user (Some row)
    = Ok (negb (sentinel_equal (VDate 1 0) (prop_get row "deletedAt"))).
Proof.
  apply (isDeleted_compares_with_sentinel
           epoch_user "deletedAt" {| defaultValue := VDate 1 0 |});
    [reflexivity | reflexivity | discriminate | reflexivity].
Defined.

Example isDeleted_same_instant :
  isDeleted epoch_user (Some [("id", VNum 1); ("deletedAt", VDate 7 0)])
  = Ok false.
Proof. reflexivity. Qed.

Example isDeleted_later_instant :
  isDeleted epoch_user (Some [("id", VNum 1); ("deletedAt", VDate 7 86400)])
  = Ok true.
Proof. reflexivity. Qed.

(** C10. For a paranoid model whose [deletedAt] attribute declares no
    default, the sentinel is [null]: [setDefaultDeletedValue] writes
    [null] into the column of the record, or of every record of the
    batch, and [isDeleted] answers true for a present row exactly when
    the row's value in the column is not [null]. *)
Theorem undeclared_default_sentinel_is_null
    (model : Model) (col : string) (a : Attribute)
    (Hp : paranoid (options model) = true)
    (Hc : deletedAt (options model) = Some col)
    (Hn : col <> "")
    (Ha : attribute (attributes model) col = Some a)
    (Hd : defaultValue a = VUndefined) :
  (forall r : record,
     setDefaultDeletedValue model (BObject r)
     = Ok (BObject (prop_set r col VNull))) /\
  (forall rs : list record,
     setDefaultDeletedValue model (BArray rs)
     = Ok (BArray (map (fun r => prop_set r col VNull) rs))) /\
  (forall r : record, prop_get (prop_set r col VNull) col = VNull) /\
  (forall row : record,
     exists b : bool,
       isDeleted model (Some row) = Ok b /\
       (b = true <-> prop_get row col <> VNull)).
Proof.
  destruct (soft_delete_configured model col Hp Hc Hn) as [Hg Hk].
  repeat split.
  - unfold setDefaultDeletedValue. rewrite Hg, Hk, Ha, Hd. reflexivity.
  - unfold setDefaultDeletedValue. rewrite Hg, Hk, Ha, Hd. reflexivity.
  - intros r. apply prop_get_set_same.
  - intros row. unfold isDeleted. rewrite Hg, Hk, Ha, Hd. simpl.
    destruct (prop_get row col); simpl; eexists; split; try reflexivity;
      split; congruence.
Qed.

Lemma undeclared_default_sentinel_is_null_witness :
  setDefaultDeletedValue paranoid_user
    (BArray [ [("email", VStr "a@x.com"); ("deletedAt", VNum 5)];
              [("email", VStr "b@x.com")] ])
  = Ok (BArray [ [("email", VStr "a@x.com"); ("deletedAt", VNull)];
                 [("email", VStr "b@x.com"); ("deletedAt", VNull)] ]).
Proof.
  exact (proj1 (proj2
    (undeclared_default_sentinel_is_null
       paranoid_user "deletedAt" {| defaultValue := VUndefined |}
       eq_refl eq_refl ltac:(discriminate) eq_refl eq_refl))
    [ [("email", VStr "a@x.com"); ("deletedAt", VNum 5)];
      [("email", VStr "b@x.com")] ]).
Defined.

Lemma prop_get_delete_other (r : record) (k k' : string) :
  k <> k' -> prop_get (prop_delete r k) k' = prop_get r k'.
Proof.
  intros Hne. induction r as [|[k0 v0] r IH]; simpl; auto.
  destruct (String.eqb k k0) eqn:E; simpl.
  - apply String.eqb_eq in E. subst k0.
    destruct (String.eqb k' k) eqn:E'; auto.
    apply String.eqb_eq in E'. congruence.
  - now rewrite IH.
Qed.

(** ** Conflict translator *)

Example split_on_example :
  split_on "-"%char "x@x.com-7" = ["x@x.com"; "7"].
Proof. reflexivity. Qed.

Example decode_composite_value :
  _getUniqueConstraintErrorFields paranoid_user email_violation
  = Some [("email", VStr "a@x.com")].
Proof. reflexivity. Qed.

(** The call of [ctx.throw] that follows the empty [if] is reached on
    every path: the resolver never looks the row up. *)
Lemma handler_always_throws {Store : Type} (db : Sequelize Store)
    (model : Model) (error : StoreError) (opts : option WriteOptions)
    (w : world Store) :
  _handleUniqueConstraintError db model error opts w
  = (w, HttpError 409 (unique_constraint_message model)).
Proof.
  unfold _handleUniqueConstraintError, bind.
  destruct (negb (truthy_name (deletedAt (options model)))
            || negb (paranoid (options model))); reflexivity.
Qed.

(** C1. On a paranoid model, a violation that decodes to the address of
    a soft-deleted row, which the store finds when deleted rows are
    included: the resolver has a row to reset and return, and throws
    409 without calling the store. *)
Theorem resolver_throws_on_soft_deleted_row :
  _getUniqueConstraintErrorFields paranoid_user email_violation
    = Some [("email", VStr "a@x.com")] /\
  db_find paranoid_db [deleted_ann]
    (find_deleted_too (Some [("email", VStr "a@x.com")]))
    = Resolved (Some deleted_ann) /\
  isDeleted paranoid_user (Some deleted_ann) = Ok true /\
  _handleUniqueConstraintError paranoid_db paranoid_user email_violation None
    (start [deleted_ann])
  = (start [deleted_ann],
     HttpError 409 "RestQL: user unique constraint error").
Proof. repeat split; reflexivity. Qed.

(** ** Write orchestrator: the empty batch *)

(** C9. [_bulkUpsert] on the empty batch returns the empty list and
    leaves store and log as they were; so does the route handler,
    whose stamping of the body makes no store call either. *)
Theorem bulkUpsert_empty_batch {Store : Type} (db : Sequelize Store)
    (model : Model) (w : world Store) :
  _bulkUpsert db model [] w = (w, Ok []) /\
  bulkUpsert db model (BArray []) w
  = (w, match setDefaultDeletedValue model (BArray []) with
        | Ok _ => Ok (Responded 200 [])
        | thrown => raise thrown
        end).
Proof.
  split; [reflexivity|].
  unfold bulkUpsert, bind, lift.
  destruct (setDefaultDeletedValue model (BArray [])) as [b| | | | |] eqn:E;
    try reflexivity.
  unfold setDefaultDeletedValue in E.
  destruct (negb (paranoid (options model))
            || negb (truthy_name (deletedAt (options model)))).
  - inversion E; subst. reflexivity.
  - destruct (attribute (attributes model) (key_of (deletedAt (options model))));
      [|discriminate].
    simpl in E. inversion E; subst. reflexivity.
Qed.

(** ** The log only grows *)

Section Appends.

Context {Store : Type}.
Variable db : Sequelize Store.

Lemma appends_silent {A : Type} (m : M Store A) :
  (forall w, fst (m w) = w) -> appends m.
Proof.
  intros H w. exists []. unfold log_of. rewrite H. now rewrite app_nil_r.
Qed.

Lemma appends_ret {A : Type} (a : A) : appends (ret a : M Store A).
Proof. now apply appends_silent. Qed.

Lemma appends_lift {A : Type} (o : outcome A) : appends (lift o : M Store A).
Proof. now apply appends_silent. Qed.

Lemma appends_ctx_throw {A : Type} (message : string) (status : Z) :
  appends (ctx_throw message status : M Store A).
Proof. now apply appends_silent. Qed.

Lemma appends_throw_new_Error {A : Type} (e : StoreError) :
  appends (throw_new_Error e : M Store A).
Proof. now apply appends_silent. Qed.

Lemma appends_throw_TypeError {A : Type} :
  appends (throw_TypeError : M Store A).
Proof. now apply appends_silent. Qed.

Lemma log_bind {A B : Type} (m : M Store A) (k : A -> M Store B)
    (w : world Store) :
  (forall a, appends (k a)) ->
  exists rest : list StoreCall,
    log_of (bind m k w) = (log_of (m w) ++ rest)%list.
Proof.
  intros Hk. unfold bind, log_of.
  destruct (m w) as [w1 [a| | | | |]]; simpl;
    try (exists []; now rewrite app_nil_r).
  destruct (Hk a w1) as [rest Hr]. exists rest. exact Hr.
Qed.

Lemma appends_bind {A B : Type} (m : M Store A) (k : A -> M Store B) :
  appends m -> (forall a, appends (k a)) -> appends (bind m k).
Proof.
  intros Hm Hk w.
  destruct (log_bind m k w Hk) as [r2 H2]. destruct (Hm w) as [r1 H1].
  exists (r1 ++ r2)%list. rewrite H2, H1. now rewrite app_assoc.
Qed.

Lemma log_write_call {A : Type} (c : StoreCall)
    (f : Store -> Store * reply A) (w : world Store) :
  log_of (write_call c f w) = (snd w ++ [c])%list.
Proof.
  unfold write_call, log_of. destruct w as [s log].
  destruct (f s) as [s' r]. reflexivity.
Qed.

Lemma log_read_call {A : Type} (c : StoreCall)
    (f : Store -> reply A) (w : world Store) :
  log_of (read_call c f w) = (snd w ++ [c])%list.
Proof. unfold read_call, log_of. destruct w as [s log]. reflexivity. Qed.

Lemma appends_write_call {A : Type} (c : StoreCall)
    (f : Store -> Store * reply A) : appends (write_call c f).
Proof. intros w. exists [c]. apply log_write_call. Qed.

Lemma appends_read_call {A : Type} (c : StoreCall)
    (f : Store -> reply A) : appends (read_call c f).
Proof. intros w. exists [c]. apply log_read_call. Qed.

Lemma appends_await {A : Type} (call : M Store (reply A)) :
  appends call -> appends (await call).
Proof.
  intros H. unfold await. apply appends_bind; [exact H|].
  intros [a|e]; now apply appends_silent.
Qed.

Lemma appends_try_unique {A B : Type} (call : M Store (reply A))
    (then_ : A -> M Store B) (on_violation : StoreError -> M Store B) :
  appends call -> (forall a, appends (then_ a)) ->
  (forall e, appends (on_violation e)) ->
  appends (try_unique call then_ on_violation).
Proof.
  intros Hc Ht Hv. unfold try_unique. apply appends_bind; [exact Hc|].
  intros [a|e]; [apply Ht|].
  destruct (negb (is_unique_violation e));
    [apply appends_throw_new_Error | apply Hv].
Qed.

Lemma appends_handler (model : Model) (error : StoreError)
    (opts : option WriteOptions) :
  appends (_handleUniqueConstraintError db model error opts).
Proof.
  apply appends_silent. intros w. now rewrite handler_always_throws.
Qed.

Lemma appends_update (model : Model) (data : record) (q : QueryOptions) :
  appends (_update db model data q).
Proof.
  unfold _update.
  assert (Hh : forall e, appends
            (conflict <- _handleUniqueConstraintError db model e None ;;
             ctx_throw (A := list record)
               (unique_constraint_message model) 409)).
  { intros e. apply appends_bind; [apply appends_handler|].
    intros; apply appends_ctx_throw. }
  apply appends_try_unique; [apply appends_write_call | | exact Hh].
  intros _. apply appends_try_unique;
    [apply appends_read_call | apply appends_ret | exact Hh].
Qed.

(** The first call a computation logs, when the rest only appends. *)
Lemma log_first_call {A B : Type} (c : StoreCall) (call : M Store A)
    (k : A -> M Store B) (w : world Store) :
  log_of (call w) = (snd w ++ [c])%list ->
  (forall a, appends (k a)) ->
  exists rest : list StoreCall,
    log_of (bind call k w) = (snd w ++ c :: rest)%list.
Proof.
  intros Hc Hk. destruct (log_bind call k w Hk) as [rest Hr].
  exists rest. rewrite Hr, Hc. now rewrite <- app_assoc.
Qed.

Lemma bind_silent {A B : Type} (m : M Store A) (k : A -> M Store B)
    (w : world Store) :
  fst (m w) = w ->
  bind m k w = match snd (m w) with
               | Ok a => k a w
               | thrown => (w, raise thrown)
               end.
Proof.
  unfold bind. destruct (m w) as [w1 o]; simpl. intros ->.
  destruct o; reflexivity.
Qed.

Lemma log_bind_first {A B : Type} (c : StoreCall) (m : M Store A)
    (k : A -> M Store B) (w : world Store) :
  (exists rest, log_of (m w) = (snd w ++ c :: rest)%list) ->
  (forall a, appends (k a)) ->
  exists rest : list StoreCall,
    log_of (bind m k w) = (snd w ++ c :: rest)%list.
Proof.
  intros [r1 H1] Hk. destruct (log_bind m k w Hk) as [r2 H2].
  exists (r1 ++ r2)%list. rewrite H2, H1. now rewrite <- app_assoc.
Qed.

Lemma log_try_unique_first {A B : Type} (c : StoreCall)
    (call : M Store (reply A)) (then_ : A -> M Store B)
    (on_violation : StoreError -> M Store B) (w : world Store) :
  log_of (call w) = (snd w ++ [c])%list ->
  (forall a, appends (then_ a)) ->
  (forall e, appends (on_violation e)) ->
  exists rest : list StoreCall,
    log_of (try_unique call then_ on_violation w)
    = (snd w ++ c :: rest)%list.
Proof.
  intros Hc Ht Hv. unfold try_unique. apply log_first_call; [exact Hc|].
  intros [a|e]; [apply Ht|].
  destruct (negb (is_unique_violation e));
    [apply appends_throw_new_Error | apply Hv].
Qed.

End Appends.

Ltac solve_appends :=
  repeat (intros; first
    [ apply appends_ret | apply appends_lift | apply appends_ctx_throw
    | apply appends_throw_new_Error | apply appends_throw_TypeError
    | apply appends_write_call | apply appends_read_call
    | apply appends_handler | apply appends_update
    | apply appends_await | apply appends_try_unique | apply appends_bind
    | match goal with
      | |- appends (if ?b then _ else _) => destruct b
      | |- appends (match ?x with _ => _ end) => destruct x
      end ]).

Lemma identities_total {Store : Type} (fail : M Store unit)
    (uniqueIndexes : list Index) (data : list record) (w : world Store) :
  (forall row, In row data ->
     is_some (_getInstanceValidIndexFields uniqueIndexes row) = true) ->
  exists ors : list record,
    identities fail uniqueIndexes data w = (w, Ok ors).
Proof.
  induction data as [|row rest IH]; intros H; simpl.
  - now exists [].
  - pose proof (H row (or_introl eq_refl)) as Hr.
    destruct (_getInstanceValidIndexFields uniqueIndexes row) as [where_|];
      [|discriminate].
    destruct IH as [ors Ho]; [intros; apply H; now right|].
    exists (where_ :: ors). unfold bind. now rewrite Ho.
Qed.

Section WritesOfTheOrchestrator.

Context {Store : Type}.
Variable db : Sequelize Store.
Variable Date_toString : Z -> string.
Variable StringToNumber : string -> option Z.

Lemma identities_silent (fail : M Store unit) (uniqueIndexes : list Index)
    (data : list record) :
  (forall w, fst (fail w) = w) ->
  forall w, fst (identities fail uniqueIndexes data w) = w.
Proof.
  intros Hf. induction data as [|row rest IH]; intros w; simpl; auto.
  destruct (_getInstanceValidIndexFields uniqueIndexes row).
  - unfold bind. specialize (IH w).
    destruct (identities fail uniqueIndexes rest w) as [w1 [a| | | | |]];
      simpl in *; auto.
  - unfold bind. specialize (Hf w).
    destruct (fail w) as [w1 [a| | | | |]]; simpl in *; subst; auto.
Qed.

Lemma this_throw_silent {A : Type} (this : receiver) (message : string)
    (status : Z) (w : world Store) :
  fst (this_throw (A := A) this message status w) = w.
Proof. destruct this; reflexivity. Qed.

Lemma appends_attempt (resolve : Model -> StoreError -> option WriteOptions ->
                                 M Store Conflict)
    (model : Model) (options : option WriteOptions)
    (data : list record) (conflicts : list Conflict) :
  (forall m e o, appends (resolve m e o)) ->
  appends (bulkCreate_attempt db Date_toString StringToNumber resolve
             model options data conflicts).
Proof.
  intros Hr. unfold bulkCreate_attempt. solve_appends. apply Hr.
Qed.

Lemma appends_loop (resolve : Model -> StoreError -> option WriteOptions ->
                              M Store Conflict)
    (fuel : nat) (model : Model) (options : option WriteOptions) :
  (forall m e o, appends (resolve m e o)) ->
  forall data conflicts,
    appends (bulkCreate_loop db Date_toString StringToNumber resolve
               fuel model options data conflicts).
Proof.
  intros Hr. induction fuel as [|fuel IH]; intros data conflicts; simpl.
  - now apply appends_silent.
  - apply appends_bind; [now apply appends_attempt|].
    intros [|data' conflicts']; [apply appends_ret | apply IH].
Qed.

Lemma loop_first_call (fuel : nat) (model : Model)
    (options : option WriteOptions) (data : list record)
    (conflicts : list Conflict) (w : world Store) :
  exists rest : list StoreCall,
    log_of (bulkCreate_loop db Date_toString StringToNumber
              (_handleUniqueConstraintError db)
              (S fuel) model options data conflicts w)
    = (snd w ++ CallBulkCreate data options :: rest)%list.
Proof.
  simpl bulkCreate_loop. apply log_bind_first.
  - unfold bulkCreate_attempt.
    apply log_try_unique_first; [apply log_write_call | |]; solve_appends.
  - intros [|data' conflicts']; [apply appends_ret|].
    apply appends_loop. intros; apply appends_handler.
Qed.

Lemma bulkCreate_first_call (fuel : nat) (this : receiver) (model : Model)
    (data : list record) (options : option WriteOptions) (w : world Store) :
  (forall row, In row data ->
     is_some (_getInstanceValidIndexFields (_getUniqueIndexes model) row)
     = true) ->
  exists rest : list StoreCall,
    log_of (_bulkCreate db Date_toString StringToNumber
              (S fuel) this model data options w)
    = (snd w ++ CallBulkCreate data options :: rest)%list.
Proof.
  intros Hid. unfold _bulkCreate. cbv zeta.
  match goal with
  | |- context [bind (identities ?f ?i ?d) ?k] =>
      destruct (identities_total f i d w Hid) as [ors Ho];
      rewrite (bind_silent (identities f i d) k w
                 (identities_silent f i d (this_throw_silent this _ _) w));
      rewrite Ho; simpl snd; cbv iota beta
  end.
  apply log_bind_first; [apply loop_first_call | solve_appends].
Qed.

Lemma stripped_id (data : record) :
  let data' := if truthy (prop_get data "id")
               then prop_delete data "id" else data in
  truthy (prop_get data' "id") = false /\
  forall k : string,
    prop_get data' k
    = if String.eqb k "id" && truthy (prop_get data "id")
      then VUndefined else prop_get data k.
Proof.
  simpl. destruct (truthy (prop_get data "id")) eqn:E.
  - rewrite prop_get_delete_same. split; [reflexivity|]. intros k.
    destruct (String.eqb k "id") eqn:Ek; simpl.
    + apply String.eqb_eq in Ek. subst. apply prop_get_delete_same.
    + apply prop_get_delete_other. intros <-. now rewrite String.eqb_refl in Ek.
  - split; [exact E|]. intros k. now rewrite andb_false_r.
Qed.

(** C3, as the code has it.  [_create] and [_update] hand the store the
    client's record without its [id] when that [id] is truthy, so the
    record they write never carries a truthy [id].  [_upsert],
    [_bulkUpsert] and [_bulkCreate] hand the store the records as they
    were received, [id] included; [_bulkUpsert] only keeps [id] out of
    the columns to update on a duplicate. *)
Theorem client_id_on_writes (model : Model) (w : world Store) :
  (forall (data : record) (options : option WriteOptions),
     exists (data' : record) (rest : list StoreCall),
       log_of (_create db model data options w)
       = (snd w ++ CallCreate data' options :: rest)%list /\
       truthy (prop_get data' "id") = false /\
       forall k : string,
         prop_get data' k
         = if String.eqb k "id" && truthy (prop_get data "id")
           then VUndefined else prop_get data k) /\
  (forall (data : record) (options : QueryOptions),
     exists (data' : record) (rest : list StoreCall),
       log_of (_update db model data options w)
       = (snd w ++ CallUpdate data' options :: rest)%list /\
       truthy (prop_get data' "id") = false /\
       forall k : string,
         prop_get data' k
         = if String.eqb k "id" && truthy (prop_get data "id")
           then VUndefined else prop_get data k) /\
  (forall data : record,
     log_of (_upsert db model data w) = snd w \/
     exists rest : list StoreCall,
       log_of (_upsert db model data w)
       = (snd w ++ CallUpsert data :: rest)%list) /\
  (forall data : list record,
     log_of (_bulkUpsert db model data w) = snd w \/
     exists rest : list StoreCall,
       log_of (_bulkUpsert db model data w)
       = (snd w ++
          CallBulkCreate data
            (Some (only_updateOnDuplicate
                     (List.filter (fun key => negb (String.eqb key "id"))
                                  (keys (hd [] data)))))
          :: rest)%list) /\
  (forall (fuel : nat) (this : receiver) (data : list record)
          (options : option WriteOptions),
     log_of (_bulkCreate db Date_toString StringToNumber
               fuel this model data options w) = snd w \/
     exists rest : list StoreCall,
       log_of (_bulkCreate db Date_toString StringToNumber
                 fuel this model data options w)
       = (snd w ++ CallBulkCreate data options :: rest)%list).
Proof.
  repeat split.
  - intros data options.
    destruct (stripped_id data) as [Hid Hk].
    unfold _create. cbv zeta.
    set (data' := if truthy (prop_get data "id") then _ else _) in *.
    match goal with
    | |- context [try_unique ?c ?t ?h] =>
        destruct (log_try_unique_first (CallCreate data' options) c t h w)
          as [rest Hr];
        [apply log_write_call | solve_appends | solve_appends |]
    end.
    eexists; exists rest; split; [exact Hr | split; eauto].
  - intros data options.
    destruct (stripped_id data) as [Hid Hk].
    unfold _update. cbv zeta.
    set (data' := if truthy (prop_get data "id") then _ else _) in *.
    match goal with
    | |- context [try_unique ?c ?t ?h] =>
        destruct (log_try_unique_first (CallUpdate data' options) c t h w)
          as [rest Hr];
        [apply log_write_call | solve_appends | solve_appends |]
    end.
    eexists; exists rest; split; [exact Hr | split; eauto].
  - intros data. unfold _upsert.
    destruct (_getInstanceValidIndexFields (_getUniqueIndexes model) data)
      as [where_|]; simpl; [right | left; reflexivity].
    match goal with
    | |- context [bind (ret tt) ?k] => change (bind (ret tt) k w) with (k tt w)
    end.
    apply log_bind_first; [|solve_appends].
    apply log_try_unique_first; [apply log_write_call | |]; solve_appends.
  - intros [|first rest]; [left; reflexivity|].
    unfold _bulkUpsert. cbv zeta.
    match goal with
    | |- context [negb ?b] => destruct b
    end; simpl negb; cbv iota; [|left; reflexivity].
    match goal with
    | |- context [bind (ret tt) ?k] => change (bind (ret tt) k w) with (k tt w)
    end.
    cbv beta.
    match goal with
    | |- context [bind (identities ?f ?i ?d) ?k] =>
        rewrite (bind_silent (identities f i d) k w
                   (identities_silent f i d (fun w => eq_refl) w));
        destruct (snd (identities f i d w)) as [or_| | | | |];
        try (left; reflexivity)
    end.
    right. apply log_bind_first; [|solve_appends].
    apply log_try_unique_first; [apply log_write_call | |]; solve_appends.
  - intros fuel this data options. unfold _bulkCreate. cbv zeta.
    match goal with
    | |- context [bind (identities ?f ?i ?d) ?k] =>
        rewrite (bind_silent (identities f i d) k w
                   (identities_silent f i d (this_throw_silent this _ _) w));
        destruct (snd (identities f i d w)) as [or_| | | | |];
        try (left; reflexivity)
    end.
    destruct fuel as [|fuel]; [left; reflexivity|].
    right. apply log_bind_first; [apply loop_first_call | solve_appends].
Qed.

End WritesOfTheOrchestrator.

(** The claim C3 fails as stated: [_upsert] hands the client's [id] to
    the store, and the row stored carries it. *)
Lemma upsert_keeps_client_id :
  _upsert user_db user_model [("id", VNum 5); ("email", VStr "x@x.com")]
    (start [])
  = (([ [("id", VNum 5); ("email", VStr "x@x.com")] ],
      [ CallUpsert [("id", VNum 5); ("email", VStr "x@x.com")];
        CallFind (query_where (Some [("id", VNum 5)])) ]),
     Ok (true, Some [("id", VNum 5); ("email", VStr "x@x.com")])).
Proof. reflexivity. Qed.

Example create_drops_client_id :
  _create user_db user_model [("id", VNum 5); ("email", VStr "x@x.com")] None
    (start [])
  = (([ [("email", VStr "x@x.com"); ("id", VNum 1)] ],
      [ CallCreate [("email", VStr "x@x.com")] None ]),
     Ok (Some [("email", VStr "x@x.com"); ("id", VNum 1)])).
Proof. reflexivity. Qed.

(** ** Upsert without a selectable identity *)

Lemma no_identity_selects_nothing (model : Model) (data : record) :
  no_identity model data ->
  _getInstanceValidIndexFields (_getUniqueIndexes model) data = None.
Proof.
  intros H. unfold _getInstanceValidIndexFields, _getInstanceValidIndexes.
  assert (E : forall l : list Index,
             (forall index, In index l ->
                exists field, In field (idx_fields index) /\
                              prop_get data field = VUndefined) ->
             List.filter (index_valid_for data) l = []).
  { induction l as [|index l IH]; simpl; auto. intros Hl.
    destruct (Hl index (or_introl eq_refl)) as [field [Hin Hu]].
    assert (Hv : index_valid_for data index = false).
    { unfold index_valid_for.
      destruct (forallb _ (idx_fields index)) eqn:E; auto.
      rewrite forallb_forall in E. specialize (E field Hin).
      rewrite Hu in E. discriminate. }
    rewrite Hv. apply IH. intros i Hi. apply Hl. now right. }
  now rewrite (E _ H).
Qed.

(** C4, as the code has it.  For a record with no selectable identity,
    [_upsert] throws 400 without any store call.  The route handler
    [upsert] never takes such a record to [_upsert]: when the stamped
    body has no selectable identity it is created with [_create] and
    answered with 201. *)
Theorem upsert_without_identity {Store : Type} (db : Sequelize Store)
    (model : Model) (data : record) (w : world Store)
    (H : no_identity model data) :
  _upsert db model data w
    = (w, HttpError 400 "RestQL: unique index fields cannot be found") /\
  forall body0 : record,
    setDefaultDeletedValue model (BObject body0) = Ok (BObject data) ->
    upsert db model (BObject body0) w
    = (created <- _create db model data (fields_of_attributes model) ;;
       ret (Responded 201 created)) w.
Proof.
  pose proof (no_identity_selects_nothing model data H) as Hn. split.
  - unfold _upsert. rewrite Hn. reflexivity.
  - intros body0 Hs. unfold upsert, fields_of_attributes.
    unfold bind at 1. unfold lift. rewrite Hs. rewrite Hn. simpl is_some.
    cbv iota. unfold bind.
    destruct (_create db model data _ w) as [w1 [a| | | | |]]; reflexivity.
Qed.

Lemma nameless_user_has_no_identity :
  no_identity user_model [("name", VStr "A")].
Proof.
  intros index Hin. simpl in Hin.
  destruct Hin as [<-|[<-|[]]]; eexists; (split; [left; reflexivity|]);
    reflexivity.
Qed.

Lemma upsert_without_identity_witness :
  _upsert user_db user_model [("name", VStr "A")] (start [])
  = (start [], HttpError 400 "RestQL: unique index fields cannot be found").
Proof.
  exact (proj1 (upsert_without_identity user_db user_model
                  [("name", VStr "A")] (start [])
                  nameless_user_has_no_identity)).
Defined.

(** The claim C4 fails as stated for the route handler: the record has
    no selectable identity, and the handler inserts it and answers
    201. *)
Lemma upsert_handler_creates_without_identity :
  no_identity user_model [("name", VStr "A")] /\
  upsert user_db user_model (BObject [("name", VStr "A")]) (start [])
  = (([ [("name", VStr "A"); ("id", VNum 1)] ],
      [ CallCreate [("name", VStr "A")] (fields_of_attributes user_model) ]),
     Ok (Responded 201 (Some [("name", VStr "A"); ("id", VNum 1)]))).
Proof. split; [exact nameless_user_has_no_identity | reflexivity]. Qed.

(** ** Batch homogeneity *)

Lemma In_insert_sorted (k s : string) (l : list string) :
  In k (insert_sorted s l) <-> k = s \/ In k l.
Proof.
  induction l as [|x l IH]; simpl.
  - intuition.
  - destruct (String.leb s x); simpl; [intuition|].
    rewrite IH. intuition.
Qed.

Lemma In_sort_strings (k : string) (l : list string) :
  In k (sort_strings l) <-> In k l.
Proof.
  induction l as [|x l IH]; simpl; [tauto|].
  rewrite In_insert_sorted, IH. intuition.
Qed.

Lemma strings_eqb_eq (a b : list string) :
  strings_eqb a b = true -> a = b.
Proof.
  revert b. induction a as [|x a IH]; intros [|y b]; simpl;
    try discriminate; auto.
  intros H. apply andb_true_iff in H as [H1 H2].
  apply String.eqb_eq in H1. subst. f_equal. now apply IH.
Qed.

Lemma same_sorted_keys (a b : record) :
  strings_eqb (sort_strings (keys a)) (sort_strings (keys b)) = true ->
  same_field_names a b.
Proof.
  intros H k. apply strings_eqb_eq in H.
  rewrite <- (In_sort_strings k (keys a)), <- (In_sort_strings k (keys b)).
  now rewrite H.
Qed.

Lemma valid_batch_homogeneous (first : record) (data : list record) :
  In first data ->
  forallb (fun item => strings_eqb item (sort_strings (keys first)))
          (map (fun row => sort_strings (keys row)) data) = true ->
  homogeneous data.
Proof.
  intros _ H a b Ha Hb. rewrite forallb_forall in H.
  assert (Hx : forall r, In r data -> same_field_names r first).
  { intros r Hr. apply same_sorted_keys. apply H.
    apply in_map_iff. now exists r. }
  intros k. rewrite (Hx a Ha k), (Hx b Hb k). tauto.
Qed.

(** C2, as the code has it.  [_bulkUpsert] answers a batch whose
    records do not all have the same field names with 400, before any
    store call: store and log are as they were.  [_bulkCreate] makes no
    such test: as soon as every record has a selectable identity, its
    first store call is the insert of the whole batch. *)
Theorem heterogeneous_batch {Store : Type} (db : Sequelize Store)
    (model : Model) (data : list record) (w : world Store)
    (H : ~ homogeneous data) :
  _bulkUpsert db model data w
    = (w, HttpError 400 "RestQL: array elements have different attributes") /\
  forall (Date_toString : Z -> string) (StringToNumber : string -> option Z)
         (fuel : nat) (this : receiver) (options : option WriteOptions),
    (forall row, In row data ->
       is_some (_getInstanceValidIndexFields (_getUniqueIndexes model) row)
       = true) ->
    exists rest : list StoreCall,
      log_of (_bulkCreate db Date_toString StringToNumber
                (S fuel) this model data options w)
      = (snd w ++ CallBulkCreate data options :: rest)%list.
Proof.
  split.
  - destruct data as [|first rest].
    + exfalso. apply H. intros a b [].
    + unfold _bulkUpsert. cbv zeta.
      match goal with
      | |- context [negb ?b] => destruct b eqn:E
      end; [|reflexivity].
      exfalso. apply H.
      apply (valid_batch_homogeneous first); [now left | exact E].
  - intros D N fuel this options Hid. now apply bulkCreate_first_call.
Qed.

Lemma mixed_batch_not_homogeneous : ~ homogeneous mixed_batch.
Proof.
  intros Hh.
  assert (Hn : In "name" (keys [("email", VStr "a@x.com")])).
  { apply (Hh [("email", VStr "a@x.com")]
              [("email", VStr "b@x.com"); ("name", VStr "B")]);
      simpl; auto. }
  simpl in Hn. destruct Hn as [Hn|[]]. discriminate.
Qed.

Lemma heterogeneous_batch_witness :
  _bulkUpsert user_db user_model mixed_batch (start [])
  = (start [],
     HttpError 400 "RestQL: array elements have different attributes").
Proof.
  exact (proj1 (heterogeneous_batch user_db user_model mixed_batch (start [])
                  mixed_batch_not_homogeneous)).
Defined.

(** The claim C2 fails as stated for [bulkCreate]: the batch is not
    homogeneous, and both records are inserted. *)
Lemma bulkCreate_inserts_heterogeneous_batch :
  ~ homogeneous mixed_batch /\
  _bulkCreate user_db demo_Date_toString demo_StringToNumber
    3 ThisContext user_model mixed_batch None (start [])
  = (([ [("email", VStr "a@x.com"); ("id", VNum 1)];
        [("email", VStr "b@x.com"); ("name", VStr "B"); ("id", VNum 2)] ],
      [ CallBulkCreate mixed_batch None;
        CallFindAll
          {| q_where := WhereOr [ Some [("email", VStr "a@x.com")];
                                  Some [("email", VStr "b@x.com")] ];
             q_paranoid_false := false; q_order_id_asc := true |} ]),
     Ok [ [("email", VStr "a@x.com"); ("id", VNum 1)];
          [("email", VStr "b@x.com"); ("name", VStr "B"); ("id", VNum 2)] ]).
Proof. split; [exact mixed_batch_not_homogeneous | reflexivity]. Qed.

(** ** The retry loop of bulkCreate *)

Lemma findIndex_bound {A : Type} (f : A -> bool) (l : list A) (i : nat) :
  findIndex f l = Some i -> (i < length l)%nat.
Proof.
  revert i. induction l as [|x l IH]; simpl; [discriminate|].
  intros i. destruct (f x).
  - intros [= <-]. lia.
  - destruct (findIndex f l) as [j|]; [|discriminate].
    intros [= <-]. specialize (IH j eq_refl). lia.
Qed.

Lemma findIndex_first {A : Type} (f : A -> bool) (l : list A) (d : A) :
  match findIndex f l with
  | Some i =>
      (i < length l)%nat /\ f (nth i l d) = true /\
      forall j : nat, (j < i)%nat -> f (nth j l d) = false
  | None => forall x : A, In x l -> f x = false
  end.
Proof.
  induction l as [|x l IH]; simpl; [tauto|].
  destruct (f x) eqn:Ex.
  - repeat split; [lia | exact Ex | intros j Hj; lia].
  - destruct (findIndex f l) as [i|].
    + destruct IH as (Hi & Hm & Hb). repeat split; [lia | exact Hm|].
      intros [|j] Hj; [exact Ex | apply Hb; lia].
    + intros y [<-|Hy]; [exact Ex | now apply IH].
Qed.

Lemma length_splice1 {A : Type} (i : nat) (l : list A) :
  (i < length l)%nat -> S (length (splice1 i l)) = length l.
Proof.
  intros H. unfold splice1.
  rewrite length_app, length_firstn, length_skipn. lia.
Qed.

Section RetryLoopBound.

Context {Store : Type}.
Variable db : Sequelize Store.
Variable Date_toString : Z -> string.
Variable StringToNumber : string -> option Z.
Variable resolve :
  Model -> StoreError -> option WriteOptions -> M Store Conflict.
Variable model : Model.
Variable options : option WriteOptions.

Local Abbreviation attempt :=
  (bulkCreate_attempt db Date_toString StringToNumber resolve model options).
Local Abbreviation loop :=
  (fun fuel => bulkCreate_loop db Date_toString StringToNumber resolve
                 fuel model options).

(** How one pass can end. *)
Lemma attempt_cases (data : list record) (conflicts : list Conflict)
    (w : world Store) :
  let o := snd (attempt data conflicts w) in
  o = Ok Done \/
  (exists (index : nat) (conflict : Conflict),
     (index < length data)%nat /\
     o = Ok (Retry (splice1 index data) (conflicts ++ [conflict])%list)) \/
  (exists e : StoreError, o = WrappedError e) \/
  o = HttpError 500 "RestQL: bulkCreate unique index field error" \/
  (exists (e : StoreError) (w1 : world Store),
     o = raise (snd (resolve model e None w1)) /\
     forall c : Conflict, snd (resolve model e None w1) <> Ok c).
Proof.
  unfold bulkCreate_attempt, try_unique, bind. cbv zeta.
  destruct (model_bulkCreate db data options w) as [w1 [[[]|e]| | | | |]] eqn:Ec;
    simpl; auto;
    try (unfold model_bulkCreate, write_call in Ec; destruct w as [s log];
         destruct (db_bulkCreate db s data options); discriminate).
  destruct (negb (is_unique_violation e)); simpl.
  - right; right; left. now exists e.
  - destruct (resolve model e None w1) as [w2 o] eqn:Er.
    destruct o as [conflict| | | | |]; simpl;
      try (right; right; right; right; exists e, w1; rewrite Er; simpl;
           split; [reflexivity | discriminate]).
    destruct (findIndex _ data) as [index|] eqn:Ef; simpl.
    + right; left. eexists index, _. split; [|reflexivity].
      now apply findIndex_bound in Ef.
    + right; right; right; left. reflexivity.
Qed.

Lemma retry_shrinks (data data' : list record)
    (conflicts conflicts' : list Conflict) (w : world Store) :
  snd (attempt data conflicts w) = Ok (Retry data' conflicts') ->
  S (length data') = length data /\
  length conflicts' = S (length conflicts).
Proof.
  intros H.
  destruct (attempt_cases data conflicts w)
    as [Hc|[(index & conflict & Hi & Hc)|[[e Hc]|[Hc|(e & w1 & Hc & Hn)]]]];
    simpl in Hc; rewrite H in Hc; try discriminate.
  - inversion Hc; subst. split; [now apply length_splice1|].
    rewrite length_app. simpl. lia.
  - exfalso.
    destruct (snd (resolve model e None w1)); simpl in Hc; discriminate.
Qed.

Hypothesis resolve_returns :
  forall m e o w, snd (resolve m e o w) <> Diverged.

Lemma attempt_returns (data : list record) (conflicts : list Conflict)
    (w : world Store) :
  snd (attempt data conflicts w) <> Diverged.
Proof.
  destruct (attempt_cases data conflicts w)
    as [Hc|[(index & conflict & Hi & Hc)|[[e Hc]|[Hc|(e & w1 & Hc & Hn)]]]];
    simpl in Hc; rewrite Hc; try discriminate.
  pose proof (resolve_returns model e None w1) as Hr.
  destruct (snd (resolve model e None w1)); simpl; congruence.
Qed.

Lemma loop_returns (fuel : nat) :
  forall (data : list record) (conflicts : list Conflict) (w : world Store),
    (length data < fuel)%nat ->
    snd (loop fuel data conflicts w) <> Diverged.
Proof.
  induction fuel as [|fuel IH]; intros data conflicts w Hl; [lia|].
  simpl. unfold bind.
  pose proof (attempt_returns data conflicts w) as Ha.
  pose proof (retry_shrinks data) as Hs.
  specialize (fun d' c' => Hs d' conflicts c' w).
  destruct (attempt data conflicts w) as [w1 [[|data' conflicts']| | | | |]];
    simpl in *; try discriminate; try congruence.
  apply IH. destruct (Hs data' conflicts' eq_refl). lia.
Qed.

Lemma loop_fuel_irrelevant (fuel : nat) :
  forall (n : nat) (data : list record) (conflicts : list Conflict)
         (w : world Store),
    (length data < fuel)%nat -> (length data < n)%nat ->
    loop fuel data conflicts w = loop n data conflicts w.
Proof.
  induction fuel as [|fuel IH]; intros n data conflicts w Hl Hn; [lia|].
  destruct n as [|n]; [lia|].
  simpl. unfold bind.
  pose proof (retry_shrinks data) as Hs.
  specialize (fun d' c' => Hs d' conflicts c' w).
  destruct (attempt data conflicts w) as [w1 [[|data' conflicts']| | | | |]];
    simpl in *; try reflexivity.
  destruct (Hs data' conflicts' eq_refl). apply IH; lia.
Qed.

End RetryLoopBound.

Lemma handler_returns {Store : Type} (db : Sequelize Store)
    (m : Model) (e : StoreError) (o : option WriteOptions) (w : world Store) :
  snd (_handleUniqueConstraintError db m e o w) <> Diverged.
Proof. rewrite handler_always_throws. discriminate. Qed.

(** C5, as the code has it.  Whatever the store answers and whatever
    the resolver does (short of not returning), the retry loop on a
    batch of [n] records is over within [n + 1] passes: more fuel
    changes nothing and the loop does not run out of it.  What a pass
    does is fixed by what the store and the resolver answer.  If the
    insert is resolved the pass is the last.  If it is rejected with an
    error that is no uniqueness violation, the error is rethrown
    wrapped.  If it is rejected with a uniqueness violation the
    resolver is called: when the resolver throws (it throws 409), its
    error ends the loop; when it returns a conflict that matches no
    pending record, 500 is thrown; otherwise the first pending record
    matching the conflict, and that record only, leaves the batch, and
    one conflict carrying the record is queued behind the others. *)
Theorem retry_loop_bounded {Store : Type} (db : Sequelize Store)
    (Date_toString : Z -> string) (StringToNumber : string -> option Z)
    (resolve : Model -> StoreError -> option WriteOptions -> M Store Conflict)
    (Hres : forall m e o w, snd (resolve m e o w) <> Diverged)
    (model : Model) (options : option WriteOptions)
    (data : list record) (conflicts : list Conflict)
    (s : Store) (log : list StoreCall) :
  let pass := bulkCreate_attempt db Date_toString StringToNumber resolve
                model options data conflicts (s, log) in
  let loop fuel := bulkCreate_loop db Date_toString StringToNumber resolve
                     fuel model options data conflicts (s, log) in
  let w1 := (fst (db_bulkCreate db s data options),
             (log ++ [CallBulkCreate data options])%list) in
  match snd (db_bulkCreate db s data options) with
  | Resolved _ => pass = (w1, Ok Done)
  | Rejected e =>
      if is_unique_violation e
      then
        match resolve model e None w1 with
        | (w2, Ok conflict) =>
            let matching :=
              matches_conflict Date_toString StringToNumber
                               (c_fields conflict) in
            match findIndex matching data with
            | Some index =>
                (index < length data)%nat /\
                matching (nth index data []) = true /\
                (forall j : nat,
                   (j < index)%nat -> matching (nth j data []) = false) /\
                S (length (splice1 index data)) = length data /\
                pass
                = (w2,
                   Ok (Retry (splice1 index data)
                         (conflicts
                          ++ [ {| c_row :=
                                    assign (assign [] (c_row conflict))
                                           (nth index data []);
                                  c_fields := c_fields conflict |} ])%list))
            | None =>
                (forall r : record, In r data -> matching r = false) /\
                pass
                = (w2,
                   HttpError 500
                     "RestQL: bulkCreate unique index field error")
            end
        | (w2, thrown) => pass = (w2, raise thrown)
        end
      else pass = (w1, WrappedError e)
  end /\
  snd (loop (S (length data))) <> Diverged /\
  forall fuel : nat,
    (length data < fuel)%nat -> loop fuel = loop (S (length data)).
Proof.
  cbv zeta. split; [|split].
  - unfold bulkCreate_attempt, try_unique, model_bulkCreate, write_call.
    unfold bind. cbv beta iota.
    destruct (db_bulkCreate db s data options) as [s1 [[]|e]]; cbn [fst snd];
      [reflexivity|].
    destruct (is_unique_violation e); cbn [negb]; [|reflexivity].
    destruct (resolve model e None
                (s1, (log ++ [CallBulkCreate data options])%list))
      as [w2 [conflict| | | | |]]; try reflexivity.
    pose proof (findIndex_first
                  (matches_conflict Date_toString StringToNumber
                                    (c_fields conflict)) data []) as Hf.
    destruct (findIndex
                (matches_conflict Date_toString StringToNumber
                                  (c_fields conflict)) data) as [index|].
    + destruct Hf as (Hi & Hm & Hb).
      repeat (split; [assumption|]).
      split; [now apply length_splice1 | reflexivity].
    + split; [exact Hf | reflexivity].
  - apply loop_returns; [exact Hres | lia].
  - intros fuel Hf. apply loop_fuel_irrelevant; lia.
Qed.

Lemma retry_loop_bounded_witness :
  snd (bulkCreate_loop user_db demo_Date_toString demo_StringToNumber
         (_handleUniqueConstraintError user_db)
         2 user_model None [ [("email", VStr "a@x.com")] ] []
         (start [stored_ann]))
  <> Diverged.
Proof.
  exact (proj1 (proj2
    (retry_loop_bounded user_db demo_Date_toString demo_StringToNumber
       (_handleUniqueConstraintError user_db)
       (handler_returns user_db)
       user_model None [ [("email", VStr "a@x.com")] ] []
       [stored_ann] []))).
Defined.

(** The claim C5 fails as stated: a pass that meets a violation ends
    with 409, having removed no record and thrown no 500. *)
Lemma violation_pass_ends_with_409 :
  bulkCreate_attempt user_db demo_Date_toString demo_StringToNumber
    (_handleUniqueConstraintError user_db) user_model None
    [ [("email", VStr "a@x.com")] ] [] (start [stored_ann])
  = (([stored_ann], [ CallBulkCreate [ [("email", VStr "a@x.com")] ] None ]),
     HttpError 409 "RestQL: user unique constraint error").
Proof. reflexivity. Qed.

(** With a resolver that resolves, the loop takes its retry branch:
    the colliding record leaves the batch and the rest is inserted on
    the second pass. *)
Example loop_retries_once :
  bulkCreate_loop user_db demo_Date_toString demo_StringToNumber
    decoding_resolver 3 user_model None
    [ [("email", VStr "a@x.com"); ("name", VStr "Ann")];
      [("email", VStr "b@x.com")] ] []
    (start [stored_ann])
  = (([ stored_ann; [("email", VStr "b@x.com"); ("id", VNum 2)] ],
      [ CallBulkCreate [ [("email", VStr "a@x.com"); ("name", VStr "Ann")];
                         [("email", VStr "b@x.com")] ] None;
        CallBulkCreate [ [("email", VStr "b@x.com")] ] None ]),
     Ok ([ [("email", VStr "b@x.com")] ],
         [ {| c_row := [("email", VStr "a@x.com"); ("name", VStr "Ann")];
              c_fields := [("email", VStr "a@x.com")] |} ])).
Proof. reflexivity. Qed.

(** ** Existing-row partitioner *)

Lemma keys_prop_set (r : record) (f : string) (v : value) (k : string) :
  In k (keys (prop_set r f v)) <-> k = f \/ In k (keys r).
Proof.
  induction r as [|[k0 v0] r IH]; simpl.
  - intuition.
  - destruct (String.eqb f k0) eqn:E; simpl.
    + apply String.eqb_eq in E. subst. intuition.
    + rewrite IH. intuition.
Qed.

Lemma identity_agrees_with_record (fs : list string) (data : record) :
  forall acc : record,
    (forall k, In k (keys acc) -> prop_get acc k = prop_get data k) ->
    forall k,
      In k (keys (fold_left
                    (fun fields field =>
                       prop_set fields field (prop_get data field)) fs acc)) ->
      prop_get (fold_left
                  (fun fields field =>
                     prop_set fields field (prop_get data field)) fs acc) k
      = prop_get data k.
Proof.
  induction fs as [|f fs IH]; intros acc Hacc k; simpl; [apply Hacc|].
  apply IH. intros k' Hk'. apply keys_prop_set in Hk'.
  destruct (String.eqb f k') eqn:E.
  - apply String.eqb_eq in E. subst. apply prop_get_set_same.
  - rewrite prop_get_set_other.
    + destruct Hk' as [->|Hk']; [now rewrite String.eqb_refl in E|].
      now apply Hacc.
    + intros ->. now rewrite String.eqb_refl in E.
Qed.

Lemma selected_identity_agrees (indexes : list Index) (data identity : record) :
  _getInstanceValidIndexFields indexes data = Some identity ->
  forall k, In k (keys identity) -> prop_get data k = prop_get identity k.
Proof.
  unfold _getInstanceValidIndexFields.
  destruct (_getInstanceValidIndexes indexes data) as [|index l];
    [discriminate|].
  intros [= <-] k Hk. symmetry.
  apply identity_agrees_with_record; [intros k' []|exact Hk].
Qed.

Lemma forallb_ext_in {A : Type} (f g : A -> bool) (l : list A) :
  (forall x, In x l -> f x = g x) -> forallb f l = forallb g l.
Proof.
  induction l as [|x l IH]; simpl; intros H; auto.
  rewrite (H x (or_introl eq_refl)), IH; auto.
Qed.

Lemma row_matches_identity (indexes : list Index) (data identity row : record) :
  _getInstanceValidIndexFields indexes data = Some identity ->
  row_matches (getOr indexes data) row = Ok (identity_matches identity row).
Proof.
  intros H. unfold row_matches, getOr. simpl. rewrite H.
  unfold identity_matches. f_equal. apply forallb_ext_in.
  intros k Hk. now rewrite (selected_identity_agrees indexes data identity H).
Qed.

Lemma findIndex_throwing_pure {A : Type} (f : A -> outcome bool)
    (g : A -> bool) (l : list A) :
  (forall x, f x = Ok (g x)) ->
  findIndex_throwing f l = Ok (findIndex g l).
Proof.
  intros H. induction l as [|x l IH]; simpl; auto.
  rewrite H. destruct (g x); auto. rewrite IH.
  destruct (findIndex g l); reflexivity.
Qed.

Lemma findIndex_find {A : Type} (f : A -> bool) (l : list A) (d : A) :
  match findIndex f l with
  | Some i => List.find f l = Some (nth i l d) /\ (i < length l)%nat
  | None => List.find f l = None
  end.
Proof.
  induction l as [|x l IH]; simpl; auto.
  destruct (f x); [split; [reflexivity | lia]|].
  destruct (findIndex f l); [|exact IH].
  destruct IH. split; [assumption | lia].
Qed.

Lemma find_splice1 {A : Type} (g : A -> bool) (l : list A) (d : A) :
  forall i : nat,
    (i < length l)%nat -> g (nth i l d) = false ->
    List.find g (splice1 i l) = List.find g l.
Proof.
  unfold splice1. induction l as [|x l IH]; intros i Hi Hg; simpl in *; [lia|].
  destruct i as [|i]; simpl.
  - now rewrite Hg.
  - destruct (g x); auto. apply IH; [lia | exact Hg].
Qed.

Lemma In_splice1 {A : Type} (x : A) (i : nat) (l : list A) :
  In x (splice1 i l) -> In x l.
Proof.
  unfold splice1. intros H. apply in_app_or in H as [H|H].
  - rewrite <- (firstn_skipn i l). apply in_or_app. now left.
  - rewrite <- (firstn_skipn (S i) l). apply in_or_app. now right.
Qed.

Lemma disjoint_head (i : record) (rest : list record) (returned : list record)
    (row j : record) :
  disjoint_identities (i :: rest) returned = true ->
  In row returned -> identity_matches i row = true -> In j rest ->
  identity_matches j row = false.
Proof.
  simpl. intros H Hrow Hm Hj. apply andb_true_iff in H as [H _].
  rewrite forallb_forall in H. specialize (H row Hrow).
  rewrite Hm in H. simpl in H. rewrite forallb_forall in H.
  specialize (H j Hj). now destruct (identity_matches j row).
Qed.

(** The loop of the source against the partition of the specification,
    started with some rows already taken out of [data0]. *)
Lemma classify_spec (indexes : list Index) :
  forall (records identities : list record)
         (data0 data existingRows newRows : list record),
    map (_getInstanceValidIndexFields indexes) records = map Some identities ->
    (forall x, In x data -> In x data0) ->
    (forall i, In i identities ->
       List.find (identity_matches i) data
       = List.find (identity_matches i) data0) ->
    disjoint_identities identities data0 = true ->
    classify (map (getOr indexes) records) data existingRows newRows
    = Ok ((existingRows
           ++ fst (spec_partition (combine identities records) data0))%list,
          (newRows
           ++ snd (spec_partition (combine identities records) data0))%list).
Proof.
  induction records as [|r records IH];
    intros identities data0 data ex new Hid Hin Hfind Hdis.
  - destruct identities; simpl; now rewrite !app_nil_r.
  - destruct identities as [|i identities]; [discriminate|].
    simpl in Hid. injection Hid as Hi Hid.
    simpl classify.
    rewrite (findIndex_throwing_pure _ (identity_matches i));
      [|intros x; now apply row_matches_identity].
    pose proof (findIndex_find (identity_matches i) data []) as Hf.
    pose proof (Hfind i (or_introl eq_refl)) as Hi0.
    assert (Hdis' : disjoint_identities identities data0 = true).
    { simpl in Hdis. now apply andb_true_iff in Hdis as [_ Hdis]. }
    destruct (findIndex (identity_matches i) data) as [index|].
    + destruct Hf as [Hf Hlt].
      assert (Hm : identity_matches i (nth index data []) = true).
      { apply find_some in Hf. tauto. }
      assert (Hx : In (nth index data []) data0).
      { apply Hin. now apply nth_In. }
      rewrite (IH identities data0 (splice1 index data)); auto.
      * unfold spec_partition. simpl. rewrite <- Hi0, Hf. simpl.
        now rewrite <- !app_assoc.
      * intros x Hx'. apply Hin. now apply In_splice1 in Hx'.
      * intros j Hj.
        rewrite (find_splice1 (identity_matches j) data [] index Hlt).
        -- apply Hfind. now right.
        -- now apply (disjoint_head i identities data0).
    + rewrite (IH identities data0 data); auto.
      * unfold spec_partition. simpl. rewrite <- Hi0, Hf. simpl.
        now rewrite <- !app_assoc.
      * intros j Hj. apply Hfind. now right.
Qed.

Lemma findExistingRows_unfolded {Store : Type} (db : Sequelize Store)
    (model : Model) (records identities returned : list record)
    (w : world Store) :
  map (_getInstanceValidIndexFields (_getUniqueIndexes model)) records
  = map Some identities ->
  db_findAll db (fst w) (or_query identities) = Resolved returned ->
  _findExistingRows db model (BArray records) w
  = ((fst w, (snd w ++ [CallFindAll (or_query identities)])%list),
     partition_found (map (getOr (_getUniqueIndexes model)) records) returned).
Proof.
  intros Hid Hfind.
  assert (Hq : map or_fields (map (getOr (_getUniqueIndexes model)) records)
               = map Some identities).
  { rewrite map_map. exact Hid. }
  unfold _findExistingRows, switchByType. cbv zeta. simpl type_of_body.
  cbv iota. simpl cb_array. cbv iota beta. rewrite Hq.
  fold (or_query identities).
  unfold await, bind, model_findAll, read_call, lift, ret.
  destruct w as [s log]. simpl in *. rewrite Hfind. reflexivity.
Qed.

Lemma first_match_split {A : Type} (g : A -> bool) (l : list A) (d : A)
    (i : nat) :
  findIndex g l = Some i ->
  l = (firstn i l ++ nth i l d :: skipn (S i) l)%list /\
  List.Forall (fun x => g x = false) (firstn i l) /\
  g (nth i l d) = true.
Proof.
  revert i. induction l as [|x l IH]; simpl; [discriminate|].
  intros i. destruct (g x) eqn:Ex.
  - intros [= <-]. simpl. repeat split; [constructor | exact Ex].
  - destruct (findIndex g l) as [j|]; [|discriminate].
    intros [= <-]. destruct (IH j eq_refl) as (Hl & Hb & Hm). simpl.
    repeat split; [now rewrite <- Hl | now constructor | exact Hm].
Qed.

Lemma first_match_unique {A : Type} (g : A -> bool)
    (before before' : list A) (row row' : A) (after after' : list A) :
  List.Forall (fun x => g x = false) before -> g row = true ->
  List.Forall (fun x => g x = false) before' -> g row' = true ->
  (before ++ row :: after = before' ++ row' :: after')%list ->
  before = before' /\ row = row' /\ after = after'.
Proof.
  revert before'. induction before as [|x before IH];
    intros [|x' before'] Hb Hr Hb' Hr'; simpl; intros E;
    injection E as E1 E2.
  - auto.
  - inversion Hb'; subst. congruence.
  - inversion Hb; subst. congruence.
  - inversion Hb; subst. inversion Hb'; subst.
    destruct (IH before') as (-> & -> & ->); auto.
Qed.

(** The partition in words fixes its result. *)
Lemma taking_functional (predicates : list (record * record)) :
  forall (remaining existing new existing' new' : list record),
    taking predicates remaining existing new ->
    taking predicates remaining existing' new' ->
    existing' = existing /\ new' = new.
Proof.
  intros remaining existing new existing' new' H. revert existing' new'.
  induction H as [remaining
                 |identity data rest before row after existing new Hb Hm H IH
                 |identity data rest remaining existing new Hn H IH];
    intros existing' new' H'.
  - inversion H'; subst. auto.
  - inversion H' as [|i' d' r' before' row' after' ex0 nw0 Hb' Hm' Ht'
                    |i' d' r' rem' ex0 nw0 Hn' Ht']; subst.
    + match goal with
      | E : (before' ++ row' :: after')%list = _ |- _ =>
          destruct (first_match_unique (identity_matches identity)
                      before' before row' row after' after Hb' Hm' Hb Hm E)
            as (-> & -> & ->)
      end.
      destruct (IH _ _ Ht') as [-> ->]. auto.
    + exfalso. rewrite List.Forall_forall in Hn'.
      rewrite (Hn' row) in Hm; [discriminate|].
      apply in_or_app. right. now left.
  - inversion H' as [|i' d' r' before' row' after' ex0 nw0 Hb' Hm' Ht'
                    |i' d' r' rem' ex0 nw0 Hn' Ht']; subst.
    + exfalso. rewrite List.Forall_forall in Hn.
      rewrite (Hn row') in Hm'; [discriminate|].
      apply in_or_app. right. now left.
    + destruct (IH _ _ Ht') as [-> ->]. auto.
Qed.

(** The loop of the source is the partition in words. *)
Lemma classify_taking (indexes : list Index) :
  forall (records identities data existingRows newRows : list record),
    map (_getInstanceValidIndexFields indexes) records = map Some identities ->
    exists existing new : list record,
      classify (map (getOr indexes) records) data existingRows newRows
      = Ok ((existingRows ++ existing)%list, (newRows ++ new)%list) /\
      taking (combine identities records) data existing new.
Proof.
  induction records as [|r records IH];
    intros [|i identities] data ex nw Hid; try discriminate.
  - exists [], []. simpl. rewrite !app_nil_r. split; [reflexivity | constructor].
  - simpl in Hid. injection Hid as Hi Hid. simpl.
    rewrite (findIndex_throwing_pure _ (identity_matches i))
      by (intros x; now apply row_matches_identity).
    destruct (findIndex (identity_matches i) data) as [index|] eqn:Ef.
    + destruct (first_match_split _ _ [] _ Ef) as (Hl & Hb & Hm).
      destruct (IH identities (splice1 index data)
                   (ex ++ [nth index data []])%list nw Hid)
        as (existing & new & Hc & Ht).
      exists (nth index data [] :: existing), new.
      rewrite Hc, <- app_assoc. split; [reflexivity|].
      rewrite Hl at 1. now constructor.
    + destruct (IH identities data ex (nw ++ [r])%list Hid)
        as (existing & new & Hc & Ht).
      exists existing, (r :: new).
      rewrite Hc, <- app_assoc. split; [reflexivity|].
      constructor; [|exact Ht].
      pose proof (findIndex_first (identity_matches i) data []) as Hf.
      rewrite Ef in Hf. now apply List.Forall_forall.
Qed.

(** C6, as the code has it.  The partitioner computes one identity per
    record and makes one lookup, the union of the identities.  When
    the lookup returns as many rows as there are records, the rows
    returned are the existing rows, as returned, and no record is new.
    Otherwise the identities are processed in order against the
    returned rows not yet taken: an identity that matches one of them
    on every field takes the first such row, which goes to the
    existing rows and is not there for the identities after it; the
    record of an identity that matches none of them goes to the new
    rows; and this fixes the result.  When, moreover, no returned row
    matches two of the identities, the result is the partition of the
    specification. *)
Theorem partition_by_identity {Store : Type} (db : Sequelize Store)
    (model : Model) (records identities returned : list record)
    (w : world Store)
    (Hid : map (_getInstanceValidIndexFields (_getUniqueIndexes model)) records
           = map Some identities)
    (Hfind : db_findAll db (fst w) (or_query identities) = Resolved returned) :
  (length returned = length records ->
   _findExistingRows db model (BArray records) w
   = ((fst w, (snd w ++ [CallFindAll (or_query identities)])%list),
      Ok (returned, []))) /\
  (length returned <> length records ->
   exists existingRows newRows : list record,
     _findExistingRows db model (BArray records) w
     = ((fst w, (snd w ++ [CallFindAll (or_query identities)])%list),
        Ok (existingRows, newRows)) /\
     taking (combine identities records) returned existingRows newRows /\
     forall existing' new' : list record,
       taking (combine identities records) returned existing' new' ->
       existing' = existingRows /\ new' = newRows) /\
  (length returned <> length records ->
   disjoint_identities identities returned = true ->
   _findExistingRows db model (BArray records) w
   = ((fst w, (snd w ++ [CallFindAll (or_query identities)])%list),
      Ok (spec_partition (combine identities records) returned))).
Proof.
  rewrite (findExistingRows_unfolded db model records identities returned w
             Hid Hfind).
  unfold partition_found. rewrite length_map. split; [|split].
  - intros Hl. apply Nat.eqb_eq in Hl. now rewrite Hl.
  - intros Hl. apply Nat.eqb_neq in Hl. rewrite Hl.
    destruct (classify_taking (_getUniqueIndexes model) records identities
                returned [] [] Hid) as (existing & new & Hc & Ht).
    exists existing, new. rewrite Hc. split; [reflexivity|].
    split; [exact Ht|]. intros existing' new' Ht'.
    exact (taking_functional _ _ _ _ _ _ Ht Ht').
  - intros Hl Hd. apply Nat.eqb_neq in Hl. rewrite Hl.
    now rewrite (classify_spec (_getUniqueIndexes model) records identities
                   returned returned [] []).
Qed.

(** The example of the specification: ["a"] is stored, ["b"] is not. *)
Lemma partition_by_identity_witness :
  _findExistingRows uniq_db uniq_model
    (BArray [ [("uniq", VStr "a")]; [("uniq", VStr "b")] ])
    (start [storedRowForA])
  = (([storedRowForA],
      [ CallFindAll (or_query [ [("uniq", VStr "a")]; [("uniq", VStr "b")] ]) ]),
     Ok ([storedRowForA], [ [("uniq", VStr "b")] ])).
Proof.
  exact (proj2 (proj2
    (partition_by_identity uniq_db uniq_model
       [ [("uniq", VStr "a")]; [("uniq", VStr "b")] ]
       [ [("uniq", VStr "a")]; [("uniq", VStr "b")] ]
       [storedRowForA] (start [storedRowForA]) eq_refl eq_refl))
    ltac:(discriminate) eq_refl).
Defined.

(** The claim C6 fails as stated: of two records with the identity of
    the one stored row, the second matches the returned row on every
    field and yet goes to the new rows, the row having been taken by
    the first. *)
Lemma partition_takes_a_row_once :
  identity_matches [("uniq", VStr "a")] storedRowForA = true /\
  db_findAll uniq_db [storedRowForA]
    (or_query [ [("uniq", VStr "a")]; [("uniq", VStr "a")] ])
    = Resolved [storedRowForA] /\
  _findExistingRows uniq_db uniq_model
    (BArray [ [("uniq", VStr "a")]; [("uniq", VStr "a")] ])
    (start [storedRowForA])
  = (([storedRowForA],
      [ CallFindAll (or_query [ [("uniq", VStr "a")]; [("uniq", VStr "a")] ]) ]),
     Ok ([storedRowForA], [ [("uniq", VStr "a")] ])) /\
  spec_partition [ ([("uniq", VStr "a")], [("uniq", VStr "a")]);
                   ([("uniq", VStr "a")], [("uniq", VStr "a")]) ]
                 [storedRowForA]
  = ([storedRowForA; storedRowForA], []).
Proof. repeat split; reflexivity. Qed.

(** ** The rewriters leave the caller's heap alone *)

(** *** [cloneDeep] makes a deep copy, and returns *)

Module CloneFacts.
Import Rewriter Clone.
Local Open Scope nat_scope.
Local Open Scope list_scope.

Lemma bind_Ok {S A B : Type} (m : ST S A) (k : A -> ST S B) (w w' : S)
    (b : B) :
  bind m k w = (w', Ok b) ->
  exists w1 a, m w = (w1, Ok a) /\ k a w1 = (w', Ok b).
Proof.
  unfold bind. destruct (m w) as [w1 [a| | | | |]]; simpl;
    try discriminate.
  intros H. now exists w1, a.
Qed.

Lemma bind_eq {S A B : Type} (m : ST S A) (k : A -> ST S B) (w w1 : S)
    (a : A) :
  m w = (w1, Ok a) -> bind m k w = k a w1.
Proof. unfold bind. now intros ->. Qed.

Lemma bind_ret {S A B : Type} (a : A) (k : A -> ST S B) (w : S) :
  bind (ret a) k w = k a w.
Proof. reflexivity. Qed.

(** *** The stack *)

Lemma extends_refl (m : memo) : extends m m.
Proof. intros k k' H. exact H. Qed.

Lemma extends_trans (m1 m2 m3 : memo) :
  extends m1 m2 -> extends m2 m3 -> extends m1 m3.
Proof. intros H1 H2 k k' H. auto. Qed.

Lemma extends_cons (m : memo) (l l' : loc) :
  stack_get m l = None -> extends m ((l, l') :: m).
Proof.
  intros Hn k k' H. simpl. destruct (Nat.eqb_spec k l) as [->|]; [|exact H].
  congruence.
Qed.

Lemma mapped_extends (m m' : memo) (v : jsval) :
  extends m m' -> mapped m v -> mapped m' v.
Proof.
  intros He. destruct v as [| | | | |l]; simpl; auto.
  intros [l' Hl]. exists l'. now apply He.
Qed.

Lemma rename_extends (m m' : memo) (v : jsval) :
  extends m m' -> mapped m v -> rename m' v = rename m v.
Proof.
  intros He. destruct v as [| | | | |l]; simpl; auto.
  intros [l' Hl]. now rewrite Hl, (He _ _ Hl).
Qed.

Lemma copy_cell_extends (m m' : memo) (c : cell) :
  extends m m' -> Forall (mapped m) (children c) ->
  copy_cell m' c = copy_cell m c.
Proof.
  intros He Hm. unfold copy_cell. f_equal.
  induction Hm as [|x l Hx _ IH]; simpl; [reflexivity|].
  now rewrite IH, (rename_extends m m' x).
Qed.

(** *** The invariant of the copying *)

Section Walk.

Variable h0 : heap.

Lemma inv_start : inv h0 [] h0.
Proof.
  split; [lia|]. split; [auto|]. split; intros k; discriminate.
Qed.

Lemma walked_refl (stack : memo) (h : heap) :
  inv h0 stack h -> walked h0 stack h stack h.
Proof.
  intros Hi. split; [exact Hi|]. split; [lia|]. split; [auto|].
  split; [apply extends_refl|]. intros k k' H1 H2. congruence.
Qed.

Lemma walked_trans (s s1 s2 : memo) (h h1 h2 : heap) :
  walked h0 s h s1 h1 -> walked h0 s1 h1 s2 h2 -> walked h0 s h s2 h2.
Proof.
  intros (Hi1 & Hl1 & Hf1 & He1 & Hn1) (Hi2 & Hl2 & Hf2 & He2 & Hn2).
  split; [exact Hi2|]. split; [lia|].
  split; [intros i Hi; rewrite Hf2 by lia; now apply Hf1|].
  split; [now apply (extends_trans s s1 s2)|].
  intros k k' Hk Hn. destruct (stack_get s1 k) as [k1|] eqn:E1.
  - pose proof (He2 _ _ E1) as E2. rewrite Hk in E2. injection E2 as ->.
    destruct (Hn1 k k1 E1 Hn) as (Hk1 & c & Hc0 & Hc & Hm).
    split; [exact Hk1|]. exists c. split; [exact Hc0|]. split.
    + rewrite Hf2.
      * now rewrite Hc, (copy_cell_extends s1 s2).
      * destruct Hi1 as (_ & _ & Hr & _). now apply Hr in E1.
    + eapply List.Forall_impl; [|exact Hm].
      intros x. now apply mapped_extends.
  - destruct (Hn2 k k' Hk E1) as (Hk1 & c & Hc). split; [lia|]. now exists c.
Qed.

Lemma cloneEach_walked (f : jsval -> memo -> ST heap (jsval * memo)) :
  clones h0 f ->
  forall (l : list jsval) (stack : memo) (h h' : heap) (vs : list jsval)
         (stack' : memo),
    inv h0 stack h ->
    cloneEach f l stack h = (h', Ok (vs, stack')) ->
    walked h0 stack h stack' h' /\
    vs = map (rename stack') l /\ Forall (mapped stack') l.
Proof.
  intros Hf. induction l as [|x l IH]; intros stack h h' vs stack' Hi H.
  - injection H as <- <- <-.
    split; [now apply walked_refl|]. split; [reflexivity | constructor].
  - simpl in H. apply bind_Ok in H as (h1 & [x' s1] & Hx & H).
    apply bind_Ok in H as (h2 & [vs' s2] & Hl & H).
    injection H as <- <- <-. simpl in *.
    destruct (Hf _ _ _ _ _ _ Hi Hx) as (Hw1 & -> & Hm1 & _).
    destruct (IH _ _ _ _ _ (proj1 Hw1) Hl) as (Hw2 & -> & Hm2).
    split; [now apply (walked_trans stack s1 s2 h h1 h2)|].
    pose proof Hw2 as (_ & _ & _ & He & _).
    split.
    + now rewrite (rename_extends s1 s2).
    + constructor; [now apply (mapped_extends s1)|exact Hm2].
Qed.

Lemma baseClone_clones (fuel : nat) : clones h0 (baseClone fuel).
Proof.
  induction fuel as [|fuel IH]; intros v stack h h' v' stack' Hi H.
  - destruct v as [| | | | |l]; simpl in H;
      try (injection H as <- <- <-;
           split; [now apply walked_refl|]; split; [reflexivity|];
           split; [exact I | discriminate]).
    destruct (stack_get stack l) as [l'|] eqn:E; [|discriminate].
    injection H as <- <- <-. split; [now apply walked_refl|].
    simpl. rewrite E. split; [reflexivity|]. split; [eauto|].
    intros l0 [= <-]. congruence.
  - destruct v as [| | | | |l]; simpl in H;
      try (injection H as <- <- <-;
           split; [now apply walked_refl|]; split; [reflexivity|];
           split; [exact I | discriminate]).
    destruct (stack_get stack l) as [l'|] eqn:E.
    { injection H as <- <- <-. split; [now apply walked_refl|].
      simpl. rewrite E. split; [reflexivity|]. split; [eauto|].
      intros l0 [= <-]. congruence. }
    destruct (h !! l) as [c|] eqn:Ec; [|discriminate].
    rewrite (bind_eq (alloc (initClone c)) _ h _ _ eq_refl) in H.
    apply bind_Ok in H as (hw & [vs sw] & Hw & H).
    cbv [bind write ret] in H. injection H as <- <- <-. simpl.
    destruct Hi as (Hl0 & Ha0 & Hr0 & Hj0).
    assert (Hia : inv h0 ((l, length h) :: stack) (h ++ [initClone c])).
    { split; [rewrite length_app; lia|].
      split; [intros i Hi; rewrite lookup_app_l by lia; now apply Ha0|].
      split.
      - intros k k'. simpl. rewrite length_app. simpl.
        destruct (Nat.eqb_spec k l) as [->|].
        + intros [= <-]. lia.
        + intros Hk. apply Hr0 in Hk. lia.
      - intros k1 k2 k'. simpl.
        destruct (Nat.eqb_spec k1 l) as [->|], (Nat.eqb_spec k2 l) as [->|];
          auto.
        + intros [= <-] Hk. apply Hr0 in Hk. lia.
        + intros Hk [= <-]. apply Hr0 in Hk. lia.
        + apply Hj0. }
    destruct (cloneEach_walked (baseClone fuel) IH _ _ _ _ _ _ Hia Hw)
      as ((Hiw & Hlw & Hfw & Hew & Hnw) & -> & Hmw).
    rewrite length_app in Hlw. simpl in Hlw.
    assert (Hsl : stack_get sw l = Some (length h)).
    { apply Hew. simpl. now rewrite Nat.eqb_refl. }
    destruct Hiw as (Hl1 & Ha1 & Hr1 & Hj1).
    split; [|split; [|split]].
    + split; [|split; [|split; [|split]]].
      * split; [now rewrite length_insert|].
        split; [intros i Hi; rewrite list_lookup_insert_ne by lia;
                now apply Ha1|].
        split; [|exact Hj1].
        intros k k' Hk. rewrite length_insert. exact (Hr1 k k' Hk).
      * rewrite length_insert. lia.
      * intros i Hi. rewrite list_lookup_insert_ne by lia.
        rewrite Hfw by (rewrite length_app; lia).
        now apply lookup_app_l.
      * eapply extends_trans; [|exact Hew]. now apply extends_cons.
      * intros k k' Hk Hn. destruct (Nat.eqb_spec k l) as [->|Hkl].
        -- rewrite Hsl in Hk. injection Hk as <-. split; [lia|].
           exists c. split; [intros Hl; now rewrite <- Ha0|].
           split; [|exact Hmw].
           apply list_lookup_insert_eq. lia.
        -- destruct (Hnw k k' Hk) as (Hk' & c' & Hc0 & Hc' & Hm').
           { simpl. destruct (Nat.eqb_spec k l); congruence. }
           rewrite length_app in Hk'. simpl in Hk'.
           split; [lia|]. exists c'. split; [exact Hc0|].
           split; [|exact Hm'].
           rewrite list_lookup_insert_ne by lia. exact Hc'.
    + simpl. now rewrite Hsl.
    + simpl. eauto.
    + intros l0 [= <-] _. eauto.
Qed.

(** A copy is made in new cells: whatever the outcome, the cells that
    were there are as they were. *)
Lemma grows_refl (h : heap) : grows h h.
Proof. split; auto. Qed.

Lemma grows_trans (h1 h2 h3 : heap) :
  grows h1 h2 -> grows h2 h3 -> grows h1 h3.
Proof.
  intros [L1 F1] [L2 F2]. split; [lia|].
  intros i Hi. rewrite F2 by lia. now apply F1.
Qed.

Lemma grows_app (h ext : heap) : grows h (h ++ ext).
Proof.
  split; [rewrite length_app; lia|]. intros i Hi. now apply lookup_app_l.
Qed.

Lemma grows_insert (h h' : heap) (l : loc) (c : cell) :
  grows h h' -> length h <= l -> grows h (<[l := c]> h').
Proof.
  intros [L F] Hl. split; [now rewrite length_insert|].
  intros i Hi. rewrite list_lookup_insert_ne by lia. now apply F.
Qed.

Lemma cloneEach_grows (f : jsval -> memo -> ST heap (jsval * memo)) :
  (forall v stack h, grows h (fst (f v stack h))) ->
  forall (l : list jsval) (stack : memo) (h : heap),
    grows h (fst (cloneEach f l stack h)).
Proof.
  intros Hf. induction l as [|x l IH]; intros stack h; simpl;
    [apply grows_refl|].
  unfold bind at 1. pose proof (Hf x stack h) as H1.
  destruct (f x stack h) as [h1 [[x' s1]| | | | |]]; simpl in *; auto.
  unfold bind at 1. pose proof (IH s1 h1) as H2.
  destruct (cloneEach f l s1 h1) as [h2 [[vs s2]| | | | |]]; simpl in *;
    now apply (grows_trans h h1 h2).
Qed.

Lemma baseClone_grows (fuel : nat) :
  forall (v : jsval) (stack : memo) (h : heap),
    grows h (fst (baseClone fuel v stack h)).
Proof.
  induction fuel as [|fuel IH]; intros v stack h;
    destruct v as [| | | | |l]; simpl; try apply grows_refl;
    destruct (stack_get stack l); simpl; try apply grows_refl.
  destruct (h !! l) as [c|]; simpl; [|apply grows_refl].
  rewrite (bind_eq (alloc (initClone c)) _ h _ _ eq_refl). unfold bind at 1.
  pose proof (cloneEach_grows (baseClone fuel) IH (children c)
                ((l, length h) :: stack) (h ++ [initClone c])) as H1.
  pose proof (grows_trans _ _ _ (grows_app h [initClone c]) H1) as H2.
  destruct (cloneEach _ _ _ _) as [h1 [[vs s1]| | | | |]]; simpl in *;
    try exact H2.
  now apply grows_insert.
Qed.

Lemma cloneDeep_grows (fuel : nat) (v : jsval) (h : heap) :
  grows h (fst (cloneDeep fuel v h)).
Proof.
  unfold cloneDeep, bind. pose proof (baseClone_grows fuel v [] h) as H.
  now destruct (baseClone fuel v [] h) as [h1 [[v' s]| | | | |]].
Qed.

(** *** The copying returns *)

Lemma cloneEach_returns (f : jsval -> memo -> ST heap (jsval * memo))
    (P : jsval -> memo -> Prop) :
  clones h0 f ->
  (forall v s s', extends s s' -> P v s -> P v s') ->
  (forall v stack h,
     inv h0 stack h -> P v stack -> exists h' r, f v stack h = (h', Ok r)) ->
  forall (l : list jsval) (stack : memo) (h : heap),
    inv h0 stack h -> Forall (fun v => P v stack) l ->
    exists h' r, cloneEach f l stack h = (h', Ok r).
Proof.
  intros Hc Hmono Hf. induction l as [|x l IH]; intros stack h Hi Hp; simpl.
  - eexists _, _. reflexivity.
  - inversion Hp as [|? ? Hx Hl]; subst.
    destruct (Hf x stack h Hi Hx) as (h1 & [x' s1] & E1).
    rewrite (bind_eq _ _ _ _ _ E1). simpl.
    destruct (Hc _ _ _ _ _ _ Hi E1) as ((Hi1 & _ & _ & He & _) & _).
    destruct (IH s1 h1 Hi1) as (h2 & [vs s2] & E2).
    { eapply List.Forall_impl; [|exact Hl]. intros v. now apply Hmono. }
    rewrite (bind_eq _ _ _ _ _ E2). eexists _, _. reflexivity.
Qed.

Lemma inv_alloc (stack : memo) (h : heap) (l : loc) (c : cell) :
  inv h0 stack h ->
  inv h0 ((l, length h) :: stack) (h ++ [c]).
Proof.
  intros (Hl0 & Ha0 & Hr0 & Hj0).
  split; [rewrite length_app; lia|].
  split; [intros i Hi; rewrite lookup_app_l by lia; now apply Ha0|].
  split.
  - intros k k'. simpl. rewrite length_app. simpl.
    destruct (Nat.eqb_spec k l) as [->|].
    + intros [= <-]. lia.
    + intros Hk. apply Hr0 in Hk. lia.
  - intros k1 k2 k'. simpl.
    destruct (Nat.eqb_spec k1 l) as [->|], (Nat.eqb_spec k2 l) as [->|];
      auto.
    + intros [= <-] Hk. apply Hr0 in Hk. lia.
    + intros Hk [= <-]. apply Hr0 in Hk. lia.
    + apply Hj0.
Qed.

(** On a tree the depth of the tree is enough. *)
Lemma baseClone_returns_tree (fuel : nat) :
  forall (v : jsval) (stack : memo) (h : heap),
    inv h0 stack h -> Frame.tree_within fuel h0 v = true ->
    exists h' r, baseClone fuel v stack h = (h', Ok r).
Proof.
  induction fuel as [|fuel IH]; intros v stack h Hi Ht;
    destruct v as [| | | | |l]; simpl in *;
    try (eexists _, _; reflexivity); try discriminate.
  destruct (stack_get stack l); [eexists _, _; reflexivity|].
  destruct (h0 !! l) as [c|] eqn:Ec; [|discriminate].
  pose proof Hi as (_ & Ha & _).
  rewrite Ha, Ec by now apply lookup_lt_Some in Ec.
  rewrite (bind_eq (alloc (initClone c)) _ h _ _ eq_refl).
  apply andb_true_iff in Ht as [H1 H2].
  rewrite forallb_forall in H1. rewrite forallb_forall in H2.
  destruct (cloneEach_returns (baseClone fuel)
              (fun v _ => Frame.tree_within fuel h0 v = true)
              (baseClone_clones fuel) ltac:(auto)
              (fun v stack h Hi Hv => IH v stack h Hi Hv)
              (children c) ((l, length h) :: stack) (h ++ [initClone c]))
    as (h1 & [vs s1] & E).
  { now apply inv_alloc. }
  { apply List.Forall_forall. intros x Hx.
    destruct c as [props|elems props]; simpl in Hx.
    - apply in_map_iff in Hx as (kv & <- & Hkv). now apply H2.
    - now apply H1. }
  rewrite (bind_eq _ _ _ _ _ E). eexists _, _. reflexivity.
Qed.








End Walk.

(** *** [cloneDeep] *)

Lemma cloneDeep_walked (fuel : nat) (q v : jsval) (h h1 : heap) :
  cloneDeep fuel q h = (h1, Ok v) ->
  exists m : memo,
    walked h [] h m h1 /\ v = rename m q /\ mapped m q /\
    forall l, q = JRef l -> is_Some (h !! l).
Proof.
  unfold cloneDeep. intros H.
  apply bind_Ok in H as (h' & [v' m] & Hb & H). injection H as <- <-.
  destruct (baseClone_clones h fuel q [] h h' v' m (inv_start h) Hb)
    as (Hw & Hv & Hm & Hr).
  exists m. split; [exact Hw|]. split; [exact Hv|]. split; [exact Hm|].
  intros l Hl. now apply (Hr l).
Qed.

Lemma cloneDeep_returns_tree (fuel : nat) (q : jsval) (h : heap) :
  Frame.tree_within fuel h q = true ->
  exists h1 v, cloneDeep fuel q h = (h1, Ok v).
Proof.
  intros Ht. unfold cloneDeep.
  destruct (baseClone_returns_tree h fuel q [] h (inv_start h) Ht)
    as (h1 & [v m] & E).
  rewrite (bind_eq _ _ _ _ _ E). eexists _, _. reflexivity.
Qed.


End CloneFacts.

(** *** The steps of a rewriter *)

Module StepFacts.
Import Rewriter Clone Frame CloneFacts.
Local Open Scope nat_scope.
Local Open Scope list_scope.

Lemma pget_pset_same (props : list (string * jsval)) (k : string)
    (x : jsval) :
  pget (pset props k x) k = x.
Proof.
  induction props as [|[k0 v0] props IH]; simpl.
  - now rewrite String.eqb_refl.
  - destruct (String.eqb k k0) eqn:E; simpl; now rewrite E.
Qed.

Lemma pget_pset_other (props : list (string * jsval)) (k k' : string)
    (x : jsval) :
  k' <> k -> pget (pset props k x) k' = pget props k'.
Proof.
  intros Hk. apply String.eqb_neq in Hk.
  induction props as [|[k0 v0] props IH]; simpl.
  - now rewrite Hk.
  - destruct (String.eqb k k0) eqn:E; simpl.
    + apply String.eqb_eq in E. subst k0. now rewrite Hk.
    + now rewrite IH.
Qed.

Lemma cell_props_with_props (c : cell) (props : list (string * jsval)) :
  cell_props (with_props c props) = props.
Proof. now destruct c. Qed.

Section Steps.

Variable prot : loc -> Prop.
Variable keep : string -> bool.
Variable props0 : list (string * jsval).
Variable target : string.
Variable strict : bool.
Variable query : jsval.

Local Abbreviation frame := (Frame.frame prot).
Local Abbreviation writable := (Frame.writable prot).
Local Abbreviation working :=
  (Frame.working prot keep props0 target strict query).
Local Abbreviation step :=
  (fun A => @Frame.step prot keep props0 target strict query A).

Lemma frame_refl (h : heap) : frame h h.
Proof. split; auto. Qed.

Lemma frame_trans (h1 h2 h3 : heap) :
  working h1 -> working h2 ->
  frame h1 h2 -> frame h2 h3 -> frame h1 h3.
Proof.
  intros _ _ [L1 F1] [L2 F2]. split; [lia|].
  intros l Hl. now rewrite F2, F1.
Qed.

Lemma frame_app (h ext : heap) : working h -> frame h (h ++ ext).
Proof.
  intros [Hp _]. split; [rewrite length_app; lia|].
  intros l Hl. apply lookup_app_l. now apply Hp.
Qed.

Lemma frame_insert (h : heap) (l : loc) (c : cell) :
  ~ prot l -> frame h (<[l := c]> h).
Proof.
  intros Hn. split; [now rewrite length_insert|].
  intros l' Hl'. apply list_lookup_insert_ne. congruence.
Qed.

Lemma working_app (h ext : heap) : working h -> working (h ++ ext).
Proof.
  intros [Hp Hq]. split.
  - intros l Hl. rewrite length_app. specialize (Hp l Hl). lia.
  - destruct query; auto. destruct Hq as (Hn & c & Hc & Hk).
    split; [exact Hn|]. exists c. split; [|exact Hk].
    now apply lookup_app_l_Some.
Qed.

(** A write into another cell leaves the query's own cell as it is. *)
Lemma working_insert_other (h : heap) (l : loc) (c : cell) :
  working h -> JRef l <> query -> working (<[l := c]> h).
Proof.
  intros [Hp Hq] Hne. split.
  - intros l' Hl'. rewrite length_insert. now apply Hp.
  - destruct query; auto. destruct Hq as (Hn & c0 & Hc & Hk).
    split; [exact Hn|]. exists c0. split; [|exact Hk].
    rewrite list_lookup_insert_ne; [exact Hc|]. congruence.
Qed.

Lemma step_ret {A : Type} (a : A) (Q : A -> Prop) :
  Q a -> step A (ret a) Q.
Proof.
  intros Hq h Hw. simpl. split; [apply frame_refl|].
  split; [discriminate|]. intros a' [= <-]. auto.
Qed.

Lemma step_throw {A : Type} (Q : A -> Prop) :
  step A (throw_TypeError (A := A)) Q.
Proof.
  intros h Hw. simpl. split; [apply frame_refl|].
  split; discriminate.
Qed.

Lemma step_bind {A B : Type} (m : ST heap A) (k : A -> ST heap B)
    (Q : A -> Prop) (R : B -> Prop) :
  step A m Q -> (forall a, Q a -> step B (k a) R) ->
  step B (bind m k) R.
Proof.
  intros Hm Hk h Hw. destruct (Hm h Hw) as (Hf & Hd & Ha).
  unfold bind. destruct (m h) as [h1 o]; simpl in *.
  destruct o as [a| | | | |]; simpl;
    try (split; [exact Hf|]; split; discriminate).
  - destruct (Ha a eq_refl) as [Hw1 Hq].
    destruct (Hk a Hq h1 Hw1) as (Hf1 & Hd1 & Ha1).
    split; [now apply (frame_trans h h1)|]. split; assumption.
  - congruence.
Qed.

Lemma step_weaken {A : Type} (m : ST heap A) (Q R : A -> Prop) :
  step A m Q -> (forall a, Q a -> R a) -> step A m R.
Proof.
  intros Hm HQR h Hw. destruct (Hm h Hw) as (Hf & Hd & Ha).
  split; [exact Hf|]. split; [exact Hd|].
  intros a Hoa. destruct (Ha a Hoa). split; auto.
Qed.

(** Reading changes nothing. *)
Lemma step_get (v : jsval) (k : string) :
  step jsval (get_prop v k) (fun _ => True).
Proof.
  intros h Hw. unfold get_prop.
  destruct v as [| | | | |l]; simpl;
    try (split; [apply frame_refl|]; split; [discriminate|];
         intros a [= <-]; split; [exact Hw | exact I]);
    try (split; [apply frame_refl|]; split; discriminate).
  destruct (h !! l); simpl.
  - split; [apply frame_refl|]. split; [discriminate|].
    intros a [= <-]. split; [exact Hw | exact I].
  - split; [apply frame_refl|]. split; discriminate.
Qed.

(** What the query holds under [target] may be written to. *)
Lemma step_get_target :
  step jsval (get_prop query target)
       (fun v => writable v /\ (strict = true -> v <> query)).
Proof.
  intros h Hw. unfold get_prop. pose proof Hw as [Hp Hq].
  destruct query as [| | | | |lq]; simpl;
    try (split; [apply frame_refl|]; split; [discriminate|];
         intros a [= <-]; split; [exact Hw|]; split; [exact I|];
         discriminate);
    try (split; [apply frame_refl|]; split; discriminate).
  destruct Hq as (Hn & c & Hc & Hk & Hwr & Hs). rewrite Hc. simpl.
  split; [apply frame_refl|]. split; [discriminate|].
  intros a [= <-]. split; [exact Hw|]. split; assumption.
Qed.

(** Writing a property of the query that is not to be kept; it
    succeeds on an object only. *)
Lemma step_set_query (k : string) (x : jsval) :
  keep k = false ->
  (k = target -> writable x /\ (strict = true -> x <> query)) ->
  step unit (set_prop query k x) (fun _ => exists lq, query = JRef lq).
Proof.
  intros Hkeep Hx h Hw. unfold set_prop. pose proof Hw as [Hp Hq].
  destruct query as [| | | | |lq] eqn:Eq; simpl;
    try (split; [apply frame_refl|]; split; discriminate).
  destruct Hq as (Hn & c & Hc & Hk & Hwr & Hs). rewrite Hc. simpl.
  split; [now apply frame_insert|]. split; [discriminate|].
  intros a _. split; [|now exists lq].
  split; [intros l Hl; rewrite length_insert; now apply Hp|].
  split; [exact Hn|]. eexists. split.
  - apply list_lookup_insert_eq. now apply lookup_lt_Some in Hc.
  - rewrite cell_props_with_props. split; [|].
    + intros k' Hk'. rewrite pget_pset_other by congruence. now apply Hk.
    + destruct (String.eqb_spec target k) as [<-|Hne].
      * rewrite pget_pset_same. now apply Hx.
      * rewrite pget_pset_other by exact Hne. split; assumption.
Qed.

(** Writing anything into a cell that may be written to and is not
    the query. *)
Lemma step_set_other (v : jsval) (k : string) (x : jsval) :
  writable v -> v <> query -> step unit (set_prop v k x) (fun _ => True).
Proof.
  intros Hv Hne h Hw. unfold set_prop.
  destruct v as [| | | | |l]; simpl;
    try (split; [apply frame_refl|]; split; discriminate).
  destruct (h !! l); simpl.
  - split; [now apply frame_insert|]. split; [discriminate|].
    intros a _. split; [|exact I]. now apply working_insert_other.
  - split; [apply frame_refl|]. split; discriminate.
Qed.

(** Pushing on an array that may be written to; the query itself may
    be that array. *)
Lemma step_push (v x : jsval) :
  writable v -> step unit (push v x) (fun _ => True).
Proof.
  intros Hv h Hw. unfold push.
  destruct v as [| | | | |l]; simpl;
    try (split; [apply frame_refl|]; split; discriminate).
  destruct (h !! l) as [[props|elems props]|] eqn:Ec; simpl;
    try (split; [apply frame_refl|]; split; discriminate).
  split; [now apply frame_insert|]. split; [discriminate|].
  intros a _. split; [|exact I].
  destruct Hw as [Hp Hq]. split.
  - intros l' Hl'. rewrite length_insert. now apply Hp.
  - destruct query as [| | | | |lq]; auto.
    destruct Hq as (Hn & c0 & Hc & Hk). split; [exact Hn|].
    destruct (Nat.eq_dec l lq) as [->|Hl].
    + rewrite Ec in Hc. injection Hc as <-. eexists. split.
      * apply list_lookup_insert_eq. now apply lookup_lt_Some in Ec.
      * exact Hk.
    + exists c0. split; [|exact Hk]. now rewrite list_lookup_insert_ne.
Qed.

Lemma step_alloc (c : cell) :
  step jsval (alloc c) (fun v => writable v /\ v <> query).
Proof.
  intros h Hw. unfold alloc. simpl.
  split; [now apply frame_app|]. split; [discriminate|].
  intros a [= <-]. split; [now apply working_app|].
  destruct Hw as [Hp Hq]. split.
  - simpl. intros Hl. apply Hp in Hl. lia.
  - destruct query; try discriminate.
    destruct Hq as (_ & c0 & Hc & _). apply lookup_lt_Some in Hc.
    intros [= E]. lia.
Qed.


Lemma step_forM_ {A : Type} (f : A -> ST heap unit) (l : list A) :
  (forall x, step unit (f x) (fun _ => True)) ->
  step unit (forM_ f l) (fun _ => True).
Proof.
  intros Hf. induction l as [|x l IH]; simpl.
  - now apply step_ret.
  - eapply step_bind; [apply Hf|]. intros _ _. exact IH.
Qed.

Lemma step_assign (t source : jsval) :
  writable t -> t <> query ->
  step unit (assign_ t source) (fun _ => True).
Proof.
  intros Ht Hne h Hw. unfold assign_.
  destruct t as [| | | | |lt];
    try (simpl; split; [apply frame_refl|]; split; [discriminate|];
         intros a [= <-]; split; [exact Hw | exact I]).
  destruct source as [| | | | |ls];
    try (simpl; split; [apply frame_refl|]; split; [discriminate|];
         intros a [= <-]; split; [exact Hw | exact I]).
  destruct (h !! ls) as [c|].
  - apply step_forM_; [|exact Hw]. intros kv. now apply step_set_other.
  - simpl. split; [apply frame_refl|]. split; discriminate.
Qed.

Lemma step_some_ (f : jsval -> ST heap bool) (l : list jsval) :
  (forall x, step bool (f x) (fun _ => True)) ->
  step bool (some_ f l) (fun _ => True).
Proof.
  intros Hf. induction l as [|x l IH]; simpl.
  - now apply step_ret.
  - eapply step_bind; [apply Hf|]. intros [|] _; [now apply step_ret|exact IH].
Qed.

Lemma step_hasPluralAssociation (include : jsval) :
  step bool (hasPluralAssociation include) (fun _ => True).
Proof.
  intros h Hw. unfold hasPluralAssociation.
  destruct (negb (jtruthy include)).
  { simpl. split; [apply frame_refl|]. split; [discriminate|].
    intros a _. split; [exact Hw | exact I]. }
  destruct include as [| | | | |l];
    try (simpl; split; [apply frame_refl|]; split; discriminate).
  destruct (h !! l) as [[props|elems props]|];
    try (simpl; split; [apply frame_refl|]; split; discriminate).
  apply step_some_; [|exact Hw]. intros x.
  eapply step_bind; [apply step_get|]. intros a _.
  destruct (jtruthy a); [|now apply step_ret].
  eapply step_bind; [apply step_get|]. intros m _. now apply step_ret.
Qed.

End Steps.

End StepFacts.

(** *** The copy, and the run of a rewriter on it *)

Module RunFacts.
Import Rewriter Clone Frame CloneFacts StepFacts.
Local Open Scope nat_scope.
Local Open Scope list_scope.

(** *** What a copy holds *)

Lemma pget_combine (props : list (string * jsval)) (f : jsval -> jsval)
    (k : string) :
  f JUndefined = JUndefined ->
  pget (combine (map fst props) (map f (map snd props))) k
  = f (pget props k).
Proof.
  intros Hf. induction props as [|[k0 v0] props IH]; simpl; [now rewrite Hf|].
  now destruct (String.eqb k k0).
Qed.

Lemma pget_copy_object (m : memo) (props : list (string * jsval))
    (k : string) :
  pget (cell_props (copy_cell m (CObject props))) k = rename m (pget props k).
Proof. unfold copy_cell. simpl. now apply pget_combine. Qed.

Lemma pget_copy_array (m : memo) (elems : list jsval)
    (props : list (string * jsval)) (k : string) :
  k <> "index" -> k <> "input" ->
  pget (cell_props (copy_cell m (CArray elems props))) k = JUndefined.
Proof.
  intros H1 H2. apply String.eqb_neq in H1. apply String.eqb_neq in H2.
  unfold copy_cell. simpl.
  destruct elems as [|[| | | | |] elems]; simpl; try reflexivity.
  destruct (has_key props "index"); simpl; [|reflexivity].
  now rewrite H1, H2.
Qed.

Lemma pget_child (props : list (string * jsval)) (k : string) :
  pget props k = JUndefined \/ In (pget props k) (map snd props).
Proof.
  induction props as [|[k0 v0] props IH]; simpl; [now left|].
  destruct (String.eqb k k0); [right; now left|].
  destruct IH; [now left | right; now right].
Qed.

(** A reference that a copy holds under a name is the copy of the
    reference that the object holds under that name. *)
Lemma copy_holds_copies (m : memo) (c : cell) (k : string) (l' : loc) :
  Forall (mapped m) (children c) ->
  k <> "index" -> k <> "input" ->
  pget (cell_props (copy_cell m c)) k = JRef l' ->
  exists (props : list (string * jsval)) (l : loc),
    c = CObject props /\ pget props k = JRef l /\ stack_get m l = Some l'.
Proof.
  intros Hm H1 H2 Hk. destruct c as [props|elems props].
  - rewrite pget_copy_object in Hk. exists props.
    destruct (pget_child props k) as [E|Hin]; [rewrite E in Hk; discriminate|].
    rewrite List.Forall_forall in Hm. specialize (Hm _ Hin).
    destruct (pget props k) as [| | | | |l]; try discriminate.
    destruct Hm as [l0 Hl]. simpl in Hk. rewrite Hl in Hk.
    injection Hk as <-. now exists l.
  - rewrite pget_copy_array in Hk by assumption. discriminate.
Qed.

(** *** A rewriter: clone, then work on the clone *)


End RunFacts.

(** *** The two rewriters *)

Module RewriterFacts.
Import Rewriter Clone Frame CloneFacts StepFacts RunFacts.
Local Open Scope nat_scope.
Local Open Scope list_scope.

(** The through inclusion of [belongsToManyQueryGenerator] and what
    follows it. *)
Ltac through_steps association prot :=
  let t := fresh "t" in
  let qt := fresh "qt" in
  let qtw := fresh "qtw" in
  let inc := fresh "inc" in
  let inc' := fresh "inc" in
  let plural := fresh "plural" in
  eapply step_bind with (Q := fun _ => True);
  [ destruct (through association); [now apply step_ret | apply step_throw]
  | intros t _;
    eapply step_bind with (Q := fun _ => True);
    [ destruct (jtruthy (through_model t)); [|now apply step_ret];
      eapply step_bind; [apply step_alloc|];
      intros ? [? ?];
      eapply step_bind with (Q := fun _ => True);
      [ destruct (jtruthy (through_scope t));
        [now apply step_assign | now apply step_ret]
      | intros _ _;
        eapply step_bind; [apply step_get|]; intros qt _;
        eapply step_bind with (Q := fun _ => True);
        [ destruct (jtruthy qt); [apply step_get | now apply step_ret]
        | intros qtw _;
          eapply step_bind with (Q := fun _ => True);
          [ destruct (jtruthy qtw); [|now apply step_ret];
            eapply step_bind; [apply step_get|]; intros ? _;
            eapply step_bind; [apply step_get|]; intros ? _;
            eapply step_bind; [apply step_alloc|]; intros ? _;
            eapply step_weaken; [apply step_alloc | auto]
          | intros ? _;
            eapply step_bind; [apply step_get_target|];
            intros inc [? _];
            eapply step_bind with (Q := Frame.writable prot);
            [ destruct (jtruthy inc);
              [now apply step_ret
              | eapply step_weaken; [apply step_alloc | intros ? [? _]; assumption] ]
            | intros inc' ?;
              eapply step_bind;
              [ apply step_set_query;
                [reflexivity | intros _; split; [assumption | discriminate]]
              | intros ? _;
                eapply step_bind; [apply step_get_target|];
                intros ? [? _];
                eapply step_bind; [apply step_get|]; intros ? _;
                eapply step_bind; [apply step_alloc|]; intros ? _;
                now apply step_push ] ] ] ] ]
    | intros _ _;
      eapply step_bind; [apply step_get|]; intros ? _;
      eapply step_bind; [apply step_hasPluralAssociation|];
      intros plural _;
      eapply step_bind with (Q := fun _ => True);
      [ destruct plural;
        [ eapply step_weaken;
          [apply step_set_query; [reflexivity | discriminate] | auto]
        | now apply step_ret ]
      | intros _ _; now apply step_ret ] ] ].










End RewriterFacts.




(** The clone made for a hasMany association, on a base query whose
    include leads into a cycle (the association 4 and its target 6):
    the cycle is copied as a cycle (11 and 12), the scope is merged,
    the foreign key pinned, the query marked distinct; cells 0 to 6
    are the caller's. *)
Example hasMany_on_caller_heap :
  Rewriter.hasManyQueryGenerator 7 tags_of_user
    (Rewriter.JRef 0) (Rewriter.JNum 7) caller_heap
  = ((caller_heap ++
      [ Rewriter.CObject [ ("where", Rewriter.JRef 8);
                           ("include", Rewriter.JRef 9);
                           ("distinct", Rewriter.JBool true) ];
        Rewriter.CObject [ ("status", Rewriter.JStr "open");
                           ("kind", Rewriter.JStr "x");
                           ("user_id", Rewriter.JNum 7) ];
        Rewriter.CArray [Rewriter.JRef 10] [];
        Rewriter.CObject [("association", Rewriter.JRef 11)];
        Rewriter.CObject [ ("isMultiAssociation", Rewriter.JBool true);
                           ("target", Rewriter.JRef 12) ];
        Rewriter.CObject [ ("name", Rewriter.JStr "tag");
                           ("association", Rewriter.JRef 11) ] ])%list,
     Ok (Rewriter.JRef 7)).
Proof. reflexivity. Qed.

(** The clone made for a belongsToMany association: scope and caller's
    where under [$and], the through inclusion pushed on the clone's
    includes. *)
Example belongsToMany_on_caller_heap :
  Rewriter.belongsToManyQueryGenerator 7 groups_of_user
    (Rewriter.JRef 0) (Rewriter.JNum 7) caller_heap
  = ((caller_heap ++
      [ Rewriter.CObject [ ("where", Rewriter.JRef 15);
                           ("include", Rewriter.JRef 9);
                           ("distinct", Rewriter.JBool true) ];
        Rewriter.CObject [("status", Rewriter.JStr "open")];
        Rewriter.CArray [Rewriter.JRef 10; Rewriter.JRef 17] [];
        Rewriter.CObject [("association", Rewriter.JRef 11)];
        Rewriter.CObject [ ("isMultiAssociation", Rewriter.JBool true);
                           ("target", Rewriter.JRef 12) ];
        Rewriter.CObject [ ("name", Rewriter.JStr "tag");
                           ("association", Rewriter.JRef 11) ];
        Rewriter.CObject [("kind", Rewriter.JStr "x")];
        Rewriter.CArray [Rewriter.JRef 13; Rewriter.JRef 8] [];
        Rewriter.CObject [("$and", Rewriter.JRef 14)];
        Rewriter.CObject [("user_id", Rewriter.JNum 7)];
        Rewriter.CObject [ ("association", Rewriter.JRef 4);
                           ("attributes", Rewriter.JUndefined);
                           ("require", Rewriter.JBool true);
                           ("where", Rewriter.JRef 16) ] ])%list,
     Ok (Rewriter.JRef 7)).
Proof. reflexivity. Qed.

(** * Further properties *)

(** ** Unique index resolver *)

Lemma strict_eq_refl (v : value) : strict_eq v v = true.
Proof.
  destruct v; simpl; auto.
  - apply Bool.eqb_reflx.
  - apply Z.eqb_refl.
  - apply String.eqb_refl.
  - apply Nat.eqb_refl.
Qed.

Lemma strict_eq_undefined (v : value) :
  strict_eq v VUndefined = true <-> v = VUndefined.
Proof. destruct v; simpl; split; intros; congruence. Qed.

Lemma index_valid_for_spec (data : record) (index : Index) :
  index_valid_for data index = true <->
  forall f, In f (idx_fields index) -> prop_get data f <> VUndefined.
Proof.
  unfold index_valid_for. rewrite forallb_forall. split.
  - intros H f Hf E. specialize (H f Hf). rewrite E in H. discriminate.
  - intros H f Hf. specialize (H f Hf).
    destruct (strict_eq (prop_get data f) VUndefined) eqn:E; auto.
    apply strict_eq_undefined in E. contradiction.
Qed.

Lemma filter_first {A : Type} (f : A -> bool) (l : list A) (x : A)
    (rest : list A) :
  List.filter f l = x :: rest ->
  exists pre post : list A,
    l = (pre ++ x :: post)%list /\
    List.Forall (fun y => f y = false) pre /\ f x = true.
Proof.
  induction l as [|y l IH]; simpl; [discriminate|].
  destruct (f y) eqn:E.
  - intros [= -> _]. exists [], l. repeat split; auto.
  - intros H. destruct (IH H) as (pre & post & -> & Hp & Hx).
    exists (y :: pre), post. repeat split; auto.
Qed.

Lemma keys_of_identity (fs : list string) (data : record) :
  forall (acc : record) (k : string),
    In k (keys (fold_left
                  (fun fields field =>
                     prop_set fields field (prop_get data field)) fs acc))
    <-> In k fs \/ In k (keys acc).
Proof.
  induction fs as [|f fs IH]; intros acc k; simpl; [tauto|].
  rewrite IH, keys_prop_set. intuition.
Qed.

(** X1. The identity selected for a record comes from the first index,
    in list order, all of whose fields the record defines; its keys
    are that index's fields, its values are the record's, none is
    undefined, and the record itself matches it. *)
Theorem selected_identity_is_first_match (indexes : list Index)
    (data identity : record)
    (H : _getInstanceValidIndexFields indexes data = Some identity) :
  exists (pre : list Index) (index : Index) (post : list Index),
    indexes = (pre ++ index :: post)%list /\
    List.Forall (fun i => index_valid_for data i = false) pre /\
    (forall f, In f (keys identity) <-> In f (idx_fields index)) /\
    (forall f, In f (idx_fields index) ->
       prop_get identity f = prop_get data f /\
       prop_get data f <> VUndefined) /\
    identity_matches identity data = true.
Proof.
  unfold _getInstanceValidIndexFields, _getInstanceValidIndexes in H.
  destruct (List.filter (index_valid_for data) indexes) as [|index rest] eqn:E;
    [discriminate|].
  injection H as H.
  destruct (filter_first _ _ _ _ E) as (pre & post & Hl & Hp & Hv).
  exists pre, index, post. split; [exact Hl|]. split; [exact Hp|].
  assert (Hk : forall f, In f (keys identity) <-> In f (idx_fields index)).
  { intros f. subst identity. rewrite keys_of_identity. simpl. tauto. }
  assert (Ha : forall f, In f (keys identity) ->
                 prop_get identity f = prop_get data f).
  { intros f Hf. subst identity.
    apply identity_agrees_with_record; [intros k []|exact Hf]. }
  split; [exact Hk|]. split.
  - intros f Hf. split; [apply Ha; now apply Hk|].
    now apply (proj1 (index_valid_for_spec data index) Hv).
  - unfold identity_matches. apply forallb_forall. intros f Hf.
    rewrite (Ha f Hf). apply strict_eq_refl.
Qed.

Lemma selected_identity_is_first_match_witness :
  exists (pre : list Index) (index : Index) (post : list Index),
    _getUniqueIndexes user_model = (pre ++ index :: post)%list /\
    List.Forall
      (fun i => index_valid_for [("email", VStr "x@x.com")] i = false) pre /\
    (forall f, In f (keys [("email", VStr "x@x.com")])
               <-> In f (idx_fields index)) /\
    (forall f, In f (idx_fields index) ->
       prop_get [("email", VStr "x@x.com")] f
       = prop_get [("email", VStr "x@x.com")] f /\
       prop_get [("email", VStr "x@x.com")] f <> VUndefined) /\
    identity_matches [("email", VStr "x@x.com")] [("email", VStr "x@x.com")]
    = true.
Proof.
  exact (selected_identity_is_first_match (_getUniqueIndexes user_model)
           [("email", VStr "x@x.com")] [("email", VStr "x@x.com")] eq_refl).
Defined.

(** X2. No identity is selected exactly when every index of the list
    has a field that the record leaves undefined. *)
Theorem no_identity_iff (indexes : list Index) (data : record) :
  _getInstanceValidIndexFields indexes data = None <->
  forall index : Index,
    In index indexes ->
    exists field : string,
      In field (idx_fields index) /\ prop_get data field = VUndefined.
Proof.
  unfold _getInstanceValidIndexFields, _getInstanceValidIndexes. split.
  - intros H index Hin.
    destruct (List.filter (index_valid_for data) indexes) as [|i rest] eqn:E;
      [|discriminate].
    assert (Hv : index_valid_for data index = false).
    { destruct (index_valid_for data index) eqn:Ev; auto.
      assert (Hf : In index (List.filter (index_valid_for data) indexes))
        by (apply filter_In; auto).
      rewrite E in Hf. destruct Hf. }
    unfold index_valid_for in Hv.
    assert (Hx : exists f, In f (idx_fields index) /\
                   negb (strict_eq (prop_get data f) VUndefined) = false).
    { clear - Hv. induction (idx_fields index) as [|f fs IH];
        simpl in Hv; [discriminate|].
      apply andb_false_iff in Hv as [Hv|Hv].
      - exists f. split; [now left | exact Hv].
      - destruct (IH Hv) as (g & Hg & Hn). exists g. split; [now right|auto]. }
    destruct Hx as (f & Hf & Hn). exists f. split; [exact Hf|].
    apply strict_eq_undefined. now apply negb_false_iff.
  - intros H.
    destruct (List.filter (index_valid_for data) indexes) as [|i rest] eqn:E;
      [reflexivity|].
    exfalso.
    assert (Hf : In i (List.filter (index_valid_for data) indexes))
      by (rewrite E; now left).
    apply filter_In in Hf as [Hin Hv].
    destruct (H i Hin) as (f & Hf & Hu).
    apply (proj1 (index_valid_for_spec data i) Hv f Hf Hu).
Qed.

(** X3. A record that defines every column of a non-empty primary key
    is identified by that key, whatever other indexes it also
    satisfies: the identity holds exactly the primary key columns with
    the record's values. *)
Theorem primary_key_takes_precedence (model : Model) (ks : list string)
    (data : record)
    (Hpk : primaryKeys model = Some ks)
    (Hne : ks <> [])
    (Hdef : forall k, In k ks -> prop_get data k <> VUndefined) :
  exists identity : record,
    _getInstanceValidIndexFields (_getUniqueIndexes model) data
    = Some identity /\
    (forall f, In f (keys identity) <-> In f ks) /\
    (forall f, In f ks -> prop_get identity f = prop_get data f).
Proof.
  unfold _getInstanceValidIndexFields, _getInstanceValidIndexes,
    _getUniqueIndexes, _getIndexes.
  rewrite Hpk. destruct ks as [|k ks]; [congruence|].
  cbn [app List.filter idx_unique].
  set (primary := {| idx_name := Some "PRIMARY"; idx_unique := true;
                     idx_primary := true; idx_fields := k :: ks |}).
  assert (Hv : index_valid_for data primary = true).
  { apply index_valid_for_spec. exact Hdef. }
  rewrite Hv. eexists. split; [reflexivity|].
  split.
  - intros f. rewrite keys_of_identity. simpl. tauto.
  - intros f Hf. apply identity_agrees_with_record; [intros x []|].
    apply keys_of_identity. now left.
Qed.

Lemma primary_key_takes_precedence_witness :
  exists identity : record,
    _getInstanceValidIndexFields (_getUniqueIndexes user_model)
      [("email", VStr "x@x.com"); ("id", VNum 5)]
    = Some identity /\
    (forall f, In f (keys identity) <-> In f ["id"]) /\
    (forall f, In f ["id"] ->
       prop_get identity f
       = prop_get [("email", VStr "x@x.com"); ("id", VNum 5)] f).
Proof.
  apply (primary_key_takes_precedence user_model ["id"]
           [("email", VStr "x@x.com"); ("id", VNum 5)] eq_refl).
  - discriminate.
  - intros k [<-|[]]. discriminate.
Defined.

(** ** Conflict translator *)

Lemma split_on_nonempty (sep : ascii) (s : string) : split_on sep s <> [].
Proof.
  induction s as [|c s IH]; simpl; [discriminate|].
  destruct (Ascii.eqb c sep); [discriminate|].
  destruct (split_on sep s); discriminate.
Qed.

Lemma length_split_on (sep : ascii) (s : string) :
  length (split_on sep s) = S (occurrences sep s).
Proof.
  induction s as [|c s IH]; simpl; auto.
  destruct (Ascii.eqb c sep); simpl; [now rewrite IH|].
  destruct (split_on sep s) as [|w ws] eqn:E; simpl in *; [discriminate|].
  exact IH.
Qed.

Lemma split_on_free (sep : ascii) (s : string) :
  free_of sep s = true -> split_on sep s = [s].
Proof.
  induction s as [|c s IH]; simpl; auto.
  destruct (Ascii.eqb c sep); simpl; [discriminate|].
  intros H. now rewrite (IH H).
Qed.

Lemma split_on_app (sep : ascii) (p rest : string) :
  free_of sep p = true ->
  split_on sep (p ++ String sep rest) = p :: split_on sep rest.
Proof.
  induction p as [|c p IH]; simpl.
  - now rewrite Ascii.eqb_refl.
  - destruct (Ascii.eqb c sep); simpl; [discriminate|].
    intros H. now rewrite (IH H).
Qed.

(** Splitting undoes joining when no part holds the separator. *)
Lemma split_on_join_with (sep : ascii) (parts : list string) :
  parts <> [] ->
  forallb (free_of sep) parts = true ->
  split_on sep (join_with sep parts) = parts.
Proof.
  induction parts as [|p parts IH]; [congruence|].
  intros _ H. simpl in H. apply andb_true_iff in H as [Hp Hr].
  destruct parts as [|p' parts].
  - simpl. now apply split_on_free.
  - change (join_with sep (p :: p' :: parts))
      with (p ++ String sep (join_with sep (p' :: parts))).
    rewrite split_on_app; [|exact Hp]. f_equal. apply IH; [discriminate|auto].
Qed.

Lemma decode_into_other (fields : list string) :
  forall (ret : record) (vs : list value) (k : string),
    ~ In k fields ->
    prop_get (decode_into ret fields vs) k = prop_get ret k.
Proof.
  induction fields as [|f fields IH]; intros ret vs k Hk; simpl; auto.
  rewrite IH; [|intros Hin; apply Hk; now right].
  apply prop_get_set_other. intros ->. apply Hk. now left.
Qed.

Lemma decode_into_nth (fields : list string) :
  List.NoDup fields ->
  forall (ret : record) (vs : list value) (i : nat),
    (i < length fields)%nat ->
    prop_get (decode_into ret fields vs) (nth i fields "")
    = nth i vs VUndefined.
Proof.
  induction 1 as [|f fields Hf Hnd IH]; intros ret vs i Hi; simpl in *;
    [lia|].
  destruct i as [|i].
  - rewrite decode_into_other; [|exact Hf].
    rewrite prop_get_set_same. now destruct vs.
  - rewrite IH; [|lia]. destruct vs; simpl; auto. now destruct i.
Qed.

Lemma decode_unfolded (model : Model) (error : StoreError)
    (fields : record) (index : Index) :
  err_fields error = Some fields ->
  names_an_index model fields index ->
  _getUniqueConstraintErrorFields model error
  = match prop_get fields (key_of (idx_name index)) with
    | VNum n => Some (decode_into [] (idx_fields index) [VNum n])
    | VStr s =>
        Some (decode_into [] (idx_fields index)
                          (map VStr (split_on "-"%char s)))
    | _ => None
    end.
Proof.
  intros Hf [Ha Hi]. unfold _getUniqueConstraintErrorFields.
  rewrite Hf, Ha, Hi.
  destruct (prop_get fields (key_of (idx_name index))) as [| | | |s|];
    try reflexivity.
  unfold switchByType. simpl.
  pose proof (split_on_nonempty "-"%char s) as Hs.
  destruct (split_on "-"%char s); [congruence | reflexivity].
Qed.

(** X4. When the reported names are not attributes and name a unique
    index, the value reported under the index name is decoded by
    position over the index's (distinct) fields: a string is cut at
    every ["-"], giving one part more than it has dashes, and field
    [i] receives part [i]; a number goes to the first field.  Fields
    beyond the parts are set to undefined, parts beyond the fields are
    dropped. *)
Theorem violation_decodes_by_position (model : Model) (error : StoreError)
    (fields : record) (index : Index)
    (Hf : err_fields error = Some fields)
    (Hn : names_an_index model fields index)
    (Hd : List.NoDup (idx_fields index)) :
  (forall s : string,
     prop_get fields (key_of (idx_name index)) = VStr s ->
     exists ret : record,
       _getUniqueConstraintErrorFields model error = Some ret /\
       length (split_on "-"%char s) = S (occurrences "-"%char s) /\
       forall i : nat,
         (i < length (idx_fields index))%nat ->
         prop_get ret (nth i (idx_fields index) "")
         = nth i (map VStr (split_on "-"%char s)) VUndefined) /\
  (forall n : Z,
     prop_get fields (key_of (idx_name index)) = VNum n ->
     exists ret : record,
       _getUniqueConstraintErrorFields model error = Some ret /\
       forall i : nat,
         (i < length (idx_fields index))%nat ->
         prop_get ret (nth i (idx_fields index) "")
         = nth i [VNum n] VUndefined).
Proof.
  pose proof (decode_unfolded model error fields index Hf Hn) as E.
  split.
  - intros s Hs. rewrite Hs in E. eexists. split; [exact E|].
    split; [apply length_split_on|].
    intros i Hi. now apply decode_into_nth.
  - intros n Hv. rewrite Hv in E. eexists. split; [exact E|].
    intros i Hi. now apply decode_into_nth.
Qed.

Lemma seat_fields_distinct : List.NoDup ["hall"; "number"].
Proof.
  constructor.
  - intros [H|[]]. discriminate.
  - constructor; [intros [] | constructor].
Qed.

Lemma violation_decodes_by_position_witness :
  exists ret : record,
    _getUniqueConstraintErrorFields seat_model (seat_violation (VStr "north-12"))
    = Some ret /\
    length (split_on "-"%char "north-12") = 2%nat /\
    forall i : nat,
      (i < 2)%nat ->
      prop_get ret (nth i ["hall"; "number"] "")
      = nth i [VStr "north"; VStr "12"] VUndefined.
Proof.
  exact (proj1
    (violation_decodes_by_position seat_model (seat_violation (VStr "north-12"))
       [("seat_hall_number", VStr "north-12")] seat_index
       eq_refl (conj eq_refl eq_refl) seat_fields_distinct)
    "north-12" eq_refl).
Defined.

(** X5. Round trip of a composite value: when the store reports, under
    the name of a unique index, the index's column values joined by
    ["-"], one per field, and no value contains a dash, the decoding
    gives every field its own value back. *)
Theorem joined_value_round_trip (model : Model) (error : StoreError)
    (fields : record) (index : Index) (parts : list string)
    (Hf : err_fields error = Some fields)
    (Hn : names_an_index model fields index)
    (Hd : List.NoDup (idx_fields index))
    (Hv : prop_get fields (key_of (idx_name index))
          = VStr (join_with "-"%char parts))
    (Hl : length parts = length (idx_fields index))
    (Hfree : forallb (free_of "-"%char) parts = true) :
  exists ret : record,
    _getUniqueConstraintErrorFields model error = Some ret /\
    forall i : nat,
      (i < length parts)%nat ->
      prop_get ret (nth i (idx_fields index) "") = VStr (nth i parts "").
Proof.
  pose proof (decode_unfolded model error fields index Hf Hn) as Hr.
  rewrite Hv in Hr. eexists. split; [exact Hr|]. intros i Hi.
  rewrite decode_into_nth; [|exact Hd|lia].
  assert (Hne : parts <> []).
  { intros ->. destruct Hn as [_ Hfind]. apply find_some in Hfind as [_ Ht].
    rewrite Hv in Ht. discriminate. }
  rewrite split_on_join_with; auto.
  change VUndefined with (VStr "") at 1 || idtac.
  rewrite (nth_indep _ VUndefined (VStr "")); [|now rewrite length_map].
  apply map_nth.
Qed.

Lemma joined_value_round_trip_witness :
  exists ret : record,
    _getUniqueConstraintErrorFields seat_model (seat_violation (VStr "north-12"))
    = Some ret /\
    forall i : nat,
      (i < 2)%nat ->
      prop_get ret (nth i ["hall"; "number"] "") = VStr (nth i ["north"; "12"] "").
Proof.
  exact (joined_value_round_trip seat_model (seat_violation (VStr "north-12"))
           [("seat_hall_number", VStr "north-12")] seat_index ["north"; "12"]
           eq_refl (conj eq_refl eq_refl) seat_fields_distinct
           eq_refl eq_refl eq_refl).
Defined.

(** X6. The translator decodes nothing in exactly these cases: the
    error carries no fields; or the reported names are not all
    attributes and either no unique index has a truthy value reported
    under its name (so a composite value of [0] or [""] is never
    decoded) or that value is neither a number nor a string. *)
Theorem undecodable_violations (model : Model) (error : StoreError) :
  _getUniqueConstraintErrorFields model error = None <->
  match err_fields error with
  | None => True
  | Some fields =>
      forallb (fun key => is_some (attribute (attributes model) key))
              (keys fields) = false /\
      match List.find
              (fun index => truthy (prop_get fields (key_of (idx_name index))))
              (_getUniqueIndexes model) with
      | None => True
      | Some index =>
          match prop_get fields (key_of (idx_name index)) with
          | VNum _ | VStr _ => False
          | _ => True
          end
      end
  end.
Proof.
  unfold _getUniqueConstraintErrorFields.
  destruct (err_fields error) as [fields|]; [|tauto].
  destruct (forallb _ (keys fields)); [split; [discriminate | intros []; discriminate]|].
  destruct (List.find _ (_getUniqueIndexes model)) as [index|]; [|tauto].
  destruct (prop_get fields (key_of (idx_name index))) as [| | | |s|];
    unfold switchByType; simpl; try tauto.
  - split; [discriminate | tauto].
  - pose proof (split_on_nonempty "-"%char s) as Hs.
    destruct (split_on "-"%char s); [congruence|].
    split; [discriminate | tauto].
Qed.

(** ** Soft-delete reconciler: stamping *)

Lemma prop_set_twice (r : record) (k : string) (v : value) :
  prop_set (prop_set r k v) k v = prop_set r k v.
Proof.
  induction r as [|[k' v'] r IH]; simpl.
  - now rewrite String.eqb_refl.
  - destruct (String.eqb k k') eqn:E; simpl; rewrite E; [reflexivity|].
    now rewrite IH.
Qed.

Lemma stamped_cases (model : Model) (r r' : record) :
  stamped model r r' ->
  (negb (paranoid (options model))
   || negb (truthy_name (deletedAt (options model))) = true /\ r' = r) \/
  (negb (paranoid (options model))
   || negb (truthy_name (deletedAt (options model))) = false /\
   exists a : Attribute,
     attribute (attributes model) (key_of (deletedAt (options model))) = Some a /\
     r' = prop_set r (key_of (deletedAt (options model))) (sentinel_of a)).
Proof.
  unfold stamped, setDefaultDeletedValue.
  destruct (negb (paranoid (options model))
            || negb (truthy_name (deletedAt (options model)))).
  - intros [= <-]. now left.
  - destruct (attribute (attributes model) (key_of (deletedAt (options model))))
      as [a|]; [|discriminate].
    unfold switchByType. simpl. intros [= <-]. right. split; [reflexivity|].
    exists a. split; [reflexivity|]. unfold sentinel_of.
    now destruct (defaultValue a).
Qed.

(** X7. Stamping a record is idempotent, and it changes no field other
    than the soft-delete column. *)
Theorem stamping_is_idempotent (model : Model) (r r' : record)
    (H : stamped model r r') :
  stamped model r' r' /\
  forall k : string,
    k <> key_of (deletedAt (options model)) ->
    prop_get r' k = prop_get r k.
Proof.
  destruct (stamped_cases model r r' H) as [[Hg ->]|[Hg (a & Ha & ->)]].
  - split; [exact H | reflexivity].
  - split.
    + unfold stamped, setDefaultDeletedValue. rewrite Hg, Ha.
      unfold switchByType. simpl. do 2 f_equal.
      replace (if strict_eq (defaultValue a) VUndefined then VNull
               else defaultValue a) with (sentinel_of a)
        by (unfold sentinel_of; now destruct (defaultValue a)).
      apply prop_set_twice.
    + intros k Hk. apply prop_get_set_other. congruence.
Qed.

Lemma stamping_is_idempotent_witness :
  stamped paranoid_user
    [("email", VStr "a@x.com"); ("deletedAt", VNull)]
    [("email", VStr "a@x.com"); ("deletedAt", VNull)] /\
  forall k : string,
    k <> "deletedAt" ->
    prop_get [("email", VStr "a@x.com"); ("deletedAt", VNull)] k
    = prop_get [("email", VStr "a@x.com"); ("deletedAt", VNum 5)] k.
Proof.
  exact (stamping_is_idempotent paranoid_user
           [("email", VStr "a@x.com"); ("deletedAt", VNum 5)]
           [("email", VStr "a@x.com"); ("deletedAt", VNull)] eq_refl).
Defined.

(** X8. A batch is stamped record by record: the stamped batch has the
    records of the batch in order, each one stamped as it would be
    alone. *)
Theorem batch_is_stamped_record_by_record (model : Model)
    (rs : list record) (b' : body)
    (H : setDefaultDeletedValue model (BArray rs) = Ok b') :
  exists rs' : list record,
    b' = BArray rs' /\ Forall2 (stamped model) rs rs'.
Proof.
  unfold setDefaultDeletedValue in H. unfold stamped, setDefaultDeletedValue.
  destruct (negb (paranoid (options model))
            || negb (truthy_name (deletedAt (options model)))).
  - injection H as <-. exists rs. split; [reflexivity|].
    induction rs; constructor; auto.
  - destruct (attribute (attributes model) (key_of (deletedAt (options model))))
      as [a|]; [|discriminate].
    unfold switchByType in *. simpl in *. injection H as <-.
    eexists. split; [reflexivity|].
    induction rs; simpl; constructor; auto.
Qed.

Lemma batch_is_stamped_record_by_record_witness :
  exists rs' : list record,
    BArray [ [("email", VStr "a@x.com"); ("deletedAt", VNull)] ] = BArray rs' /\
    Forall2 (stamped paranoid_user) [ [("email", VStr "a@x.com")] ] rs'.
Proof.
  exact (batch_is_stamped_record_by_record paranoid_user
           [ [("email", VStr "a@x.com")] ]
           (BArray [ [("email", VStr "a@x.com"); ("deletedAt", VNull)] ])
           eq_refl).
Defined.

(** X9. A record that has just been stamped is not taken for a
    deleted row, whatever marker it carried before, provided the
    declared default compares equal to itself: the comparison of
    [isDeleted] is then between the default and itself.  (A default
    that is [NaN] or an invalid date does not compare equal to itself;
    the values of this development have neither.) *)
Theorem stamped_record_is_not_deleted (model : Model) (r r' : record)
    (H : stamped model r r')
    (Hself : match attribute (attributes model)
                     (key_of (deletedAt (options model))) with
             | Some a => sentinel_equal (sentinel_of a) (sentinel_of a) = true
             | None => True
             end) :
  isDeleted model (Some r') = Ok false.
Proof.
  destruct (stamped_cases model r r' H) as [[Hg ->]|[Hg (a & Ha & ->)]];
    unfold isDeleted; rewrite Hg; [reflexivity|].
  rewrite Ha in Hself |- *. rewrite prop_get_set_same.
  replace (if strict_eq (defaultValue a) VUndefined then VNull
           else defaultValue a) with (sentinel_of a)
    by (unfold sentinel_of; now destruct (defaultValue a)).
  destruct (sentinel_of a) eqn:E; simpl in Hself |- *;
    try reflexivity; now rewrite Hself.
Qed.

Lemma stamped_record_is_not_deleted_witness :
  isDeleted epoch_user
    (Some [("email", VStr "a@x.com"); ("deletedAt", VDate 1 0)])
  = Ok false.
Proof.
  exact (stamped_record_is_not_deleted epoch_user
           [("email", VStr "a@x.com"); ("deletedAt", VDate 9 500)]
           [("email", VStr "a@x.com"); ("deletedAt", VDate 1 0)]
           eq_refl eq_refl).
Defined.

(** ** Batch homogeneity, the other way round *)

Lemma ascii_compare_trans (x y z : ascii) :
  Ascii.compare x y <> Gt -> Ascii.compare y z <> Gt ->
  Ascii.compare x z <> Gt /\
  (Ascii.compare x z = Eq ->
   Ascii.compare x y = Eq /\ Ascii.compare y z = Eq).
Proof.
  unfold Ascii.compare.
  destruct (N.compare_spec (N_of_ascii x) (N_of_ascii y)),
           (N.compare_spec (N_of_ascii y) (N_of_ascii z)),
           (N.compare_spec (N_of_ascii x) (N_of_ascii z));
    intros; split; try congruence; try lia; intros; try discriminate;
    try (split; congruence).
Qed.

Lemma string_compare_trans (a : string) :
  forall b c : string,
    String.compare a b <> Gt -> String.compare b c <> Gt ->
    String.compare a c <> Gt.
Proof.
  induction a as [|x a IH]; intros [|y b] [|z c]; simpl; try congruence.
  intros Hab Hbc.
  destruct (Ascii.compare x y) eqn:Exy; try congruence;
    destruct (Ascii.compare y z) eqn:Eyz; try congruence;
    destruct (ascii_compare_trans x y z) as [Hn He];
    try (rewrite Exy; discriminate); try (rewrite Eyz; discriminate);
    destruct (Ascii.compare x z) eqn:Exz; try congruence;
    try (destruct (He eq_refl); congruence).
  now apply (IH b c).
Qed.

Lemma string_leb_trans (a b c : string) :
  String.leb a b = true -> String.leb b c = true -> String.leb a c = true.
Proof.
  unfold String.leb. intros Hab Hbc.
  pose proof (string_compare_trans a b c) as H.
  destruct (String.compare a b); try discriminate;
    destruct (String.compare b c); try discriminate;
    destruct (String.compare a c); auto;
    exfalso; apply H; congruence.
Qed.

Lemma insert_sorted_comm (x y : string) (s : list string) :
  insert_sorted x (insert_sorted y s) = insert_sorted y (insert_sorted x s).
Proof.
  induction s as [|z s IH]; simpl.
  - destruct (String.leb x y) eqn:Exy, (String.leb y x) eqn:Eyx; auto.
    + now rewrite (String.leb_antisym x y Exy Eyx).
    + destruct (String.leb_total x y); congruence.
  - destruct (String.leb y z) eqn:Eyz, (String.leb x z) eqn:Exz; simpl.
    + destruct (String.leb x y) eqn:Exy, (String.leb y x) eqn:Eyx;
        rewrite ?Exz, ?Eyz; auto.
      * now rewrite (String.leb_antisym x y Exy Eyx).
      * destruct (String.leb_total x y); congruence.
    + destruct (String.leb x y) eqn:Exy.
      * rewrite (string_leb_trans x y z Exy Eyz) in Exz. discriminate.
      * now rewrite Exz, Eyz.
    + destruct (String.leb y x) eqn:Eyx.
      * rewrite (string_leb_trans y x z Eyx Exz) in Eyz. discriminate.
      * now rewrite Exz, Eyz.
    + now rewrite Exz, Eyz, IH.
Qed.

Lemma sort_strings_perm (l l' : list string) :
  Permutation l l' -> sort_strings l = sort_strings l'.
Proof.
  induction 1; simpl; auto.
  - now rewrite IHPermutation.
  - apply insert_sorted_comm.
  - congruence.
Qed.

Lemma strings_eqb_refl (l : list string) : strings_eqb l l = true.
Proof.
  induction l as [|x l IH]; simpl; auto. now rewrite String.eqb_refl.
Qed.

Lemma homogeneous_batch_valid (first : record) (data : list record) :
  In first data ->
  (forall r, In r data -> List.NoDup (keys r)) ->
  homogeneous data ->
  forallb (fun item => strings_eqb item (sort_strings (keys first)))
          (map (fun row => sort_strings (keys row)) data) = true.
Proof.
  intros Hf Hnd Hh. apply forallb_forall. intros item Hi.
  apply in_map_iff in Hi as (r & <- & Hr).
  rewrite (sort_strings_perm (keys r) (keys first)).
  - apply strings_eqb_refl.
  - apply Stdlib.Sorting.Permutation.NoDup_Permutation; auto.
    apply (Hh r first); auto.
Qed.

(** ** Write orchestrator: upsert and update *)

(** X10. A rejected native upsert is terminal: a uniqueness violation
    becomes 409, any other error is rethrown wrapped, and the upsert is
    the only store call made. *)
Theorem upsert_rejection_is_terminal {Store : Type} (db : Sequelize Store)
    (model : Model) (data identity : record) (s s' : Store)
    (log : list StoreCall) (e : StoreError)
    (Hid : _getInstanceValidIndexFields (_getUniqueIndexes model) data
           = Some identity)
    (Hrej : db_upsert db s data = (s', Rejected e)) :
  _upsert db model data (s, log)
  = ((s', (log ++ [CallUpsert data])%list),
     if is_unique_violation e
     then HttpError 409 (unique_constraint_message model)
     else WrappedError e).
Proof.
  unfold _upsert, try_unique, bind, model_upsert, write_call.
  rewrite Hid. simpl. rewrite Hrej. simpl.
  destruct (is_unique_violation e); reflexivity.
Qed.

Lemma upsert_rejection_is_terminal_witness :
  _upsert (rejecting email_violation) user_model
    [("email", VStr "a@x.com")] (tt, [])
  = ((tt, [CallUpsert [("email", VStr "a@x.com")]]),
     HttpError 409 "RestQL: user unique constraint error").
Proof.
  exact (upsert_rejection_is_terminal (rejecting email_violation) user_model
           [("email", VStr "a@x.com")] [("email", VStr "a@x.com")]
           tt tt [] email_violation eq_refl eq_refl).
Defined.

Lemma writes_app (l l' : list StoreCall) :
  writes (l ++ l') = (writes l ++ writes l')%list.
Proof. unfold writes. apply List.filter_app. Qed.

(** X11. [_update] issues exactly one mutating call, the update of the
    patch without its truthy [id], whatever the store answers: a
    uniqueness violation (of the update or of the re-fetch) ends in
    409 and is never retried, any other rejection is rethrown wrapped,
    and otherwise the rows re-fetched with the same options are
    returned. *)
Theorem update_makes_one_write {Store : Type} (db : Sequelize Store)
    (model : Model) (data : record) (options : QueryOptions)
    (s : Store) (log : list StoreCall) :
  let data' :=
    if truthy (prop_get data "id") then prop_delete data "id" else data in
  let r := _update db model data options (s, log) in
  let thrown (e : StoreError) : outcome (list record) :=
    if is_unique_violation e
    then HttpError 409 (unique_constraint_message model)
    else WrappedError e in
  writes (log_of r) = (writes log ++ [CallUpdate data' options])%list /\
  snd r = match db_update db s data' options with
          | (_, Rejected e) => thrown e
          | (s', Resolved _) =>
              match db_findAll db s' options with
              | Resolved rows => Ok rows
              | Rejected e => thrown e
              end
          end.
Proof.
  cbv zeta. unfold _update, try_unique, bind, model_update, write_call,
    model_findAll, read_call, log_of. cbv zeta.
  destruct (db_update db s _ options) as [s' [[]|e]]; simpl.
  - destruct (db_findAll db s' options) as [rows|e]; simpl.
    + rewrite !writes_app. simpl. now rewrite app_nil_r.
    + destruct (is_unique_violation e); simpl.
      * rewrite handler_always_throws. simpl.
        rewrite !writes_app. simpl. now rewrite app_nil_r.
      * rewrite !writes_app. simpl. now rewrite app_nil_r.
  - destruct (is_unique_violation e); simpl.
    + rewrite handler_always_throws. simpl. now rewrite writes_app.
    + now rewrite writes_app.
Qed.

Lemma isDeleted_without_soft_delete (model : Model) (row : option record) :
  negb (paranoid (options model))
  || negb (truthy_name (deletedAt (options model))) = true ->
  isDeleted model row = Ok false.
Proof. intros H. unfold isDeleted. now rewrite H. Qed.

(** X12. On a model without soft delete, [_upsert] never restores a
    row, whatever the store answers. *)
Theorem upsert_never_restores_without_soft_delete {Store : Type}
    (db : Sequelize Store) (model : Model) (data : record) (w : world Store)
    (H : negb (paranoid (options model))
         || negb (truthy_name (deletedAt (options model))) = true) :
  List.filter is_restore (log_of (_upsert db model data w))
  = List.filter is_restore (snd w).
Proof.
  destruct w as [s log].
  unfold _upsert, try_unique, await, bind, model_upsert, write_call,
    model_find, read_call, lift, ret, log_of. cbv zeta.
  destruct (_getInstanceValidIndexFields (_getUniqueIndexes model) data)
    as [identity|]; simpl; [|reflexivity].
  destruct (db_upsert db s data) as [s1 [created|e]]; simpl.
  - destruct (db_find db s1 (query_where (Some identity))) as [[row|]|e];
      simpl; rewrite ?List.filter_app; simpl; rewrite ?app_nil_r; auto.
    + rewrite (isDeleted_without_soft_delete model (Some row) H). simpl.
      rewrite !List.filter_app. simpl. now rewrite !app_nil_r.
    + destruct (db_find db s1 _) as [row|e]; simpl.
      * rewrite (isDeleted_without_soft_delete model row H). simpl.
        rewrite !List.filter_app. simpl. now rewrite !app_nil_r.
      * rewrite !List.filter_app. simpl. now rewrite !app_nil_r.
  - destruct (is_unique_violation e); simpl;
      rewrite List.filter_app; simpl; now rewrite app_nil_r.
Qed.

Lemma upsert_never_restores_without_soft_delete_witness :
  List.filter is_restore
    (log_of (_upsert user_db user_model [("email", VStr "a@x.com")]
               (start [stored_ann])))
  = List.filter is_restore [].
Proof.
  exact (upsert_never_restores_without_soft_delete user_db user_model
           [("email", VStr "a@x.com")] (start [stored_ann]) eq_refl).
Defined.

(** X13. The restore path of [_upsert]: after a resolved native upsert,
    when the plain lookup by the identity misses, the lookup that
    includes deleted rows finds a row and that row is soft-deleted,
    the row is restored; these four calls, in this order, are all the
    calls made, and the store's [created] flag is returned. *)
Theorem upsert_restores_soft_deleted_row {Store : Type} (db : Sequelize Store)
    (model : Model) (data identity row : record) (created : bool)
    (s s1 s2 : Store) (log : list StoreCall)
    (Hid : _getInstanceValidIndexFields (_getUniqueIndexes model) data
           = Some identity)
    (Hup : db_upsert db s data = (s1, Resolved created))
    (Hmiss : db_find db s1 (query_where (Some identity)) = Resolved None)
    (Hhit : db_find db s1 (find_deleted_too (Some identity))
            = Resolved (Some row))
    (Hdel : isDeleted model (Some row) = Ok true)
    (Hres : db_restore db s1 row = (s2, Resolved tt)) :
  exists found : option record,
    _upsert db model data (s, log)
    = ((s2, (log ++ [ CallUpsert data;
                      CallFind (query_where (Some identity));
                      CallFind (find_deleted_too (Some identity));
                      CallRestore row ])%list),
       Ok (created, found)).
Proof.
  exists (Some row).
  unfold _upsert, try_unique, await, bind, model_upsert, write_call,
    model_find, read_call, row_restore, lift, ret. cbv zeta.
  rewrite Hid. simpl. rewrite Hup. simpl. rewrite Hmiss. simpl.
  unfold find_deleted_too in Hhit. rewrite Hhit. simpl.
  rewrite Hdel. simpl. rewrite Hres. simpl.
  now rewrite <- !app_assoc.
Qed.

(** X14. On a model with soft delete, when neither lookup finds the
    row after a resolved native upsert, [_upsert] ends in a TypeError
    (it restores [null]): the upsert has been made and three calls are
    logged. *)
Theorem upsert_refetch_miss_throws {Store : Type} (db : Sequelize Store)
    (model : Model) (data identity : record) (created : bool)
    (s s1 : Store) (log : list StoreCall)
    (Hsd : negb (paranoid (options model))
           || negb (truthy_name (deletedAt (options model))) = false)
    (Hid : _getInstanceValidIndexFields (_getUniqueIndexes model) data
           = Some identity)
    (Hup : db_upsert db s data = (s1, Resolved created))
    (Hmiss : db_find db s1 (query_where (Some identity)) = Resolved None)
    (Hmiss' : db_find db s1 (find_deleted_too (Some identity))
              = Resolved None) :
  _upsert db model data (s, log)
  = ((s1, (log ++ [ CallUpsert data;
                    CallFind (query_where (Some identity));
                    CallFind (find_deleted_too (Some identity)) ])%list),
     TypeError).
Proof.
  unfold _upsert, try_unique, await, bind, model_upsert, write_call,
    model_find, read_call, row_restore, lift, ret. cbv zeta.
  rewrite Hid. simpl. rewrite Hup. simpl. rewrite Hmiss. simpl.
  unfold find_deleted_too in Hmiss'. rewrite Hmiss'. simpl.
  unfold isDeleted. rewrite Hsd. simpl.
  now rewrite <- !app_assoc.
Qed.

Lemma upsert_restores_soft_deleted_row_witness :
  exists found : option record,
    _upsert paranoid_db paranoid_user renamed_ann (start [deleted_ann])
    = (([ [ ("id", VNum 1); ("email", VStr "a@x.com"); ("name", VStr "Anna");
            ("deletedAt", VNull) ] ],
        ([] ++ [ CallUpsert renamed_ann;
                 CallFind (query_where (Some ann_identity));
                 CallFind (find_deleted_too (Some ann_identity));
                 CallRestore renamed_deleted_ann ])%list),
       Ok (false, found)).
Proof.
  exact (upsert_restores_soft_deleted_row paranoid_db paranoid_user
           renamed_ann ann_identity renamed_deleted_ann false
           [deleted_ann] [renamed_deleted_ann]
           [ [ ("id", VNum 1); ("email", VStr "a@x.com"); ("name", VStr "Anna");
               ("deletedAt", VNull) ] ]
           [] eq_refl eq_refl eq_refl eq_refl eq_refl eq_refl).
Defined.

Lemma upsert_refetch_miss_throws_witness :
  _upsert (blind paranoid_db) paranoid_user renamed_ann (start [deleted_ann])
  = (([renamed_deleted_ann],
      ([] ++ [ CallUpsert renamed_ann;
               CallFind (query_where (Some ann_identity));
               CallFind (find_deleted_too (Some ann_identity)) ])%list),
     TypeError).
Proof.
  exact (upsert_refetch_miss_throws (blind paranoid_db) paranoid_user
           renamed_ann ann_identity false [deleted_ann] [renamed_deleted_ann]
           [] eq_refl eq_refl eq_refl eq_refl eq_refl).
Defined.

(** ** Write orchestrator: create *)

(** X15. When the insert of [_create] is resolved, or rejected with
    an error that is no uniqueness violation, the insert is the only
    store call: the row the store made is returned, or the error is
    rethrown wrapped. *)
Theorem create_without_conflict {Store : Type} (db : Sequelize Store)
    (model : Model) (data : record) (options : option WriteOptions)
    (s s' : Store) (log : list StoreCall) (r : reply record)
    (H : db_create db s
           (if truthy (prop_get data "id") then prop_delete data "id" else data)
           options = (s', r))
    (Hnv : match r with
           | Rejected e => is_unique_violation e = false
           | Resolved _ => True
           end) :
  _create db model data options (s, log)
  = ((s', (log ++ [CallCreate
                     (if truthy (prop_get data "id")
                      then prop_delete data "id" else data) options])%list),
     match r with
     | Resolved row => Ok (Some row)
     | Rejected e => WrappedError e
     end).
Proof.
  unfold _create, try_unique, bind, model_create, write_call. cbv zeta.
  rewrite H. destruct r as [row|e]; simpl; [reflexivity|].
  now rewrite Hnv.
Qed.

Lemma create_without_conflict_witness :
  _create user_db user_model [("id", VNum 5); ("email", VStr "x@x.com")] None
    (start [])
  = (([ [("email", VStr "x@x.com"); ("id", VNum 1)] ],
      ([] ++ [CallCreate [("email", VStr "x@x.com")] None])%list),
     Ok (Some [("email", VStr "x@x.com"); ("id", VNum 1)])).
Proof.
  exact (create_without_conflict user_db user_model
           [("id", VNum 5); ("email", VStr "x@x.com")] None
           [] [ [("email", VStr "x@x.com"); ("id", VNum 1)] ] []
           (Resolved [("email", VStr "x@x.com"); ("id", VNum 1)])
           eq_refl I).
Defined.

(** ** Write orchestrator: the bulk operations *)

Lemma identities_map {Store : Type} (fail : M Store unit)
    (uniqueIndexes : list Index) (data ids : list record) (w : world Store) :
  map (_getInstanceValidIndexFields uniqueIndexes) data = map Some ids ->
  identities fail uniqueIndexes data w = (w, Ok ids).
Proof.
  revert ids. induction data as [|row rest IH]; intros [|i ids]; simpl;
    try discriminate; auto.
  intros [= Hi Hr]. rewrite Hi. unfold bind. now rewrite (IH ids Hr).
Qed.

Lemma identities_fail {Store : Type} (fail : M Store unit)
    (uniqueIndexes : list Index) (data : list record) (w : world Store)
    (o : outcome unit) :
  fail w = (w, o) -> (forall a, o <> Ok a) ->
  (exists row, In row data /\
               _getInstanceValidIndexFields uniqueIndexes row = None) ->
  identities fail uniqueIndexes data w = (w, raise o).
Proof.
  intros Hf Ho. induction data as [|row rest IH]; intros (r & Hin & Hn);
    [destruct Hin|]. simpl.
  destruct (_getInstanceValidIndexFields uniqueIndexes row) as [i|] eqn:E.
  - destruct Hin as [->|Hin]; [congruence|].
    unfold bind. rewrite IH; [|now exists r].
    destruct o; simpl; auto.
  - unfold bind. rewrite Hf. destruct o; simpl; auto. now contradiction (Ho a).
Qed.

Lemma identities_outcome {Store : Type} (message : string) (status : Z)
    (uniqueIndexes : list Index) (data : list record) (w : world Store) :
  (exists ids, identities (ctx_throw message status) uniqueIndexes data w
               = (w, Ok ids)) \/
  identities (ctx_throw message status) uniqueIndexes data w
  = (w, HttpError status message).
Proof.
  induction data as [|row rest IH]; simpl; [left; now exists []|].
  destruct (_getInstanceValidIndexFields uniqueIndexes row) as [i|];
    [|right; reflexivity].
  unfold bind. destruct IH as [[ids ->]| ->]; [left; now eexists | now right].
Qed.

(** X16. For records with distinct field names, [_bulkUpsert] throws
    its "different attributes" error exactly on the batches that are
    not homogeneous: a batch whose records all have the same set of
    field names, in whatever order, is never refused for its shape. *)
Theorem bulkUpsert_refuses_exactly_heterogeneous {Store : Type}
    (db : Sequelize Store) (model : Model) (data : list record)
    (w : world Store)
    (Hnd : forall r, In r data -> List.NoDup (keys r)) :
  snd (_bulkUpsert db model data w)
  = HttpError 400 "RestQL: array elements have different attributes"
  <-> ~ homogeneous data.
Proof.
  destruct data as [|first rest].
  - simpl. split; [discriminate|]. intros H. exfalso. apply H. intros a b [].
  - unfold _bulkUpsert. cbv zeta.
    match goal with
    | |- context [negb ?b] => destruct b eqn:E
    end; simpl negb; cbv iota.
    + split; [|intros H; exfalso; apply H;
               apply (valid_batch_homogeneous first); [now left | exact E]].
      intros H. exfalso. revert H.
      match goal with
      | |- context [bind (ret tt) ?k] =>
          change (bind (ret tt) k w) with (k tt w)
      end. cbv beta.
      unfold bind at 1.
      destruct (identities_outcome
                  "RestQL: unique index fields cannot be found" 400
                  (_getUniqueIndexes model) (first :: rest) w)
        as [[ids ->]| ->]; [|simpl; discriminate].
      unfold try_unique, await, bind, model_bulkCreate, write_call,
        model_findAll, read_call, ret.
      destruct w as [s log].
      destruct (db_bulkCreate db s (first :: rest) _) as [s1 [[]|e]]; simpl.
      * destruct (db_findAll db s1 _); simpl; discriminate.
      * destruct (is_unique_violation e); simpl; discriminate.
    + split; [|reflexivity]. intros _ Hh.
      rewrite (homogeneous_batch_valid first (first :: rest)) in E;
        [discriminate | now left | exact Hnd | exact Hh].
Qed.

Lemma keys_distinct_one (k : string) (v : value) : List.NoDup (keys [(k, v)]).
Proof. constructor; [intros [] | constructor]. Qed.

Lemma bulkUpsert_refuses_exactly_heterogeneous_witness :
  snd (_bulkUpsert user_db user_model
         [ [("email", VStr "a@x.com")]; [("email", VStr "b@x.com")] ]
         (start []))
  = HttpError 400 "RestQL: array elements have different attributes"
  <-> ~ homogeneous [ [("email", VStr "a@x.com")]; [("email", VStr "b@x.com")] ].
Proof.
  apply (bulkUpsert_refuses_exactly_heterogeneous user_db user_model).
  intros r [<-|[<-|[]]]; apply keys_distinct_one.
Defined.

(** X17. The happy path of [_bulkUpsert]: for a non-empty homogeneous
    batch whose records all have an identity, when the store resolves
    the write and the re-fetch, exactly two calls are made: one bulk
    insert of the batch as received that updates, on a duplicate, the
    first record's fields other than [id], and one lookup by the union
    of the identities in ascending [id] order, whose rows are
    returned. *)
Theorem bulkUpsert_happy_path {Store : Type} (db : Sequelize Store)
    (model : Model) (first : record) (rest ids rows : list record)
    (s s1 : Store) (log : list StoreCall)
    (Hnd : forall r, In r (first :: rest) -> List.NoDup (keys r))
    (Hh : homogeneous (first :: rest))
    (Hid : map (_getInstanceValidIndexFields (_getUniqueIndexes model))
               (first :: rest) = map Some ids)
    (Hw : db_bulkCreate db s (first :: rest)
            (Some (only_updateOnDuplicate
                     (List.filter (fun key => negb (String.eqb key "id"))
                                  (keys first))))
          = (s1, Resolved tt))
    (Hr : db_findAll db s1
            {| q_where := WhereOr (map Some ids); q_paranoid_false := false;
               q_order_id_asc := true |} = Resolved rows) :
  _bulkUpsert db model (first :: rest) (s, log)
  = ((s1,
      (log ++
       [ CallBulkCreate (first :: rest)
           (Some (only_updateOnDuplicate
                    (List.filter (fun key => negb (String.eqb key "id"))
                                 (keys first))));
         CallFindAll
           {| q_where := WhereOr (map Some ids); q_paranoid_false := false;
              q_order_id_asc := true |} ])%list),
     Ok rows) /\
  ~ In "id" (List.filter (fun key => negb (String.eqb key "id")) (keys first)).
Proof.
  split.
  - unfold _bulkUpsert. cbv zeta.
    rewrite (homogeneous_batch_valid first (first :: rest));
      [|now left | exact Hnd | exact Hh].
    simpl negb. cbv iota.
    match goal with
    | |- context [bind (ret tt) ?k] =>
        change (bind (ret tt) k (s, log)) with (k tt (s, log))
    end. cbv beta.
    unfold bind at 1. rewrite (identities_map _ _ _ ids _ Hid).
    unfold try_unique, await, bind, model_bulkCreate, write_call,
      model_findAll, read_call, ret.
    rewrite Hw. simpl. rewrite Hr. simpl. now rewrite <- app_assoc.
  - intros Hin. apply filter_In in Hin as [_ Hn].
    now rewrite String.eqb_refl in Hn.
Qed.

Lemma two_users_homogeneous : homogeneous two_users.
Proof. intros a b [<-|[<-|[]]] [<-|[<-|[]]] k; simpl; tauto. Qed.

Lemma two_users_distinct_keys :
  forall r, In r two_users -> List.NoDup (keys r).
Proof. intros r [<-|[<-|[]]]; apply keys_distinct_one. Qed.

Lemma bulkUpsert_happy_path_witness :
  _bulkUpsert user_db user_model two_users ([], [])
  = ((two_stored_users,
      ([] ++
       [ CallBulkCreate two_users (Some (only_updateOnDuplicate ["email"]));
         CallFindAll (by_id_asc two_users) ])%list),
     Ok two_stored_users).
Proof.
  exact (proj1
    (bulkUpsert_happy_path user_db user_model
       [("email", VStr "a@x.com")] [ [("email", VStr "b@x.com")] ]
       two_users two_stored_users [] two_stored_users []
       two_users_distinct_keys two_users_homogeneous
       eq_refl eq_refl eq_refl)).
Defined.

(** X18. Both bulk operations compute every record's identity before
    they touch the store: when some record of the batch has no
    selectable identity, no store call is made.  [_bulkUpsert] (on a
    homogeneous batch) throws 400; [_bulkCreate] throws through its
    receiver, 400 when the receiver is the context and a TypeError
    when it is undefined. *)
Theorem bulk_operations_need_every_identity {Store : Type}
    (db : Sequelize Store)
    (Date_toString : Z -> string) (StringToNumber : string -> option Z)
    (model : Model) (data : list record) (w : world Store)
    (Hmiss : exists row, In row data /\
               _getInstanceValidIndexFields (_getUniqueIndexes model) row
               = None) :
  (forall (fuel : nat) (this : receiver) (options : option WriteOptions),
     _bulkCreate db Date_toString StringToNumber fuel this model data options w
     = (w, match this with
           | ThisContext =>
               HttpError 400 "RestQL: unique index fields cannot be found"
           | ThisUndefined => TypeError
           end)) /\
  ((forall r, In r data -> List.NoDup (keys r)) ->
   homogeneous data ->
   _bulkUpsert db model data w
   = (w, HttpError 400 "RestQL: unique index fields cannot be found")).
Proof.
  split.
  - intros fuel this options. unfold _bulkCreate. cbv zeta. unfold bind at 1.
    rewrite (identities_fail _ _ _ w
               (snd (this_throw (A := unit) this
                       "RestQL: unique index fields cannot be found" 400 w)));
      [now destruct this | now destruct this
      | destruct this; discriminate | exact Hmiss].
  - intros Hnd Hh. destruct data as [|first rest].
    { destruct Hmiss as (r & [] & _). }
    unfold _bulkUpsert. cbv zeta.
    rewrite (homogeneous_batch_valid first (first :: rest));
      [|now left | exact Hnd | exact Hh].
    simpl negb. cbv iota.
    match goal with
    | |- context [bind (ret tt) ?k] => change (bind (ret tt) k w) with (k tt w)
    end. cbv beta. unfold bind at 1.
    now rewrite (identities_fail _ _ _ w
                   (HttpError 400 "RestQL: unique index fields cannot be found")
                   eq_refl ltac:(discriminate) Hmiss).
Qed.

Lemma nameless_row_in_batch :
  exists row, In row [ [("email", VStr "a@x.com")]; [("name", VStr "A")] ] /\
    _getInstanceValidIndexFields (_getUniqueIndexes user_model) row = None.
Proof. exists [("name", VStr "A")]. split; [right; now left | reflexivity]. Qed.

Lemma bulk_operations_need_every_identity_witness :
  _bulkCreate user_db demo_Date_toString demo_StringToNumber 3 ThisUndefined
    user_model [ [("email", VStr "a@x.com")]; [("name", VStr "A")] ] None
    (start [])
  = (start [], TypeError).
Proof.
  exact (proj1
    (bulk_operations_need_every_identity user_db
       demo_Date_toString demo_StringToNumber user_model
       [ [("email", VStr "a@x.com")]; [("name", VStr "A")] ] (start [])
       nameless_row_in_batch) 3%nat ThisUndefined None).
Defined.

(** X19. The clean path of [_bulkCreate]: when every record has an
    identity and the store resolves the first insert, no record is
    treated as a conflict and no second write is made: the batch is
    inserted as received, with the caller's options, and the rows
    looked up by the union of the identities, in ascending [id]
    order, are returned. *)
Theorem bulkCreate_clean_insert {Store : Type} (db : Sequelize Store)
    (Date_toString : Z -> string) (StringToNumber : string -> option Z)
    (fuel : nat) (this : receiver) (model : Model)
    (data ids rows : list record) (options : option WriteOptions)
    (s s1 : Store) (log : list StoreCall)
    (Hid : map (_getInstanceValidIndexFields (_getUniqueIndexes model)) data
           = map Some ids)
    (Hw : db_bulkCreate db s data options = (s1, Resolved tt))
    (Hr : db_findAll db s1 (by_id_asc ids) = Resolved rows) :
  _bulkCreate db Date_toString StringToNumber (S fuel) this model data options
    (s, log)
  = ((s1, (log ++ [ CallBulkCreate data options;
                    CallFindAll (by_id_asc ids) ])%list),
     Ok rows).
Proof.
  unfold _bulkCreate. cbv zeta. unfold bind at 1.
  rewrite (identities_map _ _ _ ids _ Hid).
  simpl bulkCreate_loop.
  unfold bulkCreate_attempt, try_unique, await, bind, model_bulkCreate,
    write_call, model_findAll, read_call, ret.
  rewrite Hw. simpl. unfold by_id_asc in Hr. rewrite Hr. simpl.
  unfold by_id_asc. now rewrite <- app_assoc.
Qed.

Lemma bulkCreate_clean_insert_witness :
  _bulkCreate user_db demo_Date_toString demo_StringToNumber 1 ThisContext
    user_model two_users None ([], [])
  = ((two_stored_users,
      ([] ++ [ CallBulkCreate two_users None;
               CallFindAll (by_id_asc two_users) ])%list),
     Ok two_stored_users).
Proof.
  exact (bulkCreate_clean_insert user_db demo_Date_toString
           demo_StringToNumber 0 ThisContext user_model
           two_users two_users two_stored_users None
           [] two_stored_users [] eq_refl eq_refl eq_refl).
Defined.

(** X20. The retry loop loses no record and invents none: when it
    returns, every record of the batch it started with is either still
    in the batch that was finally inserted or was queued as exactly
    one conflict, and the conflicts queued before are still there, in
    front. *)
Theorem retry_loop_loses_no_record {Store : Type} (db : Sequelize Store)
    (Date_toString : Z -> string) (StringToNumber : string -> option Z)
    (resolve : Model -> StoreError -> option WriteOptions -> M Store Conflict)
    (model : Model) (options : option WriteOptions) (fuel : nat) :
  forall (data : list record) (conflicts : list Conflict) (w : world Store)
         (data' : list record) (conflicts' : list Conflict),
    snd (bulkCreate_loop db Date_toString StringToNumber resolve
           fuel model options data conflicts w) = Ok (data', conflicts') ->
    (length data' + length conflicts' = length data + length conflicts)%nat /\
    (forall r, In r data' -> In r data) /\
    exists more : list Conflict, conflicts' = (conflicts ++ more)%list.
Proof.
  induction fuel as [|fuel IH]; intros data conflicts w data' conflicts';
    simpl; [discriminate|].
  unfold bind.
  pose proof (attempt_cases db Date_toString StringToNumber resolve
                model options data conflicts w) as Hc.
  destruct (bulkCreate_attempt db Date_toString StringToNumber resolve
              model options data conflicts w) as [w1 o]. simpl in Hc.
  destruct o as [[|d1 c1]| | | | |]; simpl; try discriminate.
  - intros [= <- <-]. repeat split; auto. exists []. now rewrite app_nil_r.
  - intros H. destruct (IH d1 c1 w1 data' conflicts' H) as (Hl & Hi & more & Hm).
    destruct Hc as [Hc|[(index & conflict & Hlt & Hc)|[[e Hc]|[Hc|(e & w2 & Hc & _)]]]];
      try discriminate.
    + injection Hc as -> ->. split; [|split].
      * pose proof (length_splice1 index data Hlt).
        rewrite length_app in Hl. simpl in Hl. lia.
      * intros r Hr. eapply In_splice1. now apply Hi.
      * exists (conflict :: more). rewrite Hm. now rewrite <- app_assoc.
    + exfalso. destruct (snd (resolve model e None w2)); simpl in Hc;
        discriminate.
Qed.

Lemma retry_loop_loses_no_record_witness :
  (length [ [("email", VStr "b@x.com")] ]
   + length [ {| c_row := [("email", VStr "a@x.com"); ("name", VStr "Ann")];
                 c_fields := [("email", VStr "a@x.com")] |} ]
   = length [ [("email", VStr "a@x.com"); ("name", VStr "Ann")];
              [("email", VStr "b@x.com")] ] + length (@nil Conflict))%nat.
Proof.
  exact (proj1
    (retry_loop_loses_no_record user_db demo_Date_toString demo_StringToNumber
       decoding_resolver user_model None 3
       [ [("email", VStr "a@x.com"); ("name", VStr "Ann")];
         [("email", VStr "b@x.com")] ] [] (start [stored_ann])
       [ [("email", VStr "b@x.com")] ]
       [ {| c_row := [("email", VStr "a@x.com"); ("name", VStr "Ann")];
            c_fields := [("email", VStr "a@x.com")] |} ]
       eq_refl)).
Defined.

(** ** Existing-row partitioner: conservation *)

Lemma findIndex_throwing_bound {A : Type} (f : A -> outcome bool)
    (l : list A) (i : nat) :
  findIndex_throwing f l = Ok (Some i) -> (i < length l)%nat.
Proof.
  revert i. induction l as [|x l IH]; simpl; [discriminate|].
  intros i. destruct (f x) as [[|]| | | | |]; simpl; try discriminate.
  - intros [= <-]. lia.
  - destruct (findIndex_throwing f l) as [[j|]| | | | |]; try discriminate.
    intros [= <-]. specialize (IH j eq_refl). lia.
Qed.

Lemma classify_conserves (ors : list OrEntry) :
  forall (data ex new ex' new' : list record),
    classify ors data ex new = Ok (ex', new') ->
    (length ex' + length new' = length ex + length new + length ors)%nat /\
    (forall x, In x ex' -> In x ex \/ In x data) /\
    (forall x, In x new' ->
       In x new \/ exists o, In o ors /\ x = or_row o).
Proof.
  induction ors as [|o ors IH]; intros data ex new ex' new'; simpl.
  - intros [= <- <-]. repeat split; auto; lia.
  - destruct (findIndex_throwing (row_matches o) data)
      as [[index|]| | | | |] eqn:E; simpl; try discriminate.
    + intros H. apply findIndex_throwing_bound in E.
      destruct (IH _ _ _ _ _ H) as (Hl & He & Hn).
      rewrite length_app in Hl. simpl in Hl. split; [lia|]. split.
      * intros x Hx. destruct (He x Hx) as [Hx'|Hx'].
        -- apply in_app_or in Hx' as [Hx'|[<-|[]]]; auto.
           right. now apply nth_In.
        -- right. now apply In_splice1 in Hx'.
      * intros x Hx. destruct (Hn x Hx) as [Hx'|(o' & Ho' & ->)]; auto.
        right. exists o'. split; [now right | reflexivity].
    + intros H. destruct (IH _ _ _ _ _ H) as (Hl & He & Hn).
      rewrite length_app in Hl. simpl in Hl. split; [lia|]. split.
      * exact He.
      * intros x Hx. destruct (Hn x Hx) as [Hx'|(o' & Ho' & ->)].
        -- apply in_app_or in Hx' as [Hx'|[<-|[]]]; auto.
           right. exists o. split; [now left | reflexivity].
        -- right. exists o'. split; [now right | reflexivity].
Qed.

(** X21. Whatever the lookup returned, the partition accounts for
    every record exactly once: the existing rows and the new rows
    together are as many as the records; every existing row is one of
    the rows returned; every new row is one of the input records. *)
Theorem partition_accounts_for_every_record (ors : list OrEntry)
    (data existingRows newRows : list record)
    (H : partition_found ors data = Ok (existingRows, newRows)) :
  (length existingRows + length newRows = length ors)%nat /\
  (forall x, In x existingRows -> In x data) /\
  (forall x, In x newRows -> exists o, In o ors /\ x = or_row o).
Proof.
  unfold partition_found in H.
  destruct (Nat.eqb (length data) (length ors)) eqn:E.
  - injection H as <- <-. apply Nat.eqb_eq in E. simpl.
    split; [lia|]. split; [auto | intros x []].
  - destruct (classify_conserves ors data [] [] _ _ H) as (Hl & He & Hn).
    simpl in Hl. split; [lia|]. split.
    + intros x Hx. destruct (He x Hx) as [[]|]; auto.
    + intros x Hx. destruct (Hn x Hx) as [[]|]; auto.
Qed.

Lemma partition_accounts_for_every_record_witness :
  (length [storedRowForA] + length [ [("uniq", VStr "b")] ]
   = length (map (getOr (_getUniqueIndexes uniq_model))
                 [ [("uniq", VStr "a")]; [("uniq", VStr "b")] ]))%nat.
Proof.
  exact (proj1
    (partition_accounts_for_every_record
       (map (getOr (_getUniqueIndexes uniq_model))
            [ [("uniq", VStr "a")]; [("uniq", VStr "b")] ])
       [storedRowForA] [storedRowForA] [ [("uniq", VStr "b")] ] eq_refl)).
Defined.

(** ** Find-or-upsert handlers *)

(** X22. [findOrUpsert] on a record with an identity, when the lookup
    returns one row: that row is the answer, with status 200, and the
    lookup is the only store call; nothing is written. *)
Theorem findOrUpsert_found {Store : Type} (db : Sequelize Store)
    (model : Model) (r identity row : record)
    (s : Store) (log : list StoreCall)
    (Hid : _getInstanceValidIndexFields (_getUniqueIndexes model) r
           = Some identity)
    (Hfind : db_findAll db s (or_query [identity]) = Resolved [row]) :
  findOrUpsert db model (BObject r) (s, log)
  = ((s, (log ++ [CallFindAll (or_query [identity])])%list),
     Ok (Responded 200 (Some row))).
Proof.
  unfold findOrUpsert. cbv zeta. unfold bind.
  rewrite (findExistingRows_unfolded db model [r] [identity] [row] (s, log));
    [reflexivity | simpl; now rewrite Hid | exact Hfind].
Qed.

Lemma findOrUpsert_found_witness :
  findOrUpsert uniq_db uniq_model (BObject [("uniq", VStr "a")])
    ([storedRowForA], [])
  = (([storedRowForA],
      ([] ++ [CallFindAll (or_query [ [("uniq", VStr "a")] ])])%list),
     Ok (Responded 200 (Some storedRowForA))).
Proof.
  exact (findOrUpsert_found uniq_db uniq_model
           [("uniq", VStr "a")] [("uniq", VStr "a")] storedRowForA
           [storedRowForA] [] eq_refl eq_refl).
Defined.

(** X23. [findOrUpsert] on a record with an identity, when the lookup
    returns no row: the record goes to [_upsert], and the answer has
    status 201 whatever [created] flag the upsert reports. *)
Theorem findOrUpsert_not_found {Store : Type} (db : Sequelize Store)
    (model : Model) (r identity : record)
    (s : Store) (log : list StoreCall)
    (Hid : _getInstanceValidIndexFields (_getUniqueIndexes model) r
           = Some identity)
    (Hfind : db_findAll db s (or_query [identity]) = Resolved []) :
  findOrUpsert db model (BObject r) (s, log)
  = (ret_ <- _upsert db model r ;; ret (Responded 201 (snd ret_)))
      (s, (log ++ [CallFindAll (or_query [identity])])%list).
Proof.
  unfold findOrUpsert. cbv zeta. unfold bind at 1.
  rewrite (findExistingRows_unfolded db model [r] [identity] [] (s, log));
    [|simpl; now rewrite Hid | exact Hfind].
  change (partition_found (map (getOr (_getUniqueIndexes model)) [r]) [])
    with (Ok (@nil record, [r])).
  unfold lift. cbn [fst snd]. cbv iota beta. unfold bind.
  destruct (_upsert db model r
              (s, (log ++ [CallFindAll (or_query [identity])])%list))
    as [w1 [[created found]| | | | |]]; try reflexivity.
  simpl. now destruct created.
Qed.

Lemma findOrUpsert_not_found_witness :
  findOrUpsert uniq_db uniq_model (BObject [("uniq", VStr "b")])
    ([storedRowForA], [])
  = (ret_ <- _upsert uniq_db uniq_model [("uniq", VStr "b")] ;;
     ret (Responded 201 (snd ret_)))
      ([storedRowForA],
       ([] ++ [CallFindAll (or_query [ [("uniq", VStr "b")] ])])%list).
Proof.
  exact (findOrUpsert_not_found uniq_db uniq_model
           [("uniq", VStr "b")] [("uniq", VStr "b")]
           [storedRowForA] [] eq_refl eq_refl).
Defined.

(** X24. [bulkFindOrUpsert] on a batch of records that all have an
    identity, when the lookup returns as many rows as there are
    records: the rows returned are the answer, with status 200, and
    the lookup is the only store call; nothing is written. *)
Theorem bulkFindOrUpsert_all_found {Store : Type} (db : Sequelize Store)
    (model : Model) (records identities returned : list record)
    (s : Store) (log : list StoreCall)
    (Hid : map (_getInstanceValidIndexFields (_getUniqueIndexes model)) records
           = map Some identities)
    (Hfind : db_findAll db s (or_query identities) = Resolved returned)
    (Hlen : length returned = length records) :
  bulkFindOrUpsert db model (BArray records) (s, log)
  = ((s, (log ++ [CallFindAll (or_query identities)])%list),
     Ok (Responded 200 returned)).
Proof.
  unfold bulkFindOrUpsert. unfold bind at 1.
  rewrite (findExistingRows_unfolded db model records identities returned
             (s, log) Hid Hfind).
  unfold partition_found. rewrite length_map.
  apply Nat.eqb_eq in Hlen. rewrite Hlen. simpl.
  unfold bind, ret. simpl. now rewrite app_nil_r.
Qed.

Lemma bulkFindOrUpsert_all_found_witness :
  bulkFindOrUpsert uniq_db uniq_model (BArray [ [("uniq", VStr "a")] ])
    ([storedRowForA], [])
  = (([storedRowForA],
      ([] ++ [CallFindAll (or_query [ [("uniq", VStr "a")] ])])%list),
     Ok (Responded 200 [storedRowForA])).
Proof.
  exact (bulkFindOrUpsert_all_found uniq_db uniq_model
           [ [("uniq", VStr "a")] ] [ [("uniq", VStr "a")] ] [storedRowForA]
           [storedRowForA] [] eq_refl eq_refl eq_refl).
Defined.

(** ** What the rewriters return *)

Module PinFacts.
Import Rewriter Clone Frame CloneFacts StepFacts RunFacts.
Local Open Scope nat_scope.
Local Open Scope list_scope.

Lemma get_prop_Ok (v : jsval) (k : string) (h h' : heap) (x : jsval) :
  get_prop v k h = (h', Ok x) ->
  h' = h /\
  forall l, v = JRef l ->
    exists c, h !! l = Some c /\ x = pget (cell_props c) k.
Proof.
  unfold get_prop. destruct v as [| | | | |l]; try discriminate;
    try (intros [= <- <-]; split; [reflexivity|]; discriminate).
  destruct (h !! l) as [c|] eqn:E; [|discriminate].
  intros [= <- <-]. split; [reflexivity|].
  intros l' [= <-]. now exists c.
Qed.

Lemma get_prop_reads (v : jsval) (k : string) (h : heap) :
  fst (get_prop v k h) = h.
Proof.
  unfold get_prop. destruct v as [| | | | |l]; try reflexivity.
  now destruct (h !! l).
Qed.

Lemma set_prop_Ok (v : jsval) (k : string) (x : jsval) (h h' : heap)
    (u : unit) :
  set_prop v k x h = (h', Ok u) ->
  exists l c, v = JRef l /\ h !! l = Some c /\
    h' = <[l := with_props c (pset (cell_props c) k x)]> h.
Proof.
  unfold set_prop. destruct v as [| | | | |l]; try discriminate.
  destruct (h !! l) as [c|] eqn:E; [|discriminate].
  intros [= <- _]. now exists l, c.
Qed.

Lemma forM_set_prop_touches (lw : loc) (props : list (string * jsval)) :
  forall (h h' : heap) (u : unit),
    forM_ (fun kv => set_prop (JRef lw) (fst kv) (snd kv)) props h
    = (h', Ok u) ->
    (forall l, l <> lw -> h' !! l = h !! l) /\
    (is_Some (h !! lw) -> is_Some (h' !! lw)).
Proof.
  induction props as [|[k x] props IH]; simpl; intros h h' u H.
  - injection H as <- _. split; auto.
  - apply bind_Ok in H as (h1 & u1 & Hs & H).
    apply set_prop_Ok in Hs as (l & c & [= <-] & Hc & ->).
    apply IH in H as [Ho Hw]. split.
    + intros l Hl. rewrite Ho by exact Hl.
      apply list_lookup_insert_ne. congruence.
    + intros _. apply Hw. rewrite list_lookup_insert_eq; [eauto|].
      now apply lookup_lt_Some in Hc.
Qed.

Lemma assign_Ok (target source : jsval) (h h' : heap) (u : unit) :
  assign_ target source h = (h', Ok u) ->
  forall lw, target = JRef lw ->
    (forall l, l <> lw -> h' !! l = h !! l) /\
    (is_Some (h !! lw) -> is_Some (h' !! lw)).
Proof.
  unfold assign_. intros H lw ->.
  destruct source as [| | | | |ls];
    try (injection H as <- _; split; auto).
  destruct (h !! ls) as [c|]; [|discriminate].
  now apply forM_set_prop_touches in H.
Qed.

Lemma bind_reads {A B : Type} (m : ST heap A) (k : A -> ST heap B)
    (h : heap) :
  fst (m h) = h -> (forall a, fst (k a h) = h) -> fst (bind m k h) = h.
Proof.
  unfold bind. intros Hm Hk.
  destruct (m h) as [h1 [a| | | | |]]; simpl in *; subst; auto.
Qed.

Lemma some_reads (f : jsval -> ST heap bool) (l : list jsval) :
  (forall x h, fst (f x h) = h) ->
  forall h, fst (some_ f l h) = h.
Proof.
  intros Hf. induction l as [|x l IH]; intros h; simpl; [reflexivity|].
  apply bind_reads; [apply Hf|]. intros [|]; [reflexivity | apply IH].
Qed.

Lemma hasPluralAssociation_reads (include : jsval) (h : heap) :
  fst (hasPluralAssociation include h) = h.
Proof.
  unfold hasPluralAssociation.
  destruct (negb (jtruthy include)); [reflexivity|].
  destruct include as [| | | | |l]; try reflexivity.
  destruct (h !! l) as [[props|elems props]|]; try reflexivity.
  apply some_reads. intros x h0.
  apply bind_reads; [apply get_prop_reads|]. intros a.
  destruct (jtruthy a); [|reflexivity].
  apply bind_reads; [apply get_prop_reads | reflexivity].
Qed.


Lemma alloc_Ok (c : cell) (h h' : heap) (v : jsval) :
  alloc c h = (h', Ok v) -> h' = h ++ [c] /\ v = JRef (length h).
Proof. unfold alloc. now intros [= <- <-]. Qed.

Lemma clone_Ok (v : jsval) (h h' : heap) (x : jsval) :
  clone v h = (h', Ok x) ->
  (forall l, v = JRef l ->
     exists c, h !! l = Some c /\ h' = h ++ [c] /\ x = JRef (length h)) /\
  ((forall l, v <> JRef l) -> h' = h /\ x = v).
Proof.
  unfold clone. destruct v as [| | | | |l];
    try (intros [= <- <-]; split; [discriminate | auto]).
  destruct (h !! l) as [c|] eqn:E; [|discriminate].
  intros H. apply alloc_Ok in H as [-> ->]. split.
  - intros l' [= <-]. now exists c.
  - intros Hn. now destruct (Hn l).
Qed.

(** The query that [cloneDeep] returns: the copy of the base query, in
    a cell made by the copying. *)
Lemma cloneDeep_query (fuel : nat) (q : jsval) (h h1 : heap) (lq' : loc) :
  cloneDeep fuel q h = (h1, Ok (JRef lq')) ->
  exists (m : memo) (lq : loc) (c : cell),
    q = JRef lq /\ h !! lq = Some c /\ stack_get m lq = Some lq' /\
    injective m /\
    (forall k k', stack_get m k = Some k' -> length h <= k' < length h1) /\
    h1 !! lq' = Some (copy_cell m c) /\
    Forall (mapped m) (children c).
Proof.
  intros Hc.
  destruct (cloneDeep_walked fuel q (JRef lq') h h1 Hc)
    as (m & Hw & Hv & Hm & Hr).
  destruct q as [| | | | |lq]; try discriminate.
  destruct (Hr lq eq_refl) as [c Hq]. destruct Hm as [l Hl].
  simpl in Hv. rewrite Hl in Hv. injection Hv as ->.
  destruct Hw as ((_ & _ & Hrange & Hinj) & _ & _ & _ & Hnew).
  destruct (Hnew lq l Hl eq_refl) as (_ & c' & Hc0 & Hc' & Hmc).
  rewrite Hq in Hc0. specialize (Hc0 ltac:(now apply lookup_lt_Some in Hq)).
  injection Hc0 as <-.
  exists m, lq, c. repeat (split; [first [reflexivity | assumption]|]).
  exact Hmc.
Qed.

(** The copy's where-clause is not the copy itself, unless the base
    query is its own where-clause. *)
Lemma copy_where_is_not_query (m : memo) (h : heap) (lq lq' lw : loc)
    (c : cell) :
  h !! lq = Some c -> stack_get m lq = Some lq' -> injective m ->
  Forall (mapped m) (children c) ->
  own_where h (JRef lq) = false ->
  pget (cell_props (copy_cell m c)) "where" = JRef lw -> lw <> lq'.
Proof.
  intros Hq Hlq Hinj Hmc Hown Hw ->.
  destruct (copy_holds_copies m c "where" lq' Hmc
              ltac:(discriminate) ltac:(discriminate) Hw)
    as (props & lo & -> & Hlo & Hlo').
  pose proof (Hinj _ _ _ Hlo' Hlq) as ->.
  simpl in Hown. rewrite Hq, Hlo, Nat.eqb_refl in Hown. discriminate.
Qed.

End PinFacts.

(** X25. The foreign key wins.  Whenever the hasMany rewriter returns a
    query for a base query that is not its own where-clause (cyclic or
    not), the query's [where] is an object whose foreign-key column
    holds the parent's id, whatever the client's where-clause and the
    association's scope said about that column. *)
Theorem hasMany_pins_the_foreign_key (fuel : nat)
    (association : Rewriter.Association) (q id v : Rewriter.jsval)
    (h h' : list Rewriter.cell)
    (Hown : Frame.own_where h q = false)
    (Hret : Rewriter.hasManyQueryGenerator fuel association q id h
            = (h', Ok v)) :
  where_field h' v (Rewriter.foreignKey association) = Some id.
Proof.
  unfold Rewriter.hasManyQueryGenerator in Hret.
  apply CloneFacts.bind_Ok in Hret as (h1 & query & Hc & Hret).
  apply CloneFacts.bind_Ok in Hret as (h2 & w0 & Hg & Hret).
  apply PinFacts.get_prop_Ok in Hg as [-> Hw0].
  apply CloneFacts.bind_Ok in Hret as (h3 & w & Hw & Hret).
  apply CloneFacts.bind_Ok in Hret as (h4 & u4 & Hs & Hret).
  apply PinFacts.set_prop_Ok in Hs as (lq' & c3 & -> & Hc3 & ->).
  destruct (Hw0 lq' eq_refl) as (c' & Hcq & ->). clear Hw0.
  destruct (PinFacts.cloneDeep_query _ _ _ _ _ Hc)
    as (m & lq & c & -> & Hq & Hlq & Hinj & Hrange & Hc' & Hmc).
  rewrite Hcq in Hc'. injection Hc' as ->.
  assert (Hlq3 : (lq' < length h3)%nat) by now apply lookup_lt_Some in Hc3.
  assert (Hwq : forall lw, w = Rewriter.JRef lw -> lw <> lq').
  { intros lw ->.
    destruct (Rewriter.jtruthy
                (Rewriter.pget (Rewriter.cell_props (Clone.copy_cell m c))
                   "where")).
    - injection Hw as _ Hw.
      exact (PinFacts.copy_where_is_not_query m h lq lq' lw c
               Hq Hlq Hinj Hmc Hown Hw).
    - unfold Rewriter.alloc in Hw. injection Hw as _ Hw.
      apply lookup_lt_Some in Hcq. lia. }
  set (c4 := Rewriter.with_props c3
               (Rewriter.pset (Rewriter.cell_props c3) "where" w)) in *.
  assert (H4 : <[lq' := c4]> h3 !! lq' = Some c4)
    by now apply list_lookup_insert_eq.
  assert (Hc4 : Rewriter.pget (Rewriter.cell_props c4) "where" = w).
  { unfold c4. rewrite StepFacts.cell_props_with_props.
    apply StepFacts.pget_pset_same. }
  clearbody c4. set (h4 := <[lq' := c4]> h3) in *. clearbody h4.
  clear Hc3 Hlq3 Hw Hcq Hc Hq Hlq Hinj Hrange Hmc Hown.
  apply CloneFacts.bind_Ok in Hret as (h5 & u5 & Hsc & Hret).
  assert (H5 : h5 !! lq' = Some c4).
  { destruct (Rewriter.jtruthy (Rewriter.scope association)).
    - apply CloneFacts.bind_Ok in Hsc as (h4' & w2 & Hg & Hsc).
      apply PinFacts.get_prop_Ok in Hg as [-> Hw2].
      destruct (Hw2 lq' eq_refl) as (c2 & Hc2 & ->).
      rewrite H4 in Hc2. injection Hc2 as <-. rewrite Hc4 in Hsc.
      destruct w as [| | | | |lw];
        try (unfold Rewriter.assign_ in Hsc; injection Hsc as <- _;
             exact H4).
      destruct (PinFacts.assign_Ok _ _ _ _ _ Hsc lw eq_refl) as [Ho _].
      rewrite Ho; [exact H4|]. intros E. now apply (Hwq lw eq_refl).
    - injection Hsc as <- _. exact H4. }
  clear Hsc H4.
  apply CloneFacts.bind_Ok in Hret as (h5' & w3 & Hg & Hret).
  apply PinFacts.get_prop_Ok in Hg as [-> Hw3].
  destruct (Hw3 lq' eq_refl) as (c5 & Hc5 & ->). clear Hw3.
  rewrite H5 in Hc5. injection Hc5 as <-. rewrite Hc4 in Hret.
  apply CloneFacts.bind_Ok in Hret as (h6 & u6 & Hs & Hret).
  apply PinFacts.set_prop_Ok in Hs as (lw & cw & -> & Hcw & ->).
  specialize (Hwq lw eq_refl).
  set (cw' := Rewriter.with_props cw
                (Rewriter.pset (Rewriter.cell_props cw)
                   (Rewriter.foreignKey association) id)) in *.
  assert (Hfk : Rewriter.pget (Rewriter.cell_props cw')
                  (Rewriter.foreignKey association) = id).
  { unfold cw'. rewrite StepFacts.cell_props_with_props.
    apply StepFacts.pget_pset_same. }
  assert (H6w : <[lw := cw']> h5 !! lw = Some cw').
  { apply list_lookup_insert_eq. now apply lookup_lt_Some in Hcw. }
  assert (H6q : <[lw := cw']> h5 !! lq' = Some c4).
  { rewrite list_lookup_insert_ne by exact Hwq. exact H5. }
  clearbody cw'. set (h6 := <[lw := cw']> h5) in *. clearbody h6.
  clear H5 Hcw.
  apply CloneFacts.bind_Ok in Hret as (h7 & include & Hg & Hret).
  apply PinFacts.get_prop_Ok in Hg as [-> _].
  apply CloneFacts.bind_Ok in Hret as (h8 & plural & Hp & Hret).
  pose proof (PinFacts.hasPluralAssociation_reads include h6) as Hr.
  rewrite Hp in Hr. simpl in Hr. subst h8. clear Hp.
  apply CloneFacts.bind_Ok in Hret as (h9 & u9 & Hd & Hret).
  injection Hret as <- <-.
  unfold where_field.
  destruct plural.
  - apply PinFacts.set_prop_Ok in Hd as (l & c9 & [= <-] & Hc9 & ->).
    rewrite H6q in Hc9. injection Hc9 as <-.
    rewrite list_lookup_insert_eq by now apply lookup_lt_Some in H6q.
    rewrite StepFacts.cell_props_with_props.
    rewrite StepFacts.pget_pset_other by discriminate. rewrite Hc4.
    rewrite list_lookup_insert_ne by congruence.
    now rewrite H6w, Hfk.
  - injection Hd as <- _. now rewrite H6q, Hc4, H6w, Hfk.
Qed.

Lemma hasMany_pins_the_foreign_key_witness :
  where_field
    (fst (Rewriter.hasManyQueryGenerator 7 tags_of_user
            (Rewriter.JRef 0) (Rewriter.JNum 7) caller_heap))
    (Rewriter.JRef 7) "user_id"
  = Some (Rewriter.JNum 7).
Proof.
  apply (hasMany_pins_the_foreign_key 7 tags_of_user
           (Rewriter.JRef 0) (Rewriter.JNum 7) (Rewriter.JRef 7)
           caller_heap).
  - reflexivity.
  - vm_compute. reflexivity.
Defined.

(** On a base query that is its own where-clause the copy is its own
    where-clause too, and what is written to the query after the
    foreign key can overwrite it: here the mark [distinct]. *)
Example hasMany_own_where_loses_the_key :
  Frame.own_where looped_heap (Rewriter.JRef 0) = true /\
  snd (Rewriter.hasManyQueryGenerator 4 keyed_distinct
         (Rewriter.JRef 0) (Rewriter.JNum 7) looped_heap)
  = Ok (Rewriter.JRef 4) /\
  where_field
    (fst (Rewriter.hasManyQueryGenerator 4 keyed_distinct
            (Rewriter.JRef 0) (Rewriter.JNum 7) looped_heap))
    (Rewriter.JRef 4) "distinct"
  = Some (Rewriter.JBool true).
Proof. repeat split. Qed.

(** X26. The belongsToMany rewriter conjoins, it does not merge.
    Whenever it returns a query (for any base query, cyclic or not),
    the query's [where] is an object whose [$and] is an array of
    exactly two conditions; the first is [undefined] when the
    association has no scope, and a copy of the scope's cell in a cell
    of its own when the scope is an object. *)
Theorem belongsToMany_conjoins_scope_and_where (fuel : nat)
    (association : Rewriter.Association) (q id v : Rewriter.jsval)
    (h h' : list Rewriter.cell)
    (Hret : Rewriter.belongsToManyQueryGenerator fuel association q id h
            = (h', Ok v)) :
  exists s w : Rewriter.jsval,
    where_and h' v = Some (s, w) /\
    (Rewriter.jtruthy (Rewriter.scope association) = false ->
     s = Rewriter.JUndefined) /\
    (forall ls cs,
       Rewriter.scope association = Rewriter.JRef ls ->
       h !! ls = Some cs ->
       exists ls', s = Rewriter.JRef ls' /\ h !! ls' = None /\
                   h' !! ls' = Some cs).
Proof.
  unfold Rewriter.belongsToManyQueryGenerator in Hret.
  apply CloneFacts.bind_Ok in Hret as (h1 & query & Hc & Hret).
  apply CloneFacts.bind_Ok in Hret as (h2 & s & Hs & Hret).
  apply CloneFacts.bind_Ok in Hret as (h2' & w & Hg & Hret).
  apply PinFacts.get_prop_Ok in Hg as [-> _].
  apply CloneFacts.bind_Ok in Hret as (h3 & and_ & Ha & Hret).
  apply PinFacts.alloc_Ok in Ha as [-> ->].
  apply CloneFacts.bind_Ok in Hret as (h4 & wn & Ha & Hret).
  apply PinFacts.alloc_Ok in Ha as [-> ->].
  apply CloneFacts.bind_Ok in Hret as (h5 & u5 & Hq & Hret).
  apply PinFacts.set_prop_Ok in Hq as (lq' & c4 & -> & Hc4 & Hh5).
  destruct (PinFacts.cloneDeep_query _ _ _ _ _ Hc)
    as (m & lq & c & -> & Hq & Hlq & Hinj & Hrange & Hc' & Hmc).
  pose proof (CloneFacts.cloneDeep_grows fuel (Rewriter.JRef lq) h) as Hgr.
  rewrite Hc in Hgr. destruct Hgr as [Hgl Hgf]. simpl in Hgl, Hgf.
  assert (Hext : exists ext2, h2 = (h1 ++ ext2)%list /\
            (Rewriter.jtruthy (Rewriter.scope association) = false ->
             s = Rewriter.JUndefined) /\
            (forall ls cs,
               Rewriter.scope association = Rewriter.JRef ls ->
               h !! ls = Some cs ->
               s = Rewriter.JRef (length h1) /\ ext2 = [cs])).
  { destruct (Rewriter.jtruthy (Rewriter.scope association)) eqn:Et.
    - apply PinFacts.clone_Ok in Hs as [Hr Hn].
      destruct (Rewriter.scope association) as [| | | | |ls] eqn:Es;
        try (destruct Hn as [-> ->]; [discriminate|]; exists [];
             rewrite app_nil_r; repeat split; discriminate).
      destruct (Hr ls eq_refl) as (cs & Hcs & -> & ->).
      exists [cs]. split; [reflexivity|]. split; [discriminate|].
      intros ls' cs' [= <-] Hl.
      rewrite Hgf in Hcs by now apply lookup_lt_Some in Hl.
      rewrite Hl in Hcs. now injection Hcs as ->.
    - injection Hs as <- <-. exists []. rewrite app_nil_r.
      split; [reflexivity|]. split; [reflexivity|].
      intros ls cs Es. rewrite Es in Et. discriminate. }
  destruct Hext as (ext2 & -> & Hund & Hscope).
  set (h2 := (h1 ++ ext2)%list) in *.
  set (la := length h2) in *.
  set (cand := Rewriter.CArray [s; w] []) in *.
  set (cw := Rewriter.CObject [("$and", Rewriter.JRef la)]) in *.
  set (lw := length (h2 ++ [cand])%list) in *.
  assert (Hlw : lw = S la) by (unfold lw; rewrite length_app; simpl; lia).
  assert (Hlq1 : (lq' < length h1)%nat) by now apply lookup_lt_Some in Hc'.
  assert (Hla : (length h1 <= la)%nat)
    by (unfold la, h2; rewrite length_app; lia).
  assert (H4a : ((h2 ++ [cand]) ++ [cw])%list !! la = Some cand).
  { rewrite lookup_app_l by lia. unfold la. apply list_lookup_middle.
    reflexivity. }
  assert (H4w : ((h2 ++ [cand]) ++ [cw])%list !! lw = Some cw).
  { unfold lw. apply list_lookup_middle. reflexivity. }
  assert (H4q : ((h2 ++ [cand]) ++ [cw])%list !! lq'
                = Some (Clone.copy_cell m c)).
  { do 3 apply lookup_app_l_Some. exact Hc'. }
  rewrite H4q in Hc4. injection Hc4 as <-.
  set (h4 := ((h2 ++ [cand]) ++ [cw])%list) in *.
  assert (Hlen4 : length h4 = S lw).
  { unfold h4. rewrite length_app. simpl. fold lw. lia. }
  set (prot := fun l : nat => (length h1 <= l <= lw)%nat).
  set (keep := fun k : string => String.eqb k "where").
  set (props0 := [("where", Rewriter.JRef lw)]).
  assert (Hwork : Frame.working prot keep props0 "include" false
                    (Rewriter.JRef lq') h5).
  { split; [intros l [_ Hl]; subst h5; rewrite length_insert; lia|].
    split; [unfold prot; lia|].
    eexists. split; [subst h5; apply list_lookup_insert_eq; lia|].
    rewrite StepFacts.cell_props_with_props.
    split; [|split; [|discriminate]].
    - intros k Hk. apply String.eqb_eq in Hk. subst k.
      apply StepFacts.pget_pset_same.
    - rewrite StepFacts.pget_pset_other by discriminate.
      destruct (Rewriter.pget (Rewriter.cell_props (Clone.copy_cell m c))
                  "include") as [| | | | |li] eqn:Ei; simpl; auto.
      destruct (RunFacts.copy_holds_copies m c "include" li Hmc
                  ltac:(discriminate) ltac:(discriminate) Ei)
        as (props & lo & _ & _ & Hlo).
      apply Hrange in Hlo. unfold prot. lia. }
  match type of Hret with
  | ?tail _ = _ =>
      assert (Hstep : Frame.step prot keep props0 "include" false
                        (Rewriter.JRef lq') tail
                        (fun r => r = Rewriter.JRef lq' /\
                                  exists l, Rewriter.JRef lq' = Rewriter.JRef l))
  end.
  { assert (Hq' : exists l, Rewriter.JRef lq' = Rewriter.JRef l) by eauto.
    RewriterFacts.through_steps association prot. }
  destruct (Hstep h5 Hwork) as ((_ & Hff) & _ & Ha).
  rewrite Hret in Hff, Ha. simpl in Hff, Ha.
  destruct (Ha v eq_refl) as [(_ & _ & cq & Hcq & Hkeep & _) [-> _]].
  assert (H5 : forall l, prot l -> h' !! l = h4 !! l).
  { intros l Hl. rewrite Hff by exact Hl. subst h5.
    apply list_lookup_insert_ne. unfold prot in Hl. lia. }
  exists s, w. split; [|split; [exact Hund|]].
  - unfold where_and. rewrite Hcq. rewrite (Hkeep "where" eq_refl).
    change (Rewriter.pget props0 "where") with (Rewriter.JRef lw).
    cbv iota.
    rewrite (H5 lw) by (unfold prot; lia). rewrite H4w.
    change (Rewriter.pget (Rewriter.cell_props cw) "$and")
      with (Rewriter.JRef la).
    cbv iota.
    rewrite (H5 la) by (unfold prot; lia). now rewrite H4a.
  - intros ls cs Es Hl. destruct (Hscope ls cs Es Hl) as [-> Hx].
    exists (length h1). split; [reflexivity|]. split.
    + apply lookup_ge_None. lia.
    + assert (Hlt : (length h1 < la)%nat).
      { unfold la, h2. rewrite Hx, length_app. simpl. lia. }
      rewrite H5 by (unfold prot; lia). unfold h4, h2. rewrite Hx.
      do 2 apply lookup_app_l_Some. apply list_lookup_middle. reflexivity.
Qed.

Lemma belongsToMany_conjoins_scope_and_where_witness :
  exists s w : Rewriter.jsval,
    where_and
      (fst (Rewriter.belongsToManyQueryGenerator 7 groups_of_user
              (Rewriter.JRef 0) (Rewriter.JNum 7) caller_heap))
      (Rewriter.JRef 7)
    = Some (s, w) /\
    (Rewriter.jtruthy (Rewriter.scope groups_of_user) = false ->
     s = Rewriter.JUndefined) /\
    (forall ls cs,
       Rewriter.scope groups_of_user = Rewriter.JRef ls ->
       caller_heap !! ls = Some cs ->
       exists ls', s = Rewriter.JRef ls' /\ caller_heap !! ls' = None /\
                   fst (Rewriter.belongsToManyQueryGenerator 7 groups_of_user
                          (Rewriter.JRef 0) (Rewriter.JNum 7) caller_heap)
                   !! ls' = Some cs).
Proof.
  apply (belongsToMany_conjoins_scope_and_where 7 groups_of_user
           (Rewriter.JRef 0) (Rewriter.JNum 7) (Rewriter.JRef 7)
           caller_heap).
  vm_compute. reflexivity.
Defined.

(** ** The rewriters return on plain queries *)

Module ReturnFacts.
Import Rewriter Clone Frame CloneFacts StepFacts RunFacts PinFacts.
Local Open Scope nat_scope.
Local Open Scope list_scope.

(** A heap that has grown is the heap it was, with cells after it. *)
Lemma grows_extension (h h1 : heap) :
  grows h h1 -> exists ext, h1 = h ++ ext.
Proof.
  intros [Hl Hf]. exists (drop (length h) h1).
  rewrite <- (take_drop (length h) h1) at 1. f_equal.
  apply list_eq. intros i. destruct (decide (i < length h)) as [Hi|Hi].
  - rewrite lookup_take_lt by exact Hi. now apply Hf.
  - rewrite lookup_take_ge by lia. symmetry. apply lookup_ge_None. lia.
Qed.

(** A tree does not hold itself. *)
Lemma tree_not_own (h : heap) (l : loc) (c : cell) :
  h !! l = Some c ->
  forall n, tree_within n h (JRef l) = true ->
    ~ In (JRef l) (map snd (cell_props c)).
Proof.
  intros Hc n. induction n as [|n IH]; [discriminate|].
  intros Ht Hin. assert (Ht' := Ht). simpl in Ht'. rewrite Hc in Ht'.
  apply andb_true_iff in Ht' as [_ H2]. rewrite forallb_forall in H2.
  apply in_map_iff in Hin as (kv & Hkv & Hin).
  specialize (H2 kv Hin). rewrite Hkv in H2.
  apply (IH H2). apply in_map_iff. now exists kv.
Qed.

Lemma tree_not_own_where (n : nat) (h : heap) (q : jsval) :
  tree_within n h q = true -> own_where h q = false.
Proof.
  intros Ht. unfold own_where. destruct q as [| | | | |lq]; try reflexivity.
  destruct (h !! lq) as [[props|elems props]|] eqn:Hc; try reflexivity.
  destruct (pget props "where") as [| | | | |l] eqn:Ew; try reflexivity.
  destruct (Nat.eqb_spec l lq) as [->|Hne]; [|reflexivity].
  exfalso. apply (tree_not_own h lq _ Hc n Ht). simpl.
  destruct (pget_child props "where") as [E|Hin]; [congruence|].
  now rewrite Ew in Hin.
Qed.

Lemma like_rename (m : memo) (x : jsval) : mapped m x -> like x (rename m x).
Proof.
  destruct x as [| | | | |l]; simpl; try reflexivity.
  intros [l' ->]. now exists l'.
Qed.

(** On a tree, [cloneDeep] returns the copy of the query: a cell made
    by the copying, which holds under a name what the query holds, a
    reference replaced by a reference (an array keeps no names); its
    where-clause is not the copy itself. *)
Lemma cloneDeep_ok (fuel : nat) (h : heap) (lq : loc) (c : cell) :
  tree_within fuel h (JRef lq) = true -> h !! lq = Some c ->
  exists ext lq' c',
    cloneDeep fuel (JRef lq) h = (h ++ ext, Ok (JRef lq')) /\
    (h ++ ext) !! lq' = Some c' /\
    length h <= lq' /\
    (forall k, k <> "index" -> k <> "input" ->
       pget (cell_props c') k = JUndefined \/
       like (pget (cell_props c) k) (pget (cell_props c') k)) /\
    (forall lw, pget (cell_props c') "where" = JRef lw ->
       lw < length (h ++ ext) /\ lw <> lq').
Proof.
  intros Ht Hq.
  destruct (cloneDeep_returns_tree fuel (JRef lq) h Ht) as (h1 & v & Hc).
  destruct (cloneDeep_walked fuel _ _ _ _ Hc) as (m & _ & Hv & [l Hl] & _).
  simpl in Hv. rewrite Hl in Hv. subst v.
  destruct (cloneDeep_query _ _ _ _ _ Hc)
    as (m' & lq0 & c0 & [= <-] & Hq0 & Hlq & Hinj & Hrange & Hc' & Hmc).
  rewrite Hq in Hq0. injection Hq0 as <-. clear m Hl.
  pose proof (cloneDeep_grows fuel (JRef lq) h) as Hg. rewrite Hc in Hg.
  destruct (grows_extension _ _ Hg) as [ext He]. simpl in He. subst h1.
  exists ext, l, (copy_cell m' c).
  split; [exact Hc|]. split; [exact Hc'|].
  split; [now apply Hrange in Hlq|]. split.
  - intros k H1 H2. destruct c as [props|elems props].
    + right. rewrite pget_copy_object. apply like_rename.
      destruct (pget_child props k) as [->|Hin]; [exact I|].
      rewrite List.Forall_forall in Hmc. now apply Hmc.
    + left. now apply pget_copy_array.
  - intros lw Hw. split.
    + destruct (copy_holds_copies m' c "where" lw Hmc
                  ltac:(discriminate) ltac:(discriminate) Hw)
        as (props & lo & _ & _ & Hlo).
      now apply Hrange in Hlo.
    + apply (copy_where_is_not_query m' h lq l lw c); auto.
      now apply (tree_not_own_where fuel).
Qed.

Lemma get_prop_ref (l : loc) (c : cell) (k : string) (h : heap) :
  h !! l = Some c -> get_prop (JRef l) k h = (h, Ok (pget (cell_props c) k)).
Proof. unfold get_prop. now intros ->. Qed.

Lemma set_prop_ref (l : loc) (c : cell) (k : string) (x : jsval) (h : heap) :
  h !! l = Some c ->
  set_prop (JRef l) k x h
  = (<[l := with_props c (pset (cell_props c) k x)]> h, Ok tt).
Proof. unfold set_prop. now intros ->. Qed.

Lemma forM_set_prop_ok (lw : loc) (props : list (string * jsval)) :
  forall h : heap,
    is_Some (h !! lw) ->
    exists h',
      forM_ (fun kv => set_prop (JRef lw) (fst kv) (snd kv)) props h
      = (h', Ok tt) /\
      is_Some (h' !! lw) /\
      forall l, l <> lw -> h' !! l = h !! l.
Proof.
  induction props as [|[k x] props IH]; simpl; intros h Hw.
  - exists h. auto.
  - destruct Hw as [c Hc].
    rewrite (bind_eq _ _ _ _ _ (set_prop_ref lw c k x h Hc)).
    destruct (IH (<[lw := with_props c (pset (cell_props c) k x)]> h))
      as (h' & Hf & Hs & Ho).
    { rewrite list_lookup_insert_eq; [eauto|].
      now apply lookup_lt_Some in Hc. }
    exists h'. split; [exact Hf|]. split; [exact Hs|].
    intros l Hl. rewrite Ho by exact Hl.
    now apply list_lookup_insert_ne.
Qed.

Lemma assign_ok (lw : loc) (source : jsval) (h : heap) :
  is_Some (h !! lw) -> live_or_falsy h source ->
  exists h',
    assign_ (JRef lw) source h = (h', Ok tt) /\
    is_Some (h' !! lw) /\
    forall l, l <> lw -> h' !! l = h !! l.
Proof.
  intros Hw Hs. unfold assign_.
  destruct source as [| | | | |ls]; try (exists h; now auto).
  destruct Hs as [c Hc]. rewrite Hc. now apply forM_set_prop_ok.
Qed.

Lemma alloc_eq (c : cell) (h : heap) :
  alloc c h = (h ++ [c], Ok (JRef (length h))).
Proof. reflexivity. Qed.

Lemma push_ref (l : loc) (elems : list jsval)
    (props : list (string * jsval)) (x : jsval) (h : heap) :
  h !! l = Some (CArray elems props) ->
  push (JRef l) x h = (<[l := CArray (elems ++ [x]) props]> h, Ok tt).
Proof. unfold push. now intros ->. Qed.

Lemma carried_refl (lq : loc) (h : heap) : carried lq h h.
Proof. intros l x _ H. exact H. Qed.

Lemma carried_app (lq : loc) (h0 h ext : heap) :
  carried lq h0 h -> carried lq h0 (h ++ ext).
Proof. intros H l x Hl Hx. apply lookup_app_l_Some. now apply H. Qed.

Lemma carried_insert (lq : loc) (h0 h : heap) (l' : loc) (c : cell) :
  carried lq h0 h -> l' = lq \/ h0 !! l' = None ->
  carried lq h0 (<[l' := c]> h).
Proof.
  intros H Hl' l x Hl Hx. rewrite list_lookup_insert_ne; [now apply H|].
  destruct Hl' as [->|Hn]; congruence.
Qed.

Lemma carried_fresh (lq : loc) (h0 h : heap) :
  carried lq h0 h -> is_Some (h !! lq) ->
  length h <> lq /\ h0 !! length h = None.
Proof.
  intros H Hq. apply lookup_lt_is_Some in Hq. split; [lia|].
  destruct (h0 !! length h) as [x|] eqn:E; [|reflexivity].
  apply H in E; [|lia]. apply lookup_lt_Some in E. lia.
Qed.

Lemma live_carried (lq : loc) (hb h0 h : heap) (x : jsval) :
  live_or_falsy hb x ->
  (forall l y, hb !! l = Some y -> l <> lq /\ h0 !! l = Some y) ->
  carried lq h0 h -> live_or_falsy h x.
Proof.
  unfold live_or_falsy. destruct x as [| | | | |l]; auto.
  intros [y Hy] Hb Hc. destruct (Hb l y Hy) as [Hl H0].
  exists y. now apply Hc.
Qed.

Lemma hasPlural_single (li le : loc) (ps : list (string * jsval))
    (ce : cell) (h : heap) :
  h !! li = Some (CArray [JRef le] ps) -> h !! le = Some ce ->
  live_or_falsy h (pget (cell_props ce) "association") ->
  exists b, hasPluralAssociation (JRef li) h = (h, Ok b).
Proof.
  intros Hi He Ha. unfold hasPluralAssociation. cbn [jtruthy negb].
  rewrite Hi. cbn [some_].
  assert (Hf : exists b',
             (a <- get_prop (JRef le) "association" ;;
              if jtruthy a
              then m <- get_prop a "isMultiAssociation" ;; ret (jtruthy m)
              else ret false) h = (h, Ok b')).
  { rewrite (bind_eq _ _ _ _ _ (get_prop_ref le ce "association" h He)).
    unfold live_or_falsy in Ha.
    destruct (pget (cell_props ce) "association") as [| | | | |la];
      try (rewrite Ha; eexists; reflexivity).
    destruct Ha as [ca Hca]. cbn [jtruthy].
    rewrite (bind_eq _ _ _ _ _ (get_prop_ref la ca _ h Hca)).
    eexists. reflexivity. }
  destruct Hf as [b' Hf]. rewrite (bind_eq _ _ _ _ _ Hf).
  destruct b'; eexists; reflexivity.
Qed.

End ReturnFacts.

(** X27. The hasMany rewriter returns on a plain query.  When the base
    query is an object, a tree of depth at most [fuel], without
    includes, whose [where] is an object or absent, and the
    association's scope is an object of the heap or absent, the
    rewriter throws nothing: it returns a query, in a cell that did
    not exist before, whose [where] holds the parent's id in the
    foreign-key column. *)
Theorem hasMany_returns_on_plain_query (fuel : nat)
    (association : Rewriter.Association) (id : Rewriter.jsval)
    (h : list Rewriter.cell) (lq : nat) (c : Rewriter.cell)
    (Htree : Frame.tree_within fuel h (Rewriter.JRef lq) = true)
    (Hq : h !! lq = Some c)
    (Hwhere : object_or_falsy (Rewriter.pget (Rewriter.cell_props c) "where"))
    (Hinc : Rewriter.jtruthy (Rewriter.pget (Rewriter.cell_props c) "include")
            = false)
    (Hscope : live_or_falsy h (Rewriter.scope association)) :
  exists (h' : list Rewriter.cell) (lq' : nat),
    Rewriter.hasManyQueryGenerator fuel association (Rewriter.JRef lq) id h
    = (h', Ok (Rewriter.JRef lq')) /\
    h !! lq' = None /\
    where_field h' (Rewriter.JRef lq') (Rewriter.foreignKey association)
    = Some id.
Proof.
  unfold Rewriter.hasManyQueryGenerator.
  destruct (ReturnFacts.cloneDeep_ok fuel h lq c Htree Hq)
    as (ext & lq' & c' & Hc & Hc' & Hb & Hrel & Hbw).
  pose proof (lookup_lt_Some _ _ _ Hc') as Hlq'.
  rewrite (CloneFacts.bind_eq _ _ _ _ _ Hc).
  rewrite (CloneFacts.bind_eq _ _ _ _ _
             (ReturnFacts.get_prop_ref lq' c' "where" _ Hc')).
  pose proof (Hrel "where" ltac:(discriminate) ltac:(discriminate)) as Hlw.
  pose proof (Hrel "include" ltac:(discriminate) ltac:(discriminate)) as Hli.
  set (w0 := Rewriter.pget (Rewriter.cell_props c') "where") in *.
  assert (Hw : exists h3 lw,
             (if Rewriter.jtruthy w0 then ret w0
              else Rewriter.alloc (Rewriter.CObject [])) (h ++ ext)%list
             = (h3, Ok (Rewriter.JRef lw)) /\
             h3 !! lq' = Some c' /\ is_Some (h3 !! lw) /\ lw <> lq' /\
             forall l, (l < length h)%nat -> h3 !! l = h !! l).
  { destruct (Rewriter.jtruthy w0) eqn:Et.
    - destruct Hlw as [E|Hlw]; [rewrite E in Et; discriminate|].
      destruct (Rewriter.pget (Rewriter.cell_props c) "where")
        as [| | | | |l0]; simpl in Hwhere, Hlw;
        try (rewrite Hlw in Et; simpl in Et; congruence).
      destruct Hlw as [lw Hlw]. destruct (Hbw lw Hlw) as [Hlt Hne].
      exists (h ++ ext)%list, lw. rewrite Hlw. split; [reflexivity|].
      split; [exact Hc'|]. split; [now apply lookup_lt_is_Some|].
      split; [exact Hne|]. intros l Hl. now apply lookup_app_l.
    - exists ((h ++ ext) ++ [Rewriter.CObject []])%list, (length (h ++ ext)).
      split; [reflexivity|].
      split; [now apply lookup_app_l_Some|].
      split; [rewrite list_lookup_middle; eauto|].
      split; [lia|]. intros l Hl.
      rewrite <- app_assoc. now apply lookup_app_l. }
  destruct Hw as (h3 & lw & Hw & H3q & H3w & Hne & H3h). clearbody w0.
  rewrite (CloneFacts.bind_eq _ _ _ _ _ Hw).
  rewrite (CloneFacts.bind_eq _ _ _ _ _
             (ReturnFacts.set_prop_ref lq' c' "where" (Rewriter.JRef lw)
                h3 H3q)).
  set (c4 := Rewriter.with_props c'
               (Rewriter.pset (Rewriter.cell_props c') "where"
                  (Rewriter.JRef lw))).
  assert (Hc4w : Rewriter.pget (Rewriter.cell_props c4) "where"
                 = Rewriter.JRef lw).
  { unfold c4. rewrite StepFacts.cell_props_with_props.
    apply StepFacts.pget_pset_same. }
  assert (Hc4i : Rewriter.jtruthy
                   (Rewriter.pget (Rewriter.cell_props c4) "include")
                 = false).
  { unfold c4. rewrite StepFacts.cell_props_with_props.
    rewrite StepFacts.pget_pset_other by discriminate.
    destruct Hli as [E|Hli]; [now rewrite E|].
    destruct (Rewriter.pget (Rewriter.cell_props c) "include");
      simpl in Hli, Hinc; try discriminate; now rewrite Hli. }
  clearbody c4.
  assert (H4q : <[lq' := c4]> h3 !! lq' = Some c4).
  { apply list_lookup_insert_eq. now apply lookup_lt_Some in H3q. }
  assert (H4w : is_Some (<[lq' := c4]> h3 !! lw)).
  { rewrite list_lookup_insert_ne by congruence. exact H3w. }
  assert (H4h : forall l, (l < length h)%nat ->
                  <[lq' := c4]> h3 !! l = h !! l).
  { intros l Hl. rewrite list_lookup_insert_ne by lia. now apply H3h. }
  set (h4 := <[lq' := c4]> h3) in *. clearbody h4. clear H3q H3w H3h Hw.
  assert (Hsc : exists h5,
             (if Rewriter.jtruthy (Rewriter.scope association)
              then w1 <- Rewriter.get_prop (Rewriter.JRef lq') "where" ;;
                   Rewriter.assign_ w1 (Rewriter.scope association)
              else ret tt) h4 = (h5, Ok tt) /\
             h5 !! lq' = Some c4 /\ is_Some (h5 !! lw)).
  { destruct (Rewriter.jtruthy (Rewriter.scope association));
      [|now exists h4].
    rewrite (CloneFacts.bind_eq _ _ _ _ _
               (ReturnFacts.get_prop_ref lq' c4 "where" h4 H4q)).
    rewrite Hc4w.
    destruct (ReturnFacts.assign_ok lw (Rewriter.scope association) h4 H4w)
      as (h5 & Ha & Hs & Ho).
    { unfold live_or_falsy in *.
      destruct (Rewriter.scope association) as [| | | | |ls]; auto.
      rewrite H4h; [exact Hscope|]. now apply lookup_lt_is_Some. }
    exists h5. split; [exact Ha|]. split; [|exact Hs].
    rewrite Ho by congruence. exact H4q. }
  destruct Hsc as (h5 & Hsc & H5q & [cw H5w]).
  rewrite (CloneFacts.bind_eq _ _ _ _ _ Hsc).
  rewrite (CloneFacts.bind_eq _ _ _ _ _
             (ReturnFacts.get_prop_ref lq' c4 "where" h5 H5q)).
  rewrite Hc4w.
  rewrite (CloneFacts.bind_eq _ _ _ _ _
             (ReturnFacts.set_prop_ref lw cw
                (Rewriter.foreignKey association) id h5 H5w)).
  set (cw' := Rewriter.with_props cw
                (Rewriter.pset (Rewriter.cell_props cw)
                   (Rewriter.foreignKey association) id)).
  assert (H6q : <[lw := cw']> h5 !! lq' = Some c4).
  { rewrite list_lookup_insert_ne by exact Hne. exact H5q. }
  assert (H6w : <[lw := cw']> h5 !! lw = Some cw').
  { apply list_lookup_insert_eq. now apply lookup_lt_Some in H5w. }
  rewrite (CloneFacts.bind_eq _ _ _ _ _
             (ReturnFacts.get_prop_ref lq' c4 "include" _ H6q)).
  unfold Rewriter.hasPluralAssociation at 1. unfold bind at 1.
  rewrite Hc4i. cbn [negb]. cbv iota.
  exists (<[lw := cw']> h5), lq'. split; [reflexivity|].
  split; [apply lookup_ge_None; lia|].
  unfold where_field. rewrite H6q, Hc4w, H6w. unfold cw'.
  rewrite StepFacts.cell_props_with_props.
  now rewrite StepFacts.pget_pset_same.
Qed.

Lemma hasMany_returns_on_plain_query_witness :
  exists (h' : list Rewriter.cell) (lq' : nat),
    Rewriter.hasManyQueryGenerator 3 posts_of_user (Rewriter.JRef 0)
      (Rewriter.JNum 7) plain_heap
    = (h', Ok (Rewriter.JRef lq')) /\
    plain_heap !! lq' = None /\
    where_field h' (Rewriter.JRef lq') "user_id" = Some (Rewriter.JNum 7).
Proof.
  exact (hasMany_returns_on_plain_query 3 posts_of_user (Rewriter.JNum 7)
           plain_heap 0 _ eq_refl eq_refl I eq_refl (ex_intro _ _ eq_refl)).
Defined.

(** X28. The belongsToMany rewriter returns on a plain query.  When the
    base query is an object, a tree of depth at most [fuel], without
    includes and without a through filter, the association has a
    through model, and its scope, its through scope and its target
    association are objects of the heap or absent, the rewriter throws
    nothing: it returns a query, in a cell that did not exist before,
    whose [where] is a conjunction of two conditions. *)
Theorem belongsToMany_returns_on_plain_query (fuel : nat)
    (association : Rewriter.Association) (t : Rewriter.Through)
    (id : Rewriter.jsval)
    (h : list Rewriter.cell) (lq : nat) (c : Rewriter.cell)
    (Htree : Frame.tree_within fuel h (Rewriter.JRef lq) = true)
    (Hq : h !! lq = Some c)
    (Hinc : Rewriter.jtruthy (Rewriter.pget (Rewriter.cell_props c) "include")
            = false)
    (Hthr : Rewriter.jtruthy (Rewriter.pget (Rewriter.cell_props c) "through")
            = false)
    (Ht : Rewriter.through association = Some t)
    (Hscope : live_or_falsy h (Rewriter.scope association))
    (Htscope : live_or_falsy h (Rewriter.through_scope t))
    (Htarget : live_or_falsy h (Rewriter.oneFromTarget association)) :
  exists (h' : list Rewriter.cell) (lq' : nat) (s w : Rewriter.jsval),
    Rewriter.belongsToManyQueryGenerator fuel association
      (Rewriter.JRef lq) id h
    = (h', Ok (Rewriter.JRef lq')) /\
    h !! lq' = None /\
    where_and h' (Rewriter.JRef lq') = Some (s, w).
Proof.
  unfold Rewriter.belongsToManyQueryGenerator.
  destruct (ReturnFacts.cloneDeep_ok fuel h lq c Htree Hq)
    as (ext & lq' & c' & Hc & Hc' & Hb & Hrel & _).
  rewrite (CloneFacts.bind_eq _ _ _ _ _ Hc).
  pose proof (Hrel "include" ltac:(discriminate) ltac:(discriminate)) as Hli.
  pose proof (Hrel "through" ltac:(discriminate) ltac:(discriminate)) as Hlt.
  assert (Hci : Rewriter.jtruthy
                  (Rewriter.pget (Rewriter.cell_props c') "include") = false).
  { destruct Hli as [E|Hli]; [now rewrite E|].
    destruct (Rewriter.pget (Rewriter.cell_props c) "include");
      simpl in Hli, Hinc; try discriminate; now rewrite Hli. }
  assert (Hct : Rewriter.jtruthy
                  (Rewriter.pget (Rewriter.cell_props c') "through") = false).
  { destruct Hlt as [E|Hlt]; [now rewrite E|].
    destruct (Rewriter.pget (Rewriter.cell_props c) "through");
      simpl in Hlt, Hthr; try discriminate; now rewrite Hlt. }
  clear Hli Hlt Hrel Hinc Hthr Hc Htree Hq.
  assert (Hs : exists ext2 s,
             (if Rewriter.jtruthy (Rewriter.scope association)
              then Rewriter.clone (Rewriter.scope association)
              else ret Rewriter.JUndefined) (h ++ ext)%list
             = (((h ++ ext) ++ ext2)%list, Ok s)).
  { unfold live_or_falsy in Hscope.
    destruct (Rewriter.scope association) as [| | | | |ls] eqn:Es;
      try (simpl in Hscope; simpl; rewrite ?Hscope;
           eexists [], _; now rewrite app_nil_r).
    destruct Hscope as [cs Hcs]. apply (lookup_app_l_Some _ ext) in Hcs.
    simpl. unfold Rewriter.clone. rewrite Hcs. now eexists [cs], _. }
  destruct Hs as (ext2 & s & Hs).
  rewrite (CloneFacts.bind_eq _ _ _ _ _ Hs). clear Hs Hscope.
  set (h2 := ((h ++ ext) ++ ext2)%list) in *.
  assert (H2q : h2 !! lq' = Some c') by now apply lookup_app_l_Some.
  assert (H2b : forall l y, h !! l = Some y -> h2 !! l = Some y).
  { intros l y Hy. now do 2 apply lookup_app_l_Some. }
  rewrite (CloneFacts.bind_eq _ _ _ _ _
             (ReturnFacts.get_prop_ref lq' c' "where" _ H2q)).
  set (w := Rewriter.pget (Rewriter.cell_props c') "where").
  rewrite (CloneFacts.bind_eq _ _ _ _ _ (ReturnFacts.alloc_eq _ _)).
  rewrite (CloneFacts.bind_eq _ _ _ _ _ (ReturnFacts.alloc_eq _ _)).
  set (cand := Rewriter.CArray [s; w] []).
  set (la := length h2).
  set (cw := Rewriter.CObject [("$and", Rewriter.JRef la)]).
  set (lw := length (h2 ++ [cand])%list).
  set (h4 := ((h2 ++ [cand]) ++ [cw])%list).
  assert (H4a : h4 !! la = Some cand).
  { apply lookup_app_l_Some. apply list_lookup_middle. reflexivity. }
  assert (H4w : h4 !! lw = Some cw).
  { apply list_lookup_middle. reflexivity. }
  assert (H4q : h4 !! lq' = Some c') by now do 2 apply lookup_app_l_Some.
  assert (H4b : forall l y, h !! l = Some y -> l <> lq' /\ h4 !! l = Some y).
  { intros l y Hy. split.
    - apply lookup_lt_Some in Hy. lia.
    - do 2 apply lookup_app_l_Some. now apply H2b. }
  assert (Hla : la <> lq').
  { apply lookup_lt_Some in H2q. unfold la. lia. }
  assert (Hlw : lw <> lq').
  { apply lookup_lt_Some in H2q. unfold lw. rewrite length_app. simpl. lia. }
  clearbody h4 la lw. clear H2q H2b Hc'.
  rewrite (CloneFacts.bind_eq _ _ _ _ _
             (ReturnFacts.set_prop_ref lq' c' "where" (Rewriter.JRef lw)
                h4 H4q)).
  set (c5 := Rewriter.with_props c'
               (Rewriter.pset (Rewriter.cell_props c') "where"
                  (Rewriter.JRef lw))).
  assert (P5w : Rewriter.pget (Rewriter.cell_props c5) "where"
                = Rewriter.JRef lw).
  { unfold c5. rewrite StepFacts.cell_props_with_props.
    apply StepFacts.pget_pset_same. }
  assert (P5i : Rewriter.jtruthy
                  (Rewriter.pget (Rewriter.cell_props c5) "include") = false).
  { unfold c5. rewrite StepFacts.cell_props_with_props.
    now rewrite StepFacts.pget_pset_other by discriminate. }
  assert (P5t : Rewriter.jtruthy
                  (Rewriter.pget (Rewriter.cell_props c5) "through") = false).
  { unfold c5. rewrite StepFacts.cell_props_with_props.
    now rewrite StepFacts.pget_pset_other by discriminate. }
  assert (Q5 : <[lq' := c5]> h4 !! lq' = Some c5).
  { apply list_lookup_insert_eq. now apply lookup_lt_Some in H4q. }
  assert (F5 : carried lq' h4 (<[lq' := c5]> h4)).
  { apply ReturnFacts.carried_insert; [apply ReturnFacts.carried_refl | auto]. }
  clearbody c5. set (h5 := <[lq' := c5]> h4) in *. clearbody h5.
  clear Hci Hct H4q.
  rewrite Ht. rewrite CloneFacts.bind_ret.
  assert (Hbr : exists h11 c11 b,
            (if Rewriter.jtruthy (Rewriter.through_model t)
             then
               throughWhere <-
                 Rewriter.alloc
                   (Rewriter.CObject [(Rewriter.foreignKey association, id)]) ;;
               (if Rewriter.jtruthy (Rewriter.through_scope t)
                then Rewriter.assign_ throughWhere (Rewriter.through_scope t)
                else ret tt) ;;;
               qt <- Rewriter.get_prop (Rewriter.JRef lq') "through" ;;
               qtw <- (if Rewriter.jtruthy qt
                       then Rewriter.get_prop qt "where" else ret qt) ;;
               throughWhere <-
                 (if Rewriter.jtruthy qtw
                  then
                    qt <- Rewriter.get_prop (Rewriter.JRef lq') "through" ;;
                    qtw <- Rewriter.get_prop qt "where" ;;
                    and_ <- Rewriter.alloc
                              (Rewriter.CArray [throughWhere; qtw] []) ;;
                    Rewriter.alloc (Rewriter.CObject [("$and", and_)])
                  else ret throughWhere) ;;
               include <- Rewriter.get_prop (Rewriter.JRef lq') "include" ;;
               include <- (if Rewriter.jtruthy include then ret include
                           else Rewriter.alloc (Rewriter.CArray [] [])) ;;
               Rewriter.set_prop (Rewriter.JRef lq') "include" include ;;;
               include <- Rewriter.get_prop (Rewriter.JRef lq') "include" ;;
               attrs <- Rewriter.get_prop (Rewriter.JRef lq')
                          "joinTableAttributes" ;;
               entry <-
                 Rewriter.alloc
                   (Rewriter.CObject
                      [ ("association", Rewriter.oneFromTarget association);
                        ("attributes", attrs);
                        ("require", Rewriter.JBool true);
                        ("where", throughWhere) ]) ;;
               Rewriter.push include entry
             else ret tt) h5 = (h11, Ok tt) /\
            carried lq' h4 h11 /\
            h11 !! lq' = Some c11 /\
            Rewriter.pget (Rewriter.cell_props c11) "where"
            = Rewriter.JRef lw /\
            Rewriter.hasPluralAssociation
              (Rewriter.pget (Rewriter.cell_props c11) "include") h11
            = (h11, Ok b)).
  { destruct (Rewriter.jtruthy (Rewriter.through_model t)).
    2:{ exists h5, c5, false. repeat (split; [assumption || reflexivity|]).
        unfold Rewriter.hasPluralAssociation. now rewrite P5i. }
    rewrite (CloneFacts.bind_eq _ _ _ _ _ (ReturnFacts.alloc_eq _ _)).
    set (tw := Rewriter.CObject [(Rewriter.foreignKey association, id)]).
    destruct (ReturnFacts.carried_fresh lq' h4 h5 F5 (ex_intro _ _ Q5))
      as [Hlt Hlt0].
    set (lt := length h5) in *.
    assert (H6t : (h5 ++ [tw])%list !! lt = Some tw)
      by (apply list_lookup_middle; reflexivity).
    assert (Hsc : exists h7,
               (if Rewriter.jtruthy (Rewriter.through_scope t)
                then Rewriter.assign_ (Rewriter.JRef lt)
                       (Rewriter.through_scope t)
                else ret tt) (h5 ++ [tw])%list = (h7, Ok tt) /\
               carried lq' h4 h7 /\ h7 !! lq' = Some c5).
    { destruct (Rewriter.jtruthy (Rewriter.through_scope t)).
      2:{ exists (h5 ++ [tw])%list. split; [reflexivity|].
          split; [now apply ReturnFacts.carried_app
                 | now apply lookup_app_l_Some]. }
      destruct (ReturnFacts.assign_ok lt (Rewriter.through_scope t)
                  (h5 ++ [tw])%list (ex_intro _ _ H6t))
        as (h7 & Ha & _ & Ho).
      { apply (ReturnFacts.live_carried lq' h h4); [exact Htscope | exact H4b|].
        now apply ReturnFacts.carried_app. }
      exists h7. split; [exact Ha|]. split.
      - intros l x Hl Hx. rewrite Ho by congruence.
        apply lookup_app_l_Some. now apply F5.
      - rewrite Ho by congruence. now apply lookup_app_l_Some. }
    destruct Hsc as (h7 & Hsc & F7 & Q7).
    rewrite (CloneFacts.bind_eq _ _ _ _ _ Hsc).
    rewrite (CloneFacts.bind_eq _ _ _ _ _
               (ReturnFacts.get_prop_ref lq' c5 "through" h7 Q7)).
    rewrite P5t. rewrite CloneFacts.bind_ret.
    rewrite P5t. rewrite CloneFacts.bind_ret.
    rewrite (CloneFacts.bind_eq _ _ _ _ _
               (ReturnFacts.get_prop_ref lq' c5 "include" h7 Q7)).
    rewrite P5i.
    rewrite (CloneFacts.bind_eq _ _ _ _ _ (ReturnFacts.alloc_eq _ _)).
    destruct (ReturnFacts.carried_fresh lq' h4 h7 F7 (ex_intro _ _ Q7))
      as [Hli Hli0].
    set (li := length h7) in *.
    assert (Q8 : (h7 ++ [Rewriter.CArray [] []])%list !! lq' = Some c5)
      by now apply lookup_app_l_Some.
    rewrite (CloneFacts.bind_eq _ _ _ _ _
               (ReturnFacts.set_prop_ref lq' c5 "include" (Rewriter.JRef li)
                  _ Q8)).
    set (c9 := Rewriter.with_props c5
                 (Rewriter.pset (Rewriter.cell_props c5) "include"
                    (Rewriter.JRef li))).
    set (h9 := <[lq' := c9]> (h7 ++ [Rewriter.CArray [] []])%list).
    assert (Q9 : h9 !! lq' = Some c9).
    { apply list_lookup_insert_eq. now apply lookup_lt_Some in Q8. }
    assert (P9i : Rewriter.pget (Rewriter.cell_props c9) "include"
                  = Rewriter.JRef li).
    { unfold c9. rewrite StepFacts.cell_props_with_props.
      apply StepFacts.pget_pset_same. }
    assert (P9w : Rewriter.pget (Rewriter.cell_props c9) "where"
                  = Rewriter.JRef lw).
    { unfold c9. rewrite StepFacts.cell_props_with_props.
      now rewrite StepFacts.pget_pset_other by discriminate. }
    assert (F9 : carried lq' h4 h9).
    { apply ReturnFacts.carried_insert; [|auto].
      now apply ReturnFacts.carried_app. }
    assert (H9i : h9 !! li = Some (Rewriter.CArray [] [])).
    { unfold h9. rewrite list_lookup_insert_ne by congruence.
      apply list_lookup_middle. reflexivity. }
    assert (Hlen9 : length h9 = S li).
    { unfold h9. rewrite length_insert, length_app. simpl. lia. }
    clearbody h9 c9.
    rewrite (CloneFacts.bind_eq _ _ _ _ _
               (ReturnFacts.get_prop_ref lq' c9 "include" h9 Q9)).
    rewrite P9i.
    rewrite (CloneFacts.bind_eq _ _ _ _ _
               (ReturnFacts.get_prop_ref lq' c9 "joinTableAttributes" h9 Q9)).
    rewrite (CloneFacts.bind_eq _ _ _ _ _ (ReturnFacts.alloc_eq _ _)).
    match goal with
    | |- context [ (h9 ++ [?e])%list ] => set (entry := e)
    end.
    rewrite (ReturnFacts.push_ref li [] [] (Rewriter.JRef (length h9))
               (h9 ++ [entry])%list (lookup_app_l_Some _ _ _ _ H9i)).
    set (h11 := <[li := Rewriter.CArray ([] ++ [Rewriter.JRef (length h9)]) []]>
                  (h9 ++ [entry])%list).
    assert (F11 : carried lq' h4 h11).
    { apply ReturnFacts.carried_insert; [|auto].
      now apply ReturnFacts.carried_app. }
    assert (Q11 : h11 !! lq' = Some c9).
    { unfold h11. rewrite list_lookup_insert_ne by congruence.
      now apply lookup_app_l_Some. }
    assert (H11i : h11 !! li
                   = Some (Rewriter.CArray [Rewriter.JRef (length h9)] [])).
    { unfold h11. apply list_lookup_insert_eq.
      rewrite length_app. lia. }
    assert (H11e : h11 !! length h9 = Some entry).
    { unfold h11. rewrite list_lookup_insert_ne by lia.
      apply list_lookup_middle. reflexivity. }
    destruct (ReturnFacts.hasPlural_single li (length h9) [] entry h11
                H11i H11e) as [b Hp].
    { change (Rewriter.pget (Rewriter.cell_props entry) "association")
        with (Rewriter.oneFromTarget association).
      now apply (ReturnFacts.live_carried lq' h h4). }
    exists h11, c9, b. rewrite P9i. auto. }
  destruct Hbr as (h11 & c11 & b & Hbr & F11 & Q11 & P11w & Hp).
  rewrite (CloneFacts.bind_eq _ _ _ _ _ Hbr).
  rewrite (CloneFacts.bind_eq _ _ _ _ _
             (ReturnFacts.get_prop_ref lq' c11 "include" h11 Q11)).
  rewrite (CloneFacts.bind_eq _ _ _ _ _ Hp).
  assert (Hend : exists h12 c12,
             (if b then Rewriter.set_prop (Rewriter.JRef lq') "distinct"
                          (Rewriter.JBool true)
              else ret tt) h11 = (h12, Ok tt) /\
             carried lq' h4 h12 /\ h12 !! lq' = Some c12 /\
             Rewriter.pget (Rewriter.cell_props c12) "where"
             = Rewriter.JRef lw).
  { destruct b; [|now exists h11, c11].
    rewrite (ReturnFacts.set_prop_ref lq' c11 _ _ h11 Q11).
    eexists _, _. split; [reflexivity|]. split; [|split].
    - apply ReturnFacts.carried_insert; auto.
    - apply list_lookup_insert_eq. now apply lookup_lt_Some in Q11.
    - rewrite StepFacts.cell_props_with_props.
      now rewrite StepFacts.pget_pset_other by discriminate. }
  destruct Hend as (h12 & c12 & Hend & F12 & Q12 & P12w).
  rewrite (CloneFacts.bind_eq _ _ _ _ _ Hend).
  exists h12, lq', s, w. split; [reflexivity|].
  split; [apply lookup_ge_None; lia|].
  unfold where_and. rewrite Q12, P12w.
  rewrite (F12 lw cw Hlw H4w).
  change (Rewriter.pget (Rewriter.cell_props cw) "$and")
    with (Rewriter.JRef la).
  cbv iota. now rewrite (F12 la cand Hla H4a).
Qed.

Lemma belongsToMany_returns_on_plain_query_witness :
  exists (h' : list Rewriter.cell) (lq' : nat) (s w : Rewriter.jsval),
    Rewriter.belongsToManyQueryGenerator 3 teams_of_user
      (Rewriter.JRef 0) (Rewriter.JNum 7) plain_heap
    = (h', Ok (Rewriter.JRef lq')) /\
    plain_heap !! lq' = None /\
    where_and h' (Rewriter.JRef lq') = Some (s, w).
Proof.
  exact (belongsToMany_returns_on_plain_query 3 teams_of_user
           {| Rewriter.through_model := Rewriter.JBool true;
              Rewriter.through_scope := Rewriter.JUndefined |}
           (Rewriter.JNum 7) plain_heap 0 _
           eq_refl eq_refl eq_refl eq_refl eq_refl
           (ex_intro _ _ eq_refl) eq_refl eq_refl).
Defined.
